(** * stash_sqlite_to_pgsql: the batched migration pipeline

    A shallow embedding of the two drivers of the repository, [main.go]
    (one source and one destination transaction around the whole run, four
    repair rules) and its sibling (a transaction per batch, the numeric
    clamp only), together with the properties of the pipeline.

    Conventions.
    - A Go [map[string]interface{}] is a [gmap string value]; a batch
      ([[]map[string]interface{}]) is a list of rows.
    - [migrate] runs in a small state-and-error monad [M].  The state holds
      what the run leaves behind: the destination's open transaction and its
      committed transactions, the log, the standard output, the batches
      each fetch returned, and the external calls it made.
    - The two storage engines, the SQL builder, [encoding/json] and [time]
      are not part of the repository.  They are the fields of a [world]: the
      content of the source tables, an oracle telling which external call
      returns an error, the wall clock, the three library functions the
      rules call, and the row of defaults the destination stores for an
      insert statement built from no row.  Every theorem holds for every
      [world].
    - An error is named by the text before the colon of its [fmt.Errorf]
      format.  Offsets and lengths are natural numbers: a Go [int] does not
      overflow on a table that fits a disk.
    - The destination starts empty, as the tool requires of a run. *)

From Stdlib Require Import ZArith List String Lia.
From stdpp Require Import base gmap strings list.

Open Scope string_scope.
Open Scope list_scope.

(** ** Values, rows and batches *)

(** [time.Time]: an instant and the zone it is displayed in.  The code only
    asks a time for its [Year()] and converts the clock's reading with
    [UTC()]. *)
Record Time := mkTime { unix_nano : Z; zone_offset : Z }.

Definition Time_UTC (t : Time) : Time :=
  {| unix_nano := unix_nano t; zone_offset := 0 |}.

(** The dynamic types a scanned column can hold ([interface{}]), plus
    [int32], which the clamp introduces. *)
Inductive value :=
| VNil
| VInt64 (n : Z)
| VInt32 (n : Z)
| VFloat64 (bits : Z)
| VBool (b : bool)
| VString (s : string)
| VBytes (bs : list Byte.byte)
| VTime (t : Time).

Abbreviation row := (gmap string value).
Abbreviation batch := (list (gmap string value)).

(** [row[key]] in Go: the zero value [nil] when the key is absent. *)
Definition index (r : row) (key : string) : value :=
  match r !! key with
  | Some v => v
  | None => VNil
  end.

(** [reflect.TypeOf(v)] followed by [.String()]: [reflect.TypeOf(nil)] is the
    nil [Type], on which the method call panics ([None] here). *)
Definition reflect_TypeOf_String (v : value) : option string :=
  match v with
  | VNil => None
  | VInt64 _ => Some "int64"
  | VInt32 _ => Some "int32"
  | VFloat64 _ => Some "float64"
  | VBool _ => Some "bool"
  | VString _ => Some "string"
  | VBytes _ => Some "[]uint8"
  | VTime _ => Some "time.Time"
  end.

(** ** The numeric clamp *)

Definition MaxInt32 : Z := 2147483647.
Definition MinInt32 : Z := -2147483648.
Definition MaxInt64 : Z := 9223372036854775807.
Definition MinInt64 : Z := -9223372036854775808.

(** The conversion [int32(v)]: the low 32 bits, read as a signed number. *)
Definition int32_of (v : Z) : Z :=
  ((v + 2 ^ 31) mod 2 ^ 32 - 2 ^ 31)%Z.

Definition clampInt64ToInt32 (value : Z) : Z :=
  if (value >? MaxInt32)%Z then MaxInt32
  else if (value <? MinInt32)%Z then MinInt32
  else int32_of value.

(** ** The world outside the program *)

(** A statement the destination executes.  The SQL builder is a library; an
    insert statement is identified with the table and the batch it was built
    from ([dialect.Insert(table).Rows(rowsSlice)]), and the sequence
    statement with the table name substituted into [restart_seq]. *)
Inductive stmt :=
| Insert (table : string) (rowsSlice : batch)
| RestartSeq (table_name : string).

(** The calls that leave the program and may come back with an error. *)
Inductive call :=
| SqlxOpen (driver url : string)
| ConnExec (sql : string)
| SourceBeginTxx
| DestBeginTxx
| SelectToSQL (table : string) (limit offset : nat)
| SourceQueryx (table : string) (limit offset : nat)
| MapScan (table : string) (r : row)
| InsertToSQL (table : string) (rowsSlice : batch)
| DestExec (s : stmt)
| DestQueryx (s : stmt)
| DestCommit
| SourceClose
| DestClose.

Record world := mkWorld {
  (** the rows of each source table, in the store's natural order *)
  source : string -> list row;
  (** whether the external call made after [n] earlier ones returns an error *)
  fails : nat -> call -> bool;
  (** the [n]-th reading of the wall clock, [time.Now()] *)
  time_Now : nat -> Time;
  (** [t.Year()] *)
  Time_Year : Time -> Z;
  (** [time.Parse(time.RFC3339, s)]; [None] when it returns an error *)
  time_Parse_RFC3339 : string -> option Time;
  (** the error of [json.Unmarshal([]byte(s), &tmp)]; [None] when it is nil *)
  json_Unmarshal : string -> option string;
  (** the row [INSERT INTO t DEFAULT VALUES] adds to table [t] of the
      destination when the table holds the given rows: the defaults of the
      columns of [t], a serial column drawing from its sequence *)
  default_values : string -> list row -> row
}.

(** ** Program state *)

(** The diagnostics of the repair rules, one constructor per [log.Printf]. *)
Inductive log_entry :=
| SkippingRow (obj : string) (err : string) (strVal : string)
| InvalidTime (tsKey : string) (val : value)
| OutOfRangeTime (tsKey : string) (v : Time)
| UnrecognizedTime (tsKey : string) (val : value).

Record state := mkState {
  calls : nat;                      (* external calls made so far *)
  asked : list call;                (* these calls, in order *)
  clock : nat;                      (* readings of the wall clock so far *)
  stdout : list string;             (* lines printed with fmt.Printf *)
  logged : list log_entry;          (* lines printed with log.Printf *)
  reads : list (string * batch);    (* what each completed fetch returned *)
  txn : list stmt;                  (* statements of the open destination transaction *)
  committed : list (list stmt)      (* the committed destination transactions *)
}.

Definition init : state :=
  {| calls := 0; asked := []; clock := 0; stdout := []; logged := [];
     reads := []; txn := []; committed := [] |}.

(** More external calls. *)
Definition record_calls (cs : list call) (st : state) : state :=
  {| calls := length cs + calls st; asked := asked st ++ cs; clock := clock st;
     stdout := stdout st; logged := logged st; reads := reads st;
     txn := txn st; committed := committed st |}.

Definition record_call (c : call) (st : state) : state := record_calls [c] st.

Definition set_clock (n : nat) (st : state) : state :=
  {| calls := calls st; asked := asked st; clock := n; stdout := stdout st;
     logged := logged st; reads := reads st; txn := txn st;
     committed := committed st |}.

Definition set_stdout (l : list string) (st : state) : state :=
  {| calls := calls st; asked := asked st; clock := clock st; stdout := l;
     logged := logged st; reads := reads st; txn := txn st;
     committed := committed st |}.

Definition set_logged (l : list log_entry) (st : state) : state :=
  {| calls := calls st; asked := asked st; clock := clock st;
     stdout := stdout st; logged := l; reads := reads st; txn := txn st;
     committed := committed st |}.

Definition set_reads (l : list (string * batch)) (st : state) : state :=
  {| calls := calls st; asked := asked st; clock := clock st;
     stdout := stdout st; logged := logged st; reads := l; txn := txn st;
     committed := committed st |}.

Definition set_txn (l : list stmt) (st : state) : state :=
  {| calls := calls st; asked := asked st; clock := clock st;
     stdout := stdout st; logged := logged st; reads := reads st; txn := l;
     committed := committed st |}.

Definition set_committed (l : list (list stmt)) (st : state) : state :=
  {| calls := calls st; asked := asked st; clock := clock st;
     stdout := stdout st; logged := logged st; reads := reads st;
     txn := txn st; committed := l |}.

(** ** The monad of [migrate] *)

(** How a computation ends: normally, with [return fmt.Errorf(...)], with a
    run-time panic, or because the model's loop bound was reached (never the
    case for a run, see [table_loop_fuel]). *)
Inductive outcome (A : Type) :=
| Ok (a : A)
| Err (msg : string)
| Panic (msg : string)
| OutOfFuel.
Arguments Ok {A} a.
Arguments Err {A} msg.
Arguments Panic {A} msg.
Arguments OutOfFuel {A}.

Definition M (A : Type) : Type := state -> outcome A * state.

Definition ret {A} (a : A) : M A := fun st => (Ok a, st).

Definition bind {A B} (m : M A) (k : A -> M B) : M B :=
  fun st =>
    match m st with
    | (Ok a, st1) => k a st1
    | (Err msg, st1) => (Err msg, st1)
    | (Panic msg, st1) => (Panic msg, st1)
    | (OutOfFuel, st1) => (OutOfFuel, st1)
    end.

Notation "x <- m ;; k" := (bind m (fun x => k))
  (at level 100, m at next level, right associativity).
Notation "m ;; k" := (bind m (fun _ => k))
  (at level 100, right associativity).

Definition panic {A} (msg : string) : M A := fun st => (Panic msg, st).
Definition out_of_fuel {A} : M A := fun st => (OutOfFuel, st).

(** [fmt.Errorf("<msg>: %w", err)] around a call that returned [err]. *)
Definition wrap {A} (msg : string) (m : M A) : M A :=
  fun st =>
    match m st with
    | (Err e, st1) => (Err (msg +:+ ": " +:+ e), st1)
    | r => r
    end.

Definition Printf (line : string) : M unit :=
  fun st => (Ok tt, set_stdout (stdout st ++ [line]) st).

Definition log_Printf (e : log_entry) : M unit :=
  fun st => (Ok tt, set_logged (logged st ++ [e]) st).

(** Instrumentation: the batch a completed fetch block holds. *)
Definition record_read (table : string) (rowsSlice : batch) : M unit :=
  fun st => (Ok tt, set_reads (reads st ++ [(table, rowsSlice)]) st).

(** [for _, x := range xs { body }] with a body that may return early. *)
Fixpoint for_range {A} (xs : list A) (body : A -> M unit) : M unit :=
  match xs with
  | [] => ret tt
  | x :: xs' => body x ;; for_range xs' body
  end.

(** [for idx := range rowsSlice { rowsSlice[idx] = ... }]: the rows are
    rewritten one after the other, in order. *)
Fixpoint for_rows (f : row -> M row) (rowsSlice : batch) : M batch :=
  match rowsSlice with
  | [] => ret []
  | r :: rest => r' <- f r ;; rest' <- for_rows f rest ;; ret (r' :: rest')
  end.

Section Primitives.
Variable w : world.

(** An external call: it returns an error, reported as [msg], when the
    world says so. *)
Definition extcall (c : call) (msg : string) : M unit :=
  fun st =>
    if fails w (calls st) c
    then (Err msg, record_call c st)
    else (Ok tt, record_call c st).

(** [time.Now().UTC()] *)
Definition Now_UTC : M Time :=
  fun st => (Ok (Time_UTC (time_Now w (clock st))), set_clock (S (clock st)) st).

(** [destDB.BeginTxx]: a fresh, empty transaction. *)
Definition dest_BeginTxx (msg : string) : M unit :=
  extcall DestBeginTxx msg ;; fun st => (Ok tt, set_txn [] st).

(** [txn.ExecContext] and [txn.QueryxContext] on the destination: the
    statement joins the open transaction. *)
Definition dest_ExecContext (s : stmt) (msg : string) : M unit :=
  extcall (DestExec s) msg ;; fun st => (Ok tt, set_txn (txn st ++ [s]) st).

Definition dest_QueryxContext (s : stmt) (msg : string) : M unit :=
  extcall (DestQueryx s) msg ;; fun st => (Ok tt, set_txn (txn st ++ [s]) st).

(** [txn.Commit]: the open transaction becomes durable. *)
Definition dest_Commit (msg : string) : M unit :=
  extcall DestCommit msg ;;
  fun st => (Ok tt, set_txn [] (set_committed (committed st ++ [txn st]) st)).

Definition open_sqlite (path : string) : M unit :=
  let disableForeignKeys := false in
  let writable := false in
  let url := "file:" +:+ path +:+ "?_journal=WAL&_sync=NORMAL&_busy_timeout=50" in
  let url := if negb disableForeignKeys then url +:+ "&_fk=true" else url in
  let url := if writable then url +:+ "&_txlock=immediate" else url +:+ "&mode=ro" in
  extcall (SqlxOpen "sqlite3" url) "db.Open()".

Definition open_pgsql (connector : string) : M unit :=
  let disableForeignKeys := true in
  let writable := true in
  extcall (SqlxOpen "pgx" connector) "db.Open()" ;;
  (if disableForeignKeys
   then extcall (ConnExec "SET session_replication_role = replica;") "conn.Exec()"
   else ret tt) ;;
  (if negb writable
   then extcall (ConnExec "SET SESSION CHARACTERISTICS AS TRANSACTION READ ONLY;")
          "conn.Exec()"
   else ret tt).

(** The [for r.Next()] loop of the fetch block over the rows the query
    selected. *)
Fixpoint scan_rows (table : string) (selected : list row) (rowsSlice : batch)
  : M batch :=
  match selected with
  | [] => ret rowsSlice
  | r :: rest =>
      extcall (MapScan table r) "failed structscan" ;;
      scan_rows table rest (rowsSlice ++ [r])
  end.

(** The hotfix of [video_files], present in both drivers. *)
Definition hotfix_interactive_speed (r : row) : row :=
  match r !! "interactive_speed" with
  | Some (VInt64 v) => <["interactive_speed" := VInt32 (clampInt64ToInt32 v)]> r
  | _ => r
  end.

End Primitives.

(** ** The table lists *)

(** The tables [migrate] ranges over, in the order of the source. *)
Definition tables : list string :=
  [ "blobs"; "files"; "files_fingerprints"; "folders"; "galleries";
    "galleries_chapters"; "galleries_files"; "galleries_images";
    "galleries_tags"; "gallery_urls"; "group_urls"; "groups";
    "groups_relations"; "groups_scenes"; "groups_tags"; "image_files";
    "image_urls"; "images"; "images_files"; "images_tags";
    "performer_aliases"; "performer_stash_ids"; "performer_urls";
    "performers"; "performers_galleries"; "performers_images";
    "performers_scenes"; "performers_tags"; "saved_filters";
    "scene_markers"; "scene_markers_tags"; "scene_stash_ids"; "scene_urls";
    "scenes"; "scenes_files"; "scenes_galleries"; "scenes_o_dates";
    "scenes_tags"; "scenes_view_dates"; "studio_aliases";
    "studio_stash_ids"; "studios"; "studios_tags"; "tag_aliases"; "tags";
    "tags_relations"; "video_captions"; "video_files" ].

(** The tables whose [id] sequence is restarted after the load. *)
Definition sequence_tables : list string :=
  [ "files"; "folders"; "galleries_chapters"; "groups"; "images";
    "performers"; "saved_filters"; "scene_markers"; "scenes"; "studios";
    "tags" ].

(** The columns the rules of [main.go] look at. *)
Definition json_columns : list string :=
  [ "find_filter"; "object_filter"; "ui_options" ].

Definition timestamp_columns : list string :=
  [ "created_at"; "updated_at" ].

(** ** [main.go]: one transaction around the whole run *)

Module MainGo.
Section Driver.
Variable w : world.

Definition isValidPostgresTime (t : Time) : bool :=
  (Time_Year w t >=? 1)%Z.

(** *** The repair rules (the [if table == ...] blocks of the insert step) *)

(** [rowsSlice[idx]["type"] = reflect.TypeOf(rowsSlice[idx]["value"]).String()] *)
Definition set_type (r : row) : M row :=
  match reflect_TypeOf_String (index r "value") with
  | Some name => ret (<["type" := VString name]> r)
  | None => panic "invalid memory address or nil pointer dereference"
  end.

(** The inner loop of the [saved_filters] block over the three columns; the
    result is the flag [valid]. *)
Fixpoint check_json (r : row) (objs : list string) : M bool :=
  match objs with
  | [] => ret true
  | obj :: rest =>
      match index r obj with
      | VString strVal =>
          match json_Unmarshal w strVal with
          | Some err =>
              log_Printf (SkippingRow obj err strVal) ;;
              ret false                      (* break *)
          | None => check_json r rest
          end
      | _ => check_json r rest
      end
  end.

(** The outer loop of the [saved_filters] block, accumulating [validRows]. *)
Fixpoint keep_valid (rowsSlice validRows : batch) : M batch :=
  match rowsSlice with
  | [] => ret validRows
  | r :: rest =>
      valid <- check_json r json_columns ;;
      keep_valid rest (if valid then validRows ++ [r] else validRows)
  end.

(** The body of the [scene_markers] block for one row and one column. *)
Definition normalize_column (r : row) (tsKey : string) : M row :=
  match r !! tsKey with
  | None => ret r
  | Some val =>
      match val with
      | VString v =>
          match time_Parse_RFC3339 w v with
          | Some t =>
              if negb (isValidPostgresTime t)
              then log_Printf (InvalidTime tsKey val) ;;
                   now <- Now_UTC w ;;
                   ret (<[tsKey := VTime now]> r)
              else ret (<[tsKey := VTime t]> r)
          | None =>
              log_Printf (InvalidTime tsKey val) ;;
              now <- Now_UTC w ;;
              ret (<[tsKey := VTime now]> r)
          end
      | VTime v =>
          if negb (isValidPostgresTime v)
          then log_Printf (OutOfRangeTime tsKey v) ;;
               now <- Now_UTC w ;;
               ret (<[tsKey := VTime now]> r)
          else ret r
      | _ =>
          log_Printf (UnrecognizedTime tsKey val) ;;
          now <- Now_UTC w ;;
          ret (<[tsKey := VTime now]> r)
      end
  end.

Fixpoint normalize_columns (tsKeys : list string) (r : row) : M row :=
  match tsKeys with
  | [] => ret r
  | tsKey :: rest =>
      r' <- normalize_column r tsKey ;;
      normalize_columns rest r'
  end.

(** The four rule blocks, in the order of the source. *)
Definition repair (table : string) (rowsSlice : batch) : M batch :=
  rowsSlice <-
    (if decide (table = "video_files")
     then ret (map hotfix_interactive_speed rowsSlice)
     else ret rowsSlice) ;;
  rowsSlice <-
    (if decide (table = "performer_custom_fields")
     then for_rows set_type rowsSlice
     else ret rowsSlice) ;;
  rowsSlice <-
    (if decide (table = "saved_filters")
     then keep_valid rowsSlice []
     else ret rowsSlice) ;;
  (if decide (table = "scene_markers")
   then for_rows (normalize_columns timestamp_columns) rowsSlice
   else ret rowsSlice).

(** *** The driver *)

(** The fetch block: one page of [table] at [offset]. *)
Definition fetch (batchSize : nat) (table : string) (offset : nat) : M batch :=
  extcall w (SelectToSQL table batchSize offset) "source failed tosql" ;;
  extcall w (SourceQueryx table batchSize offset) "query" ;;
  rowsSlice <-
    scan_rows w table (take batchSize (drop offset (source w table))) [] ;;
  record_read table rowsSlice ;;
  ret rowsSlice.

(** The insert block: repair, build the statement, execute it in the
    run's transaction. *)
Definition insert (table : string) (rowsSlice : batch) : M unit :=
  rowsSlice <- repair table rowsSlice ;;
  extcall w (InsertToSQL table rowsSlice) "failed tosql" ;;
  dest_ExecContext w (Insert table rowsSlice) "exec".

(** The inner [for { ... }] of one table.  [fuel] bounds the number of
    iterations of the model. *)
Fixpoint table_loop (fuel batchSize : nat) (table : string) (offset : nat)
  : M unit :=
  match fuel with
  | 0 => out_of_fuel
  | S fuel' =>
      rowsSlice <- fetch batchSize table offset ;;
      match rowsSlice with
      | [] => ret tt                         (* break *)
      | _ :: _ =>
          insert table rowsSlice ;;
          table_loop fuel' batchSize table (offset + batchSize)
      end
  end.

(** One iteration of the outer loop.  A table of [n] rows needs at most
    [n + 1] fetches. *)
Definition migrate_table (batchSize : nat) (table : string) : M unit :=
  Printf ("Fetching " +:+ table) ;;
  table_loop (S (length (source w table))) batchSize table 0.

Definition migrate (connector dbpath : string) : M unit :=
  let batchSize := 1000 in
  wrap "failed to open db" (open_sqlite w dbpath) ;;
  wrap "failed to open db" (open_pgsql w connector) ;;
  extcall w SourceBeginTxx "source begin tx" ;;
  dest_BeginTxx w "dest begin tx" ;;
  for_range tables (migrate_table batchSize) ;;
  Printf "Setting sequences..." ;;
  for_range sequence_tables
    (fun table_name => dest_ExecContext w (RestartSeq table_name) "exec") ;;
  dest_Commit w "commit" ;;
  extcall w SourceClose "source close" ;;
  extcall w DestClose "dest close".

End Driver.
End MainGo.

(** ** The sibling driver: one transaction per batch *)

Module PerBatch.
Section Driver.
Variable w : world.

Definition fetch (batchSize : nat) (table : string) (offset : nat) : M batch :=
  extcall w SourceBeginTxx "source begin tx" ;;
  extcall w (SelectToSQL table batchSize offset) "source failed tosql" ;;
  extcall w (SourceQueryx table batchSize offset) "query" ;;
  rowsSlice <-
    scan_rows w table (take batchSize (drop offset (source w table))) [] ;;
  record_read table rowsSlice ;;
  ret rowsSlice.

(** The only rule of this driver. *)
Definition repair (table : string) (rowsSlice : batch) : batch :=
  if decide (table = "video_files")
  then map hotfix_interactive_speed rowsSlice
  else rowsSlice.

Definition insert (table : string) (rowsSlice : batch) : M unit :=
  dest_BeginTxx w "dest begin tx" ;;
  let rowsSlice := repair table rowsSlice in
  extcall w (InsertToSQL table rowsSlice) "failed tosql" ;;
  dest_ExecContext w (Insert table rowsSlice) "exec" ;;
  dest_Commit w "commit".

Fixpoint table_loop (fuel batchSize : nat) (table : string) (offset : nat)
  : M unit :=
  match fuel with
  | 0 => out_of_fuel
  | S fuel' =>
      rowsSlice <- fetch batchSize table offset ;;
      match rowsSlice with
      | [] => ret tt                         (* break *)
      | _ :: _ =>
          insert table rowsSlice ;;
          table_loop fuel' batchSize table (offset + batchSize)
      end
  end.

Definition migrate_table (batchSize : nat) (table : string) : M unit :=
  Printf ("Fetching " +:+ table) ;;
  table_loop (S (length (source w table))) batchSize table 0.

Definition restart_sequence (table_name : string) : M unit :=
  dest_BeginTxx w "dest begin tx" ;;
  dest_QueryxContext w (RestartSeq table_name) "exec" ;;
  dest_Commit w "commit".

Definition migrate (connector dbpath : string) : M unit :=
  let batchSize := 1000 in
  wrap "failed to open db" (open_sqlite w dbpath) ;;
  wrap "failed to open db" (open_pgsql w connector) ;;
  for_range tables (migrate_table batchSize) ;;
  extcall w SourceClose "source close" ;;
  Printf "Setting sequences..." ;;
  for_range sequence_tables restart_sequence ;;
  extcall w DestClose "dest close".

End Driver.
End PerBatch.

(** ** What the destination holds *)

(** The content of the destination as far as the migration touches it: the
    rows of each table in insertion order and, for each [id] sequence that
    was restarted, the value the next insert will draw. *)
Record database := mkDatabase {
  table_rows : string -> list row;
  next_id : string -> option Z
}.

Definition empty_database : database :=
  {| table_rows := fun _ => []; next_id := fun _ => None |}.

(** The [id] of a row, when it is an integer. *)
Definition row_id (r : row) : option Z :=
  match r !! "id" with
  | Some (VInt64 n) => Some n
  | Some (VInt32 n) => Some n
  | _ => None
  end.

(** SQL's [max]: nulls are skipped, and the maximum of nothing is null. *)
Definition sql_max_step (acc x : option Z) : option Z :=
  match acc, x with
  | Some a, Some b => Some (Z.max a b)
  | None, _ => x
  | _, None => acc
  end.

Definition sql_max (xs : list (option Z)) : option Z :=
  fold_left sql_max_step xs None.

(** [COALESCE(max(id) + 1, 1)] over the rows of a table. *)
Definition restart_value (rows : list row) : Z :=
  match sql_max (map row_id rows) with
  | Some m => (m + 1)%Z
  | None => 1%Z
  end.

(** The rows an insert statement adds to a table that holds [rows].  The
    statement built from a batch with rows inserts those rows.  The one
    built from a batch without rows is [INSERT INTO t DEFAULT VALUES]: a
    destination that accepts it gains one row, of defaults, that no fetch
    returned.  (A destination that rejects it makes [ExecContext] return an
    error, which is the [fails] of the world.) *)
Definition inserted (w : world) (table : string) (rows : list row)
    (rowsSlice : batch) : list row :=
  match rowsSlice with
  | [] => [default_values w table rows]
  | _ :: _ => rowsSlice
  end.

(** One statement.  [restart_seq] is
    [SELECT setval(pg_get_serial_sequence(t, 'id'), COALESCE(max(id) + 1, 1), false) FROM t]:
    with [is_called = false] the next value drawn is the one set. *)
Definition exec_stmt (w : world) (db : database) (s : stmt) : database :=
  match s with
  | Insert table rowsSlice =>
      {| table_rows := fun t =>
           if decide (t = table)
           then table_rows db t ++ inserted w table (table_rows db table) rowsSlice
           else table_rows db t;
         next_id := next_id db |}
  | RestartSeq table_name =>
      {| table_rows := table_rows db;
         next_id := fun t =>
           if decide (t = table_name)
           then Some (restart_value (table_rows db table_name))
           else next_id db t |}
  end.

Definition exec_stmts (w : world) (db : database) (l : list stmt) : database :=
  fold_left (exec_stmt w) l db.

(** The destination after a run that started on an empty one: its committed
    transactions, replayed in order. *)
Definition destination (w : world) (st : state) : database :=
  exec_stmts w empty_database (concat (committed st)).

(** The rows of a table that held [rows] after the insert statements built
    from the batches [bs], in order. *)
Definition stored (w : world) (table : string) (rows : list row)
    (bs : list batch) : list row :=
  fold_left (fun acc b => acc ++ inserted w table acc b) bs rows.

(** The batches of a table among the recorded fetches, and among the
    statements of a transaction. *)
Definition batches_of (table : string) (rd : list (string * batch)) : list batch :=
  omap (fun '(t, b) => if decide (t = table) then Some b else None) rd.

Definition batches_written (table : string) (l : list stmt) : list batch :=
  omap (fun s => match s with
                 | Insert t b => if decide (t = table) then Some b else None
                 | RestartSeq _ => None
                 end) l.

(** What the fetches of a run returned for a table. *)
Definition batches_read (st : state) (table : string) : list batch :=
  batches_of table (reads st).

Definition rows_read (st : state) (table : string) : list row :=
  concat (batches_read st table).

(** ** Pages *)

Definition ceil_div (n p : nat) : nat := (n + p - 1) / p.

(** The windows [LIMIT p OFFSET i * p] of a table, for the offsets that
    select a row. *)
Definition pages {A} (p : nat) (l : list A) : list (list A) :=
  map (fun i => take p (drop (i * p) l)) (seq 0 (ceil_div (length l) p)).

(** ** Vocabulary of the statements *)

Definition is_Ok {A} (r : outcome A) : bool :=
  match r with
  | Ok _ => true
  | _ => false
  end.

(** An outcome other than [Ok] carries no value and can be read at any type. *)
Definition failure {A} (B : Type) (r : outcome A) : outcome B :=
  match r with
  | Ok _ => OutOfFuel
  | Err msg => Err msg
  | Panic msg => Panic msg
  | OutOfFuel => OutOfFuel
  end.

(** The JSON-validity rule in the words of the specification: a row is valid
    when every designated column that holds a string holds one that parses. *)
Definition column_ok (w : world) (r : row) (obj : string) : bool :=
  match r !! obj with
  | Some (VString s) =>
      match json_Unmarshal w s with
      | None => true
      | Some _ => false
      end
  | _ => true
  end.

Definition json_ok (w : world) (r : row) : bool :=
  forallb (column_ok w r) json_columns.

(** A diagnostic of the JSON rule for row [r]: it names a designated column,
    the text that column holds in [r], and the error of parsing that text. *)
Definition diagnoses (w : world) (r : row) (e : log_entry) : Prop :=
  exists obj err s,
    e = SkippingRow obj err s /\ In obj json_columns /\
    r !! obj = Some (VString s) /\ json_Unmarshal w s = Some err.

Definition is_skip (e : log_entry) : bool :=
  match e with
  | SkippingRow _ _ _ => true
  | _ => false
  end.

(** The rows of a table the JSON rule keeps and the rows it drops; the rule
    is registered for [saved_filters] only. *)
Definition kept (w : world) (table : string) (rows : list row) : list row :=
  if decide (table = "saved_filters") then filter (fun r => json_ok w r = true) rows
  else rows.

Definition dropped (w : world) (table : string) (rows : list row) : list row :=
  if decide (table = "saved_filters") then filter (fun r => json_ok w r = false) rows
  else [].

(** The columns a rule of [main.go] may rewrite, by table. *)
Definition designated (table : string) : list string :=
  if decide (table = "video_files") then ["interactive_speed"]
  else if decide (table = "performer_custom_fields") then ["type"]
  else if decide (table = "scene_markers") then timestamp_columns
  else [].

(** [r'] is [r] up to the columns [cols]. *)
Definition agree_except (cols : list string) (r r' : row) : Prop :=
  forall k, ~ In k cols -> r' !! k = r !! k.

(** A written batch comes from a read batch: the kept rows, in order, each
    changed in its table's designated columns at most. *)
Definition written_from (w : world) (table : string) (b wb : batch) : Prop :=
  Forall2 (agree_except (designated table)) (kept w table b) wb.

(** A computation that never reports the loop bound. *)
Definition bounded {A} (m : M A) : Prop :=
  forall st, fst (m st) <> OutOfFuel.

(** [st'] is [st] after more output, more diagnostics, more fetches and more
    statements in the open transaction, and no commit. *)
Definition extends (st st' : state) (out : list string) (lg : list log_entry)
    (rd : list (string * batch)) (tx : list stmt) : Prop :=
  stdout st' = stdout st ++ out /\ logged st' = logged st ++ lg /\
  reads st' = reads st ++ rd /\ txn st' = txn st ++ tx /\
  committed st' = committed st.

(** A step that prints nothing, fetches nothing, leaves the destination
    alone and logs timestamp diagnostics at most. *)
Definition quiet (st st' : state) : Prop :=
  exists lg, extends st st' [] lg [] [] /\ filter is_skip lg = [].

(** The type tag of the [performer_custom_fields] rule, in the words of the
    specification: [r'] is [r] with its [type] column set to the name of the
    type of its [value] column. *)
Definition tagged (r r' : row) : Prop :=
  exists name,
    reflect_TypeOf_String (index r "value") = Some name /\
    r' = <["type" := VString name]> r.

(** A computation that never reports the loop bound and commits at most [n]
    destination transactions. *)
Definition commits_at_most {A} (n : nat) (m : M A) : Prop :=
  forall st res st', m st = (res, st') ->
    res <> OutOfFuel /\
    exists txs, committed st' = committed st ++ txs /\ length txs <= n.

(** An outcome nobody but the world or the [performer_custom_fields] rule
    can be blamed for: an error needs an external call that failed, a panic
    needs that table, and the loop bound is never reached. *)
Definition blameless (w : world) (table : string) {A} (res : outcome A) : Prop :=
  match res with
  | Ok _ => True
  | Err _ => exists n c, fails w n c = true
  | Panic _ => table = "performer_custom_fields"
  | OutOfFuel => False
  end.

Definition faultless (w : world) (table : string) {A} (m : M A) : Prop :=
  forall st, blameless w table (fst (m st)).

(** The external calls [cs], made from call number [n] on, all succeeded. *)
Definition succeeded (w : world) (n : nat) (cs : list call) : Prop :=
  forall i c, cs !! i = Some c -> fails w (n + i) c = false.

(** Of the external calls [cs], made from call number [n] on, the last one
    failed and the ones before it succeeded. *)
Definition stopped (w : world) (n : nat) (cs : list call) : Prop :=
  exists cs0 c,
    cs = cs0 ++ [c] /\ succeeded w n cs0 /\ fails w (n + length cs0) c = true.

(** A computation whose outcome its own external calls explain: it ends
    normally when all of them succeeded, and it returns an error when the
    last of them failed. *)
Definition traced (w : world) {A} (m : M A) : Prop :=
  forall st res st', m st = (res, st') ->
    exists cs,
      asked st' = asked st ++ cs /\ calls st' = calls st + length cs /\
      match res with
      | Ok _ => succeeded w (calls st) cs
      | Err _ => stopped w (calls st) cs
      | _ => True
      end.

(** The transactions a complete run of the per-batch driver commits, in
    order: one per page of each table, holding the insert of that page, then
    one per sequence. *)
Definition expected_commits (w : world) : list (list stmt) :=
  flat_map
    (fun t => map (fun b => [Insert t (PerBatch.repair t b)])
                  (pages 1000 (source w t)))
    tables
  ++ map (fun t => [RestartSeq t]) sequence_tables.

(** A computation that commits, in order, the transactions [expected] when
    it ends normally and a first part of them otherwise, and never reports
    the loop bound. *)
Definition commits_prefix {A} (expected : list (list stmt)) (m : M A) : Prop :=
  forall st res st', m st = (res, st') ->
    res <> OutOfFuel /\
    exists rest,
      committed st ++ expected = committed st' ++ rest /\
      (is_Ok res = true -> rest = []).

(** ** Vocabulary of the further properties *)

(** A wall clock that never reads a year before 1. *)
Definition sane_clock (w : world) : Prop :=
  forall n, MainGo.isValidPostgresTime w (Time_UTC (time_Now w n)) = true.

(** The state after the diagnostics [lg] of the timestamp rule, each of
    which comes with one reading of the clock. *)
Definition advance (lg : list log_entry) (st : state) : state :=
  set_clock (clock st + length lg) (set_logged (logged st ++ lg) st).

(** The diagnostic of a value the timestamp rule replaces. *)
Definition time_diagnostic (tsKey : string) (v : value) : log_entry :=
  match v with
  | VString _ => InvalidTime tsKey v
  | VTime t => OutOfRangeTime tsKey t
  | _ => UnrecognizedTime tsKey v
  end.

(** The timestamp rule on the value [v] of column [tsKey], in the words of
    the specification: a text that parses to a year of 1 or later gives the
    parsed time, a time of year 1 or later stays, and every other value is
    replaced by a reading of the clock in UTC, with its diagnostic.  [lo]
    counts the readings of the clock before the rule ran and [lg] is what
    the rule logged: the diagnostic at position [i] goes with reading
    [lo + i]. *)
Definition timestamp_rule (w : world) (lo : nat) (lg : list log_entry)
    (tsKey : string) (v v' : value) : Prop :=
  let replaced :=
    exists i, lg !! i = Some (time_diagnostic tsKey v) /\
              v' = VTime (Time_UTC (time_Now w (lo + i))) in
  match v with
  | VString s =>
      match time_Parse_RFC3339 w s with
      | Some t => if (Time_Year w t >=? 1)%Z then v' = VTime t else replaced
      | None => replaced
      end
  | VTime t => if (Time_Year w t >=? 1)%Z then v' = v else replaced
  | _ => replaced
  end.

(** [r'] is [r] after the timestamp rule: each designated column that is
    present holds what the rule makes of its value, an absent one is still
    absent, and no other column differs. *)
Definition timestamps_fixed (w : world) (lo : nat) (lg : list log_entry)
    (r r' : row) : Prop :=
  (forall k, In k timestamp_columns ->
     match r !! k with
     | None => r' !! k = None
     | Some v => exists v', r' !! k = Some v' /\ timestamp_rule w lo lg k v v'
     end) /\
  agree_except timestamp_columns r r'.

(** [r'] is [r] after the timestamp rule: an absent column is still absent,
    and a present one holds a time the destination accepts. *)
Definition normalized (w : world) (r r' : row) : Prop :=
  forall k, In k timestamp_columns ->
    match r !! k with
    | None => r' !! k = None
    | Some _ =>
        exists t, r' !! k = Some (VTime t) /\
                  MainGo.isValidPostgresTime w t = true
    end.

(** A row the timestamp rule has nothing to do on. *)
Definition settled (w : world) (r : row) : Prop :=
  forall k, In k timestamp_columns ->
    r !! k = None \/
    exists t, r !! k = Some (VTime t) /\ MainGo.isValidPostgresTime w t = true.

(** What the rules of [main.go] make of the rows of a table, for the rules
    that are a function of the rows alone (every table but
    [scene_markers] and [performer_custom_fields]). *)
Definition expected_rows (w : world) (table : string) (rows : list row)
  : list row :=
  if decide (table = "video_files") then map hotfix_interactive_speed rows
  else if decide (table = "saved_filters")
       then filter (fun r => json_ok w r = true) rows
  else rows.

(** The lines a complete run prints, in order. *)
Definition progress_lines : list string :=
  map (fun t => "Fetching " +:+ t) tables ++ ["Setting sequences..."].

(** A computation that prints, in order, the lines [expected] when it ends
    normally and a first part of them otherwise. *)
Definition prints_prefix {A} (expected : list string) (m : M A) : Prop :=
  forall st res st', m st = (res, st') ->
    exists rest,
      stdout st ++ expected = stdout st' ++ rest /\
      (is_Ok res = true -> rest = []).

(** The insert transactions of a complete run of the per-batch driver. *)
Definition expected_inserts (w : world) : list (list stmt) :=
  flat_map
    (fun t => map (fun b => [Insert t (PerBatch.repair t b)])
                  (pages 1000 (source w t)))
    tables.

(** ** Tactics *)

(** Settles the [decide]s on table names once the name is known. *)
Ltac names :=
  repeat match goal with
    | |- context [decide (?a = ?b)] =>
        destruct (decide (a = b)) as [? | ?];
        [try discriminate; try congruence | try congruence]
    | H : context [decide (?a = ?b)] |- _ =>
        destruct (decide (a = b)) as [? | ?];
        [try discriminate; try congruence | try congruence]
    end.

(** ** Sample worlds *)

Definition no_failure : nat -> call -> bool := fun _ _ => false.

(** A toy calendar: 1000 ticks to the year, year 1 starting at 0. *)
Definition sample_Year (t : Time) : Z :=
  ((unix_nano t + zone_offset t) / 1000 + 1)%Z.

Definition sample_Parse (s : string) : option Time :=
  if decide (s = "2020-01-02T03:04:05Z") then Some (mkTime 2019002 0)
  else if decide (s = "0000-06-01T00:00:00Z") then Some (mkTime (-500) 0)
  else None.

Definition sample_Unmarshal (s : string) : option string :=
  if decide (s = "{}") then None
  else if decide (s = "[1,2]") then None
  else Some "invalid character".

Definition sample_Now (n : nat) : Time := mkTime (2025000 + Z.of_nat n) 3600.

(** Defaults of a toy schema: a serial [id] and nothing else. *)
Definition sample_default (table : string) (rows : list row) : row :=
  {[ "id" := VInt64 (Z.of_nat (S (length rows))) ]}.

Definition sample_world (src : string -> list row) (f : nat -> call -> bool)
  : world :=
  {| source := src; fails := f; time_Now := sample_Now;
     Time_Year := sample_Year; time_Parse_RFC3339 := sample_Parse;
     json_Unmarshal := sample_Unmarshal; default_values := sample_default |}.

Definition with_id (n : Z) : row := {[ "id" := VInt64 n ]}.

(** A source with five folders and three saved filters, one of them with a
    broken [ui_options]. *)
Definition sample_source (table : string) : list row :=
  if decide (table = "folders")
  then [with_id 3; with_id 7; with_id 12; with_id 5; with_id 1]
  else if decide (table = "saved_filters")
  then [ <["find_filter" := VString "{}"]> (with_id 1);
         <["ui_options" := VString "{oops"]> (with_id 2);
         <["object_filter" := VNil]> (<["ui_options" := VString "[1,2]"]> (with_id 4)) ]
  else if decide (table = "performer_custom_fields")
  then [ <["value" := VString "blue"]> (<["field" := VString "eyes"]> (with_id 1)) ]
  else if decide (table = "scene_markers")
  then [ <["created_at" := VString "2020-01-02T03:04:05Z"]>
           (<["updated_at" := VString "0000-06-01T00:00:00Z"]> (with_id 9)) ]
  else if decide (table = "video_files")
  then [ <["interactive_speed" := VInt64 4294967296]> (with_id 2) ]
  else [].

(** A world in which the destination rejects every insert into [table]. *)
Definition rejects (table : string) (n : nat) (c : call) : bool :=
  match c with
  | DestExec (Insert t _) => bool_decide (t = table)
  | _ => false
  end.

(** A world in which closing the source database fails. *)
Definition close_fails (n : nat) (c : call) : bool :=
  match c with
  | SourceClose => true
  | _ => false
  end.

(** A world whose external call number [k] fails, whatever it is. *)
Definition fails_at (k n : nat) (c : call) : bool := Nat.eqb n k.

(** A source on which no rule but the hotfix has anything to do. *)
Definition clean_source (table : string) : list row :=
  if decide (table = "folders") then [with_id 3; with_id 7]
  else if decide (table = "saved_filters")
  then [ <["find_filter" := VString "{}"]> (with_id 1) ]
  else if decide (table = "video_files")
  then [ <["interactive_speed" := VInt64 4294967296]> (with_id 2) ]
  else [].

(** A source whose only saved filter holds a broken [ui_options]. *)
Definition broken_source (table : string) : list row :=
  if decide (table = "saved_filters")
  then [ <["ui_options" := VString "{oops"]> (with_id 2) ]
  else [].

(** A source with three galleries. *)
Definition galleries_source (table : string) : list row :=
  if decide (table = "galleries") then [with_id 3; with_id 7; with_id 12]
  else [].

(** A saved filter with two broken columns. *)
Definition twice_broken : row :=
  <["find_filter" := VString "{bad"]>
    (<["ui_options" := VString "{oops"]> (with_id 2)).

Abbreviation sample_run :=
  (MainGo.migrate (sample_world sample_source no_failure)
     "postgres://stash@localhost/stash" "stash-go.sqlite" init).

Abbreviation sample_pages :=
  (MainGo.migrate_table (sample_world sample_source no_failure) 2 "folders" init).

Abbreviation failed_run :=
  (PerBatch.migrate (sample_world sample_source (rejects "saved_filters"))
     "postgres://stash@localhost/stash" "stash-go.sqlite" init).

Abbreviation per_batch_run :=
  (PerBatch.migrate (sample_world sample_source no_failure)
     "postgres://stash@localhost/stash" "stash-go.sqlite" init).

Abbreviation closing_run :=
  (MainGo.migrate (sample_world sample_source close_fails)
     "postgres://stash@localhost/stash" "stash-go.sqlite" init).

Abbreviation clean_main_run :=
  (MainGo.migrate (sample_world clean_source no_failure)
     "postgres://stash@localhost/stash" "stash-go.sqlite" init).

Abbreviation clean_per_batch_run :=
  (PerBatch.migrate (sample_world clean_source no_failure)
     "postgres://stash@localhost/stash" "stash-go.sqlite" init).

Abbreviation broken_run :=
  (MainGo.migrate (sample_world broken_source no_failure)
     "postgres://stash@localhost/stash" "stash-go.sqlite" init).

Abbreviation galleries_run :=
  (MainGo.migrate (sample_world galleries_source no_failure)
     "postgres://stash@localhost/stash" "stash-go.sqlite" init).

Abbreviation tagging_run :=
  (MainGo.migrate_table (sample_world sample_source no_failure) 1000
     "performer_custom_fields" init).

(** * Properties *)

(** ** The monad *)

Lemma bind_Ok {A B} (m : M A) (k : A -> M B) st b st' :
  bind m k st = (Ok b, st') ->
  exists a st1, m st = (Ok a, st1) /\ k a st1 = (Ok b, st').
Proof.
  unfold bind. destruct (m st) as [[a | e | e |] st1]; try discriminate.
  eauto.
Qed.

Lemma bind_inv {A B} (m : M A) (k : A -> M B) st r st' :
  bind m k st = (r, st') ->
  (exists a st1, m st = (Ok a, st1) /\ k a st1 = (r, st')) \/
  (exists r0, m st = (r0, st') /\ is_Ok r0 = false /\ r = failure B r0).
Proof.
  unfold bind. destruct (m st) as [[a | e | e |] st1]; intros H.
  - left. eauto.
  - right. inversion H; subst. exists (Err e). auto.
  - right. inversion H; subst. exists (Panic e). auto.
  - right. inversion H; subst. exists OutOfFuel. auto.
Qed.

Lemma failure_not_Ok {A B} (r : outcome A) : is_Ok (failure B r) = false.
Proof. destruct r; reflexivity. Qed.

Lemma ret_inv {A} (a : A) st r st' : ret a st = (r, st') -> r = Ok a /\ st' = st.
Proof. unfold ret. intros H. inversion H. auto. Qed.

Lemma bounded_ret {A} (a : A) : bounded (ret a).
Proof. intros st. discriminate. Qed.

Lemma bounded_bind {A B} (m : M A) (k : A -> M B) :
  bounded m -> (forall a, bounded (k a)) -> bounded (bind m k).
Proof.
  intros Hm Hk st. unfold bind. specialize (Hm st).
  destruct (m st) as [[a | e | e |] st1]; simpl in *;
    first [apply Hk | congruence].
Qed.

(** ** External calls and the destination session *)

Lemma record_calls_nil st : record_calls [] st = st.
Proof. destruct st. unfold record_calls. simpl. rewrite app_nil_r. reflexivity. Qed.

Lemma record_calls_app cs1 cs2 st :
  record_calls cs2 (record_calls cs1 st) = record_calls (cs1 ++ cs2) st.
Proof.
  unfold record_calls. simpl.
  rewrite length_app, <- app_assoc. f_equal. lia.
Qed.

Section Calls.
Variable w : world.

Lemma extcall_inv c msg st r st' :
  extcall w c msg st = (r, st') ->
  st' = record_call c st /\ (r = Ok tt \/ r = Err msg).
Proof.
  unfold extcall. destruct (fails w (calls st) c); intros H; inversion H; auto.
Qed.

Lemma bounded_extcall c msg : bounded (extcall w c msg).
Proof. intros st. unfold extcall. destruct (fails _ _ _); discriminate. Qed.

Lemma dest_BeginTxx_inv msg st r st' :
  dest_BeginTxx w msg st = (r, st') ->
  committed st' = committed st /\ stdout st' = stdout st /\
  logged st' = logged st /\ reads st' = reads st /\ clock st' = clock st /\
  (r = Ok tt -> txn st' = []) /\ (r = Ok tt \/ r = Err msg).
Proof.
  unfold dest_BeginTxx. intros H.
  apply bind_inv in H as [(a & st1 & H1 & H2) | (r0 & H1 & Hr0 & ->)];
    apply extcall_inv in H1 as [-> Hr].
  - inversion H2; subst. simpl. auto 10.
  - simpl. destruct Hr as [-> | ->]; [discriminate | simpl; auto 10].
    repeat split; auto. discriminate.
Qed.

Lemma dest_exec_inv c s msg st r st' :
  (extcall w c msg ;; fun st => (Ok tt, set_txn (txn st ++ [s]) st)) st = (r, st') ->
  committed st' = committed st /\ stdout st' = stdout st /\
  logged st' = logged st /\ reads st' = reads st /\ clock st' = clock st /\
  (r = Ok tt -> txn st' = txn st ++ [s]) /\ (r = Ok tt \/ r = Err msg).
Proof.
  intros H.
  apply bind_inv in H as [(a & st1 & H1 & H2) | (r0 & H1 & Hr0 & ->)];
    apply extcall_inv in H1 as [-> Hr].
  - inversion H2; subst. simpl. auto 10.
  - simpl. destruct Hr as [-> | ->]; [discriminate |].
    simpl. repeat split; auto. discriminate.
Qed.

Lemma dest_ExecContext_inv s msg st r st' :
  dest_ExecContext w s msg st = (r, st') ->
  committed st' = committed st /\ stdout st' = stdout st /\
  logged st' = logged st /\ reads st' = reads st /\ clock st' = clock st /\
  (r = Ok tt -> txn st' = txn st ++ [s]) /\ (r = Ok tt \/ r = Err msg).
Proof. apply dest_exec_inv. Qed.

Lemma dest_QueryxContext_inv s msg st r st' :
  dest_QueryxContext w s msg st = (r, st') ->
  committed st' = committed st /\ stdout st' = stdout st /\
  logged st' = logged st /\ reads st' = reads st /\ clock st' = clock st /\
  (r = Ok tt -> txn st' = txn st ++ [s]) /\ (r = Ok tt \/ r = Err msg).
Proof. apply dest_exec_inv. Qed.

Lemma dest_Commit_inv msg st r st' :
  dest_Commit w msg st = (r, st') ->
  stdout st' = stdout st /\ logged st' = logged st /\ reads st' = reads st /\
  (r = Ok tt -> committed st' = committed st ++ [txn st] /\ txn st' = []) /\
  (r <> Ok tt -> committed st' = committed st /\ r = Err msg).
Proof.
  unfold dest_Commit. intros H.
  apply bind_inv in H as [(a & st1 & H1 & H2) | (r0 & H1 & Hr0 & ->)];
    apply extcall_inv in H1 as [-> Hr].
  - inversion H2; subst. simpl. repeat split; auto; congruence.
  - simpl. destruct Hr as [-> | ->]; [discriminate |].
    simpl. repeat split; auto; discriminate.
Qed.

Lemma bounded_dest_Commit msg : bounded (dest_Commit w msg).
Proof.
  apply bounded_bind; [apply bounded_extcall |]. intros _ st. discriminate.
Qed.

(** The row loop of a fetch touches nothing but the call counter, and
    returns the selected rows in order. *)
Lemma scan_rows_inv table selected acc st r st' :
  scan_rows w table selected acc st = (r, st') ->
  (exists cs, st' = record_calls cs st) /\
  (r = Ok (acc ++ selected) \/ r = Err "failed structscan").
Proof.
  revert acc st. induction selected as [| x rest IH]; simpl; intros acc st H.
  - apply ret_inv in H as [-> ->]. rewrite app_nil_r. split; auto.
    exists []. symmetry. apply record_calls_nil.
  - apply bind_inv in H as [(a & st1 & H1 & H2) | (r0 & H1 & Hr0 & ->)];
      apply extcall_inv in H1 as [-> Hr].
    + apply IH in H2 as [[cs ->] Hres]. split.
      * eexists. apply record_calls_app.
      * rewrite <- app_assoc in Hres. exact Hres.
    + split; [exists [MapScan table x]; reflexivity |].
      destruct Hr as [-> | ->]; [discriminate | auto].
Qed.

End Calls.

(** ** Pages *)

Section Pages.
Context {A : Type}.
Implicit Types (l : list A) (p : nat).

Lemma ceil_div_step n p :
  0 < p -> 0 < n -> ceil_div n p = S (ceil_div (n - p) p).
Proof.
  intros Hp Hn. unfold ceil_div.
  destruct (le_lt_dec p n) as [Hle | Hlt].
  - replace (n + p - 1) with ((n - p + p - 1) + 1 * p) by lia.
    rewrite Nat.div_add by lia. lia.
  - replace (n - p) with 0 by lia. simpl.
    rewrite (Nat.div_small (p - 1) p) by lia.
    symmetry. apply (Nat.div_unique _ _ 1 (n - 1)); lia.
Qed.

Lemma ceil_div_0 p : ceil_div 0 p = 0.
Proof.
  unfold ceil_div. destruct p as [| p]; [reflexivity |].
  apply Nat.div_small. lia.
Qed.

Lemma take_nil_inv p l : take p l = [] -> p = 0 \/ l = [].
Proof. destruct p, l; simpl; auto; discriminate. Qed.

Lemma length_pages p l : length (pages p l) = ceil_div (length l) p.
Proof. unfold pages. rewrite length_map, length_seq. reflexivity. Qed.

Lemma pages_nil p l : take p l = [] -> pages p l = [].
Proof.
  intros H. unfold pages. apply take_nil_inv in H as [-> | ->].
  - unfold ceil_div. rewrite Nat.div_0_r. reflexivity.
  - simpl. rewrite ceil_div_0. reflexivity.
Qed.

Lemma pages_cons p l :
  take p l <> [] -> pages p l = take p l :: pages p (drop p l).
Proof.
  intros H.
  assert (0 < p) as Hp by (destruct p; [exfalso; apply H; reflexivity | lia]).
  assert (0 < length l) as Hl by (destruct l; [exfalso; apply H; destruct p; reflexivity | simpl; lia]).
  unfold pages. rewrite (ceil_div_step (length l) p Hp Hl), length_drop.
  simpl. f_equal. rewrite <- seq_shift, map_map.
  apply map_ext. intros i. rewrite drop_drop. reflexivity.
Qed.

Lemma concat_pages p l : 0 < p -> concat (pages p l) = l.
Proof.
  intros Hp. remember (length l) as n eqn:Hn. revert l Hn.
  induction n as [n IH] using lt_wf_ind. intros l Hn.
  destruct l as [| x l'].
  - rewrite pages_nil; [reflexivity | destruct p; reflexivity].
  - rewrite pages_cons by (destruct p; [lia | discriminate]).
    simpl concat. rewrite (IH (length (drop p (x :: l')))); auto.
    + apply take_drop.
    + rewrite length_drop. subst n. simpl. lia.
Qed.

Lemma pages_nonempty p l : Forall (fun b => b <> [] /\ length b <= p) (pages p l).
Proof.
  unfold pages. apply List.Forall_forall. intros b Hb.
  apply in_map_iff in Hb as (i & <- & Hi). apply in_seq in Hi.
  rewrite length_take. split; [| lia].
  intros Hnil. apply (f_equal length) in Hnil.
  rewrite length_take, length_drop in Hnil. simpl in Hnil.
  destruct (Nat.eq_dec p 0) as [-> | Hp].
  - unfold ceil_div in Hi. rewrite Nat.div_0_r in Hi. lia.
  - assert (i * p < length l); [| lia].
    unfold ceil_div in Hi.
    assert (i < (length l + p - 1) / p) as Hi' by lia.
    apply Nat.lt_le_pred in Hi'. 
    assert (p * ((length l + p - 1) / p) <= length l + p - 1)
      by (apply Nat.Div0.mul_div_le).
    nia.
Qed.

End Pages.

(** ** The numeric clamp *)

Lemma int32_of_in_range v :
  (MinInt32 <= v <= MaxInt32)%Z -> int32_of v = v.
Proof.
  unfold int32_of, MinInt32, MaxInt32. intros H.
  rewrite Z.mod_small; lia.
Qed.

Lemma clamp_in_range v :
  (MinInt32 <= v <= MaxInt32)%Z -> clampInt64ToInt32 v = v.
Proof.
  intros H. unfold clampInt64ToInt32.
  destruct (Z.gtb_spec v MaxInt32); [lia |].
  destruct (Z.ltb_spec v MinInt32); [lia |].
  apply int32_of_in_range. exact H.
Qed.

Lemma clamp_above v : (v > MaxInt32)%Z -> clampInt64ToInt32 v = MaxInt32.
Proof.
  intros H. unfold clampInt64ToInt32.
  destruct (Z.gtb_spec v MaxInt32); [reflexivity | lia].
Qed.

Lemma clamp_below v : (v < MinInt32)%Z -> clampInt64ToInt32 v = MinInt32.
Proof.
  intros H. unfold clampInt64ToInt32.
  destruct (Z.gtb_spec v MaxInt32); [unfold MinInt32, MaxInt32 in *; lia |].
  destruct (Z.ltb_spec v MinInt32); [reflexivity | lia].
Qed.

(** C6.  The clamp sends every integer (so every 64-bit one) into the
    32-bit range: above the maximum to the maximum, below the minimum to the
    minimum, and a value of the range, its two ends included, to itself; the
    first value outside on either side goes to the nearer end. *)
Theorem clampInt64ToInt32_spec :
  (forall v, (MinInt64 <= v <= MaxInt64)%Z ->
     (MinInt32 <= clampInt64ToInt32 v <= MaxInt32)%Z /\
     ((v > MaxInt32)%Z -> clampInt64ToInt32 v = MaxInt32) /\
     ((v < MinInt32)%Z -> clampInt64ToInt32 v = MinInt32) /\
     ((MinInt32 <= v <= MaxInt32)%Z -> clampInt64ToInt32 v = v)) /\
  clampInt64ToInt32 MaxInt32 = MaxInt32 /\
  clampInt64ToInt32 MinInt32 = MinInt32 /\
  clampInt64ToInt32 (MaxInt32 + 1) = MaxInt32 /\
  clampInt64ToInt32 (MinInt32 - 1) = MinInt32.
Proof.
  split; [| repeat split; reflexivity].
  intros v _. repeat split.
  - destruct (Z_gt_le_dec v MaxInt32) as [Hgt | Hle].
    + rewrite clamp_above by exact Hgt. unfold MinInt32, MaxInt32. lia.
    + destruct (Z_lt_ge_dec v MinInt32) as [Hlt | Hge].
      * rewrite clamp_below by exact Hlt. lia.
      * rewrite clamp_in_range; lia.
  - destruct (Z_gt_le_dec v MaxInt32) as [Hgt | Hle].
    + rewrite clamp_above by exact Hgt. lia.
    + destruct (Z_lt_ge_dec v MinInt32) as [Hlt | Hge].
      * rewrite clamp_below by exact Hlt. unfold MinInt32, MaxInt32. lia.
      * rewrite clamp_in_range; lia.
  - apply clamp_above.
  - apply clamp_below.
  - apply clamp_in_range.
Qed.

(** ** State bookkeeping *)

Lemma set_logged_same st : set_logged (logged st ++ []) st = st.
Proof. rewrite app_nil_r. destruct st; reflexivity. Qed.

Lemma extends_refl st : extends st st [] [] [] [].
Proof. unfold extends. rewrite !app_nil_r. auto. Qed.

Lemma extends_trans st st1 st2 o1 l1 r1 t1 o2 l2 r2 t2 :
  extends st st1 o1 l1 r1 t1 -> extends st1 st2 o2 l2 r2 t2 ->
  extends st st2 (o1 ++ o2) (l1 ++ l2) (r1 ++ r2) (t1 ++ t2).
Proof.
  unfold extends. intros (Ha & Hb & Hc & Hd & He) (Ha' & Hb' & Hc' & Hd' & He').
  rewrite Ha', Hb', Hc', Hd', He', Ha, Hb, Hc, Hd, He, !app_assoc. auto.
Qed.

Lemma extends_record_calls st cs : extends st (record_calls cs st) [] [] [] [].
Proof. unfold extends. simpl. rewrite !app_nil_r. auto. Qed.

Lemma extends_set_logged st lg : extends st (set_logged (logged st ++ lg) st) [] lg [] [].
Proof. unfold extends. simpl. rewrite !app_nil_r. auto. Qed.

(** ** The repair rules of [main.go] *)

Section Rules.
Variable w : world.

(** *** The JSON-validity rule *)

Lemma check_json_spec r objs st :
  exists lg,
    MainGo.check_json w r objs st
      = (Ok (forallb (column_ok w r) objs), set_logged (logged st ++ lg) st) /\
    (forallb (column_ok w r) objs = true -> lg = []) /\
    (forallb (column_ok w r) objs = false ->
     exists obj err s,
       lg = [SkippingRow obj err s] /\ In obj objs /\
       r !! obj = Some (VString s) /\ json_Unmarshal w s = Some err).
Proof.
  induction objs as [| obj rest IH]; simpl.
  - exists []. rewrite set_logged_same. repeat split; auto. discriminate.
  - destruct IH as (lg & Hrun & Htrue & Hfalse).
    unfold column_ok at 1 3 5, index.
    destruct (r !! obj) as [v |] eqn:Hobj;
      [destruct v as [| | | | | s | |] |];
      try (exists lg; simpl; repeat split; auto;
           intros H; destruct (Hfalse H) as (o & e & s' & ? & ? & ? & ?);
           exists o, e, s'; auto).
    destruct (json_Unmarshal w s) as [err |] eqn:Hs.
    + exists [SkippingRow obj err s]. simpl. repeat split; auto; try discriminate.
      intros _. exists obj, err, s. auto.
    + exists lg; simpl; repeat split; auto.
      intros H; destruct (Hfalse H) as (o & e & s' & ? & ? & ? & ?).
      exists o, e, s'; auto.
Qed.

Lemma keep_valid_spec rowsSlice validRows st :
  exists lg,
    MainGo.keep_valid w rowsSlice validRows st
      = (Ok (validRows ++ filter (fun r => json_ok w r = true) rowsSlice),
         set_logged (logged st ++ lg) st) /\
    Forall2 (diagnoses w) (filter (fun r => json_ok w r = false) rowsSlice) lg /\
    filter is_skip lg = lg.
Proof.
  revert validRows st. induction rowsSlice as [| r rest IH]; intros validRows st.
  - exists []. simpl. rewrite set_logged_same, app_nil_r. auto.
  - cbn [MainGo.keep_valid].
    destruct (check_json_spec r json_columns st) as (lg1 & Hrun & Htrue & Hfalse).
    fold (json_ok w r) in Hrun, Htrue, Hfalse.
    unfold bind. rewrite Hrun. rewrite !filter_cons.
    destruct (json_ok w r) eqn:Hok; cbv beta iota.
    + destruct (IH (validRows ++ [r]) (set_logged (logged st ++ lg1) st))
        as (lg2 & Hrest & Hdiag & Hskip).
      rewrite (Htrue eq_refl) in *. rewrite set_logged_same in *.
      exists lg2. rewrite Hrest, <- app_assoc.
      destruct (decide (true = true)); [| congruence].
      destruct (decide (true = false)); [congruence |]. auto.
    + destruct (IH validRows (set_logged (logged st ++ lg1) st))
        as (lg2 & Hrest & Hdiag & Hskip).
      destruct (Hfalse eq_refl) as (obj & err & s & -> & Hin & Hobj & Herr).
      exists (SkippingRow obj err s :: lg2). rewrite Hrest.
      destruct (decide (false = true)); [congruence |].
      destruct (decide (false = false)); [| congruence].
      simpl. rewrite <- app_assoc. repeat split; auto.
      * constructor; auto. exists obj, err, s. auto.
      * rewrite filter_cons. simpl. rewrite Hskip.
        destruct (decide (true)) as [_ | Hno]; [reflexivity | destruct Hno; exact I].
Qed.

Lemma filter_all_true (P : row -> Prop) `{!forall r, Decision (P r)} (l : list row) :
  Forall P l -> filter P l = l.
Proof.
  induction 1 as [| x l Hx Hl IH]; [reflexivity |].
  rewrite filter_cons. destruct (decide (P x)); [| contradiction].
  rewrite IH. reflexivity.
Qed.

Lemma filter_none (P : row -> Prop) `{!forall r, Decision (P r)} (l : list row) :
  Forall (fun r => ~ P r) l -> filter P l = [].
Proof.
  induction 1 as [| x l Hx Hl IH]; [reflexivity |].
  rewrite filter_cons. destruct (decide (P x)); [contradiction | exact IH].
Qed.

End Rules.

Lemma quiet_refl st : quiet st st.
Proof. exists []. split; [apply extends_refl | reflexivity]. Qed.

Lemma quiet_trans st st1 st2 : quiet st st1 -> quiet st1 st2 -> quiet st st2.
Proof.
  intros (l1 & H1 & Hs1) (l2 & H2 & Hs2). exists (l1 ++ l2). split.
  - apply (extends_trans _ _ _ _ _ _ _ _ _ _ _ H1 H2).
  - rewrite filter_app, Hs1, Hs2. reflexivity.
Qed.

Lemma agree_except_refl cols r : agree_except cols r r.
Proof. intros k _. reflexivity. Qed.

Lemma agree_except_insert cols k v r :
  In k cols -> agree_except cols r (<[k := v]> r).
Proof.
  intros Hk k' Hk'. apply lookup_insert_ne. intros ->. contradiction.
Qed.

Lemma agree_except_trans cols r r1 r2 :
  agree_except cols r r1 -> agree_except cols r1 r2 -> agree_except cols r r2.
Proof. intros H1 H2 k Hk. rewrite (H2 k Hk). apply H1, Hk. Qed.

(** A row loop whose body never returns an error keeps that property, and
    relates the rows pairwise. *)
Lemma failure_inv {A B} (r0 : outcome A) :
  is_Ok r0 = false -> r0 <> OutOfFuel -> (forall e, r0 <> Err e) ->
  failure B r0 <> OutOfFuel /\ (forall e, failure B r0 <> Err e) /\
  (forall b, failure B r0 <> Ok b).
Proof.
  destruct r0 as [a | msg | msg |]; simpl; intros H1 H2 H3.
  - discriminate.
  - exfalso. apply (H3 msg). reflexivity.
  - repeat split; intros; discriminate.
  - exfalso. apply H2. reflexivity.
Qed.

Lemma for_rows_inv (f : row -> M row) (R : row -> row -> Prop) :
  (forall r st res st', f r st = (res, st') ->
     quiet st st' /\ res <> OutOfFuel /\ (forall e, res <> Err e) /\
     (forall r', res = Ok r' -> R r r')) ->
  forall rowsSlice st res st', for_rows f rowsSlice st = (res, st') ->
     quiet st st' /\ res <> OutOfFuel /\ (forall e, res <> Err e) /\
     (forall b', res = Ok b' -> Forall2 R rowsSlice b').
Proof.
  intros Hf. induction rowsSlice as [| r rest IH]; simpl; intros st res st' H.
  - apply ret_inv in H as [-> ->].
    split; [apply quiet_refl |]. split; [discriminate |].
    split; [discriminate |]. intros b' Hb. inversion Hb. constructor.
  - apply bind_inv in H as [(r1 & st1 & H1 & H2) | (r0 & H1 & Hr0 & ->)].
    + apply Hf in H1 as (Hq1 & _ & _ & HR).
      apply bind_inv in H2 as [(b1 & st2 & H2 & H3) | (r0 & H2 & Hr0 & ->)].
      * apply IH in H2 as (Hq2 & _ & _ & HRs).
        apply ret_inv in H3 as [-> ->].
        split; [eapply quiet_trans; eauto |]. split; [discriminate |].
        split; [discriminate |].
        intros b' Hb. inversion Hb; subst. constructor; auto.
      * apply IH in H2 as (Hq2 & Hoof & Herr & _).
        destruct (failure_inv (B := batch) r0 Hr0 Hoof Herr) as (F1 & F2 & F3).
        split; [eapply quiet_trans; eauto |]. split; [exact F1 |].
        split; [exact F2 |]. intros b' Hb. destruct (F3 _ Hb).
    + apply Hf in H1 as (Hq1 & Hoof & Herr & _).
      destruct (failure_inv (B := batch) r0 Hr0 Hoof Herr) as (F1 & F2 & F3).
      split; [exact Hq1 |]. split; [exact F1 |].
      split; [exact F2 |]. intros b' Hb. destruct (F3 _ Hb).
Qed.

Section MoreRules.
Variable w : world.

(** *** The numeric clamp on a row *)

Lemma hotfix_agree r :
  agree_except ["interactive_speed"] r (hotfix_interactive_speed r).
Proof.
  unfold hotfix_interactive_speed.
  destruct (r !! "interactive_speed") as [[] |];
    try apply agree_except_refl.
  apply agree_except_insert. left. reflexivity.
Qed.

(** *** The type tag *)

Lemma set_type_inv r st res st' :
  MainGo.set_type r st = (res, st') ->
  st' = st /\
  ((index r "value" <> VNil /\ exists r', res = Ok r' /\ tagged r r') \/
   (index r "value" = VNil /\ exists msg, res = Panic msg)).
Proof.
  unfold MainGo.set_type, tagged.
  destruct (index r "value") eqn:Hv; simpl; intros H;
    inversion H; subst; split; auto;
    try (left; split; [discriminate | eauto]).
  right. eauto.
Qed.

(** *** Timestamp normalization *)

Lemma quiet_time_log st e n :
  is_skip e = false ->
  quiet st (set_clock n (set_logged (logged st ++ [e]) st)).
Proof.
  intros He. exists [e]. split.
  - unfold extends. simpl. rewrite !app_nil_r. auto.
  - rewrite filter_cons. rewrite He.
    destruct (decide (false)) as [[] | _]. reflexivity.
Qed.

Lemma normalize_column_inv r tsKey st :
  exists r' st',
    MainGo.normalize_column w r tsKey st = (Ok r', st') /\
    quiet st st' /\ agree_except [tsKey] r r'.
Proof.
  assert (In tsKey [tsKey]) as Hin by (left; reflexivity).
  unfold MainGo.normalize_column.
  destruct (r !! tsKey) as [v |];
    [| exists r, st; split; [reflexivity |]; split; [apply quiet_refl | apply agree_except_refl]].
  destruct v as [| | | | | s | | t];
    try (eexists _, _; split; [reflexivity |]; split;
         [apply quiet_time_log; reflexivity | apply agree_except_insert, Hin]).
  - destruct (time_Parse_RFC3339 w s) as [t |].
    + destruct (MainGo.isValidPostgresTime w t); simpl.
      * eexists _, _; split; [reflexivity |]; split;
          [apply quiet_refl | apply agree_except_insert, Hin].
      * eexists _, _; split; [reflexivity |]; split;
          [apply quiet_time_log; reflexivity | apply agree_except_insert, Hin].
    + eexists _, _; split; [reflexivity |]; split;
        [apply quiet_time_log; reflexivity | apply agree_except_insert, Hin].
  - destruct (MainGo.isValidPostgresTime w t); simpl.
    + exists r, st; split; [reflexivity |]; split; [apply quiet_refl | apply agree_except_refl].
    + eexists _, _; split; [reflexivity |]; split;
        [apply quiet_time_log; reflexivity | apply agree_except_insert, Hin].
Qed.

Lemma agree_except_weaken cols cols' r r' :
  (forall k, In k cols -> In k cols') ->
  agree_except cols r r' -> agree_except cols' r r'.
Proof. intros Hsub H k Hk. apply H. intros Hin. apply Hk, Hsub, Hin. Qed.

Lemma normalize_columns_inv tsKeys r st :
  exists r' st',
    MainGo.normalize_columns w tsKeys r st = (Ok r', st') /\
    quiet st st' /\ agree_except tsKeys r r'.
Proof.
  revert r st. induction tsKeys as [| tsKey rest IH]; simpl; intros r st.
  - exists r, st. split; [reflexivity |]. split; [apply quiet_refl | apply agree_except_refl].
  - destruct (normalize_column_inv r tsKey st) as (r1 & st1 & H1 & Hq1 & Ha1).
    destruct (IH r1 st1) as (r2 & st2 & H2 & Hq2 & Ha2).
    exists r2, st2. unfold bind. rewrite H1. split; [exact H2 |]. split.
    + eapply quiet_trans; eauto.
    + eapply agree_except_trans.
      * eapply agree_except_weaken; [| exact Ha1]. simpl. intuition.
      * eapply agree_except_weaken; [| exact Ha2]. simpl. intuition.
Qed.

End MoreRules.

Lemma Forall2_refl_on {A} (R : A -> A -> Prop) (l : list A) :
  (forall x, R x x) -> Forall2 R l l.
Proof. intros HR. induction l; constructor; auto. Qed.

Lemma Forall2_map_right {A} (R : A -> A -> Prop) (f : A -> A) (l : list A) :
  (forall x, R x (f x)) -> Forall2 R l (map f l).
Proof. intros HR. induction l; simpl; constructor; auto. Qed.

Section Repair.
Variable w : world.

Lemma written_from_other table b wb :
  table <> "saved_filters" ->
  Forall2 (agree_except (designated table)) b wb ->
  written_from w table b wb.
Proof. intros Hne H. unfold written_from, kept. names. Qed.

Lemma dropped_other table b : table <> "saved_filters" -> dropped w table b = [].
Proof. intros Hne. unfold dropped. names. Qed.

Lemma repair_inv table b st res st' :
  MainGo.repair w table b st = (res, st') ->
  exists lg,
    extends st st' [] lg [] [] /\ res <> OutOfFuel /\ (forall e, res <> Err e) /\
    (forall wb, res = Ok wb ->
       written_from w table b wb /\
       Forall2 (diagnoses w) (dropped w table b) (filter is_skip lg)).
Proof.
  unfold MainGo.repair.
  destruct (decide (table = "video_files")) as [-> | Hvideo];
    [| destruct (decide (table = "performer_custom_fields")) as [-> | Htag];
       [| destruct (decide (table = "saved_filters")) as [-> | Hjson];
          [| destruct (decide (table = "scene_markers")) as [-> | Htime]]]].
  - (* the clamp *)
    names. unfold bind, ret. intros H. inversion H; subst.
    exists []. split; [apply extends_refl |]. split; [discriminate |].
    split; [discriminate |]. intros wb Hwb. inversion Hwb; subst. split.
    + apply written_from_other; [discriminate |].
      apply Forall2_map_right. intros r. apply hotfix_agree.
    + rewrite dropped_other by discriminate. constructor.
  - (* the type tag *)
    names. unfold bind at 1. unfold ret at 1. intros H.
    apply bind_inv in H as [(b1 & st1 & H1 & H2) | (r0 & H1 & Hr0 & ->)].
    + apply (for_rows_inv _ tagged) in H1 as ((lg & Hext & Hlg) & _ & _ & Htag).
      * unfold bind, ret in H2. inversion H2; subst.
        exists lg. split; [exact Hext |]. split; [discriminate |].
        split; [discriminate |]. intros wb Hwb. inversion Hwb; subst.
        rewrite Hlg, dropped_other by discriminate. split; [| constructor].
        apply written_from_other; [discriminate |].
        eapply Forall2_impl; [apply Htag; reflexivity |].
        intros r r' (name & _ & ->). apply agree_except_insert. left. reflexivity.
      * clear. intros r st res st' H. apply set_type_inv in H as [-> Hcase].
        split; [apply quiet_refl |].
        destruct Hcase as [(_ & r' & -> & Ht) | (_ & msg & ->)].
        -- split; [discriminate |]. split; [discriminate |].
           intros r1 Hr1. inversion Hr1; subst. exact Ht.
        -- split; [discriminate |]. split; discriminate.
    + apply (for_rows_inv _ tagged) in H1 as ((lg & Hext & Hlg) & Hoof & Herr & _).
      * destruct (failure_inv (B := batch) r0 Hr0 Hoof Herr) as (F1 & F2 & F3).
        exists lg. split; [exact Hext |]. split; [exact F1 |].
        split; [exact F2 |]. intros wb Hwb. destruct (F3 _ Hwb).
      * clear. intros r st res st' H. apply set_type_inv in H as [-> Hcase].
        split; [apply quiet_refl |].
        destruct Hcase as [(_ & r' & -> & Ht) | (_ & msg & ->)].
        -- split; [discriminate |]. split; [discriminate |].
           intros r1 Hr1. inversion Hr1; subst. exact Ht.
        -- split; [discriminate |]. split; discriminate.
  - (* the JSON filter *)
    names. unfold bind at 1 2. unfold ret at 1 2.
    destruct (keep_valid_spec w b [] st) as (lg & Hrun & Hdiag & Hskip).
    unfold bind. rewrite Hrun. unfold ret. intros H. inversion H; subst.
    exists lg. split; [apply extends_set_logged |]. split; [discriminate |].
    split; [discriminate |]. intros wb Hwb. inversion Hwb; subst. split.
    + unfold written_from, kept. names. simpl.
      apply Forall2_refl_on. intros r. apply agree_except_refl.
    + rewrite Hskip. unfold dropped. names.
  - (* timestamps *)
    names. unfold bind at 1 2 3. unfold ret at 1 2 3. intros H.
    apply (for_rows_inv _ (agree_except timestamp_columns))
      in H as ((lg & Hext & Hlg) & Hoof & Herr & Hrows).
    + exists lg. split; [exact Hext |]. split; [exact Hoof |].
      split; [exact Herr |]. intros wb Hwb.
      rewrite Hlg, dropped_other by discriminate. split; [| constructor].
      apply written_from_other; [discriminate |].
      unfold designated. names. apply Hrows, Hwb.
    + clear. intros r st res st' H.
      destruct (normalize_columns_inv w timestamp_columns r st)
        as (r' & st1 & Hrun & Hq & Ha).
      rewrite Hrun in H. inversion H; subst.
      split; [exact Hq |]. split; [discriminate |]. split; [discriminate |].
      intros r1 Hr1. inversion Hr1; subst. exact Ha.
  - (* the other tables *)
    unfold bind, ret. intros H. inversion H; subst.
    exists []. split; [apply extends_refl |]. split; [discriminate |].
    split; [discriminate |]. intros wb Hwb. inversion Hwb; subst.
    rewrite dropped_other by assumption. split; [| constructor].
    apply written_from_other; [assumption |].
    apply Forall2_refl_on. intros r. apply agree_except_refl.
Qed.

End Repair.

Lemma failure_Ok {A B} (r0 : outcome A) (b : B) : failure B r0 = Ok b -> False.
Proof. destruct r0; discriminate. Qed.

Lemma failure_OutOfFuel {A B} (r0 : outcome A) :
  r0 <> OutOfFuel -> is_Ok r0 = false -> failure B r0 <> OutOfFuel.
Proof. destruct r0; simpl; congruence. Qed.

(** ** The driver of [main.go] *)

Section MainDriver.
Variable w : world.

Lemma extcall_extends c msg st res st' :
  extcall w c msg st = (res, st') ->
  extends st st' [] [] [] [] /\ (res = Ok tt \/ res = Err msg).
Proof.
  intros H. apply extcall_inv in H as [-> Hr]. split; [| exact Hr].
  apply extends_record_calls.
Qed.

Lemma fetch_inv P table offset st res st' :
  MainGo.fetch w P table offset st = (res, st') ->
  exists rd,
    extends st st' [] [] rd [] /\ res <> OutOfFuel /\
    (forall b, res = Ok b ->
       b = take P (drop offset (source w table)) /\ rd = [(table, b)]).
Proof.
  unfold MainGo.fetch. intros H.
  apply bind_inv in H as [(? & st1 & H1 & H) | (r0 & H1 & Hr0 & ->)];
    apply extcall_extends in H1 as [E1 R1].
  2:{ exists []. split; [exact E1 |]. split.
      - destruct R1 as [-> | ->]; discriminate.
      - intros b Hb. destruct (failure_Ok _ _ Hb). }
  apply bind_inv in H as [(? & st2 & H2 & H) | (r0 & H2 & Hr0 & ->)];
    apply extcall_extends in H2 as [E2 R2].
  2:{ exists []. split; [apply (extends_trans _ _ _ _ _ _ _ _ _ _ _ E1 E2) |]. split.
      - destruct R2 as [-> | ->]; discriminate.
      - intros b Hb. destruct (failure_Ok _ _ Hb). }
  pose proof (extends_trans _ _ _ _ _ _ _ _ _ _ _ E1 E2) as E12. simpl in E12.
  apply bind_inv in H as [(b & st3 & H3 & H) | (r0 & H3 & Hr0 & ->)];
    apply scan_rows_inv in H3 as [[n ->] R3].
  2:{ exists []. split; [exact E12 |]. split.
      - destruct R3 as [-> | ->]; discriminate.
      - intros b Hb. destruct (failure_Ok _ _ Hb). }
  unfold bind, record_read, ret in H. inversion H; subst.
  destruct R3 as [R3 | R3]; [| discriminate]. inversion R3; subst. simpl.
  exists [(table, take P (drop offset (source w table)))].
  split; [| split; [discriminate |]].
  - destruct E12 as (Ha & Hb & Hc & Hd & He). unfold extends; simpl.
    rewrite Ha, Hb, Hc, Hd, He, !app_nil_r. auto.
  - intros b Hb. inversion Hb; subst. auto.
Qed.

Lemma dest_ExecContext_extends s msg st res st' :
  dest_ExecContext w s msg st = (res, st') ->
  exists tx, extends st st' [] [] [] tx /\ (res = Ok tt \/ res = Err msg) /\
             (res = Ok tt -> tx = [s]).
Proof.
  unfold dest_ExecContext. intros H.
  apply bind_inv in H as [(? & st1 & H1 & H) | (r0 & H1 & Hr0 & ->)];
    apply extcall_inv in H1 as [-> R1].
  - inversion H; subst. exists [s]. split; [| auto].
    unfold extends; simpl. rewrite !app_nil_r. auto.
  - exists []. split; [apply extends_record_calls |].
    destruct R1 as [-> | ->]; [discriminate |]. simpl. split; [auto | discriminate].
Qed.

Lemma insert_inv table b st res st' :
  MainGo.insert w table b st = (res, st') ->
  exists lg tx,
    extends st st' [] lg [] tx /\ res <> OutOfFuel /\
    (res = Ok tt ->
       exists wb, tx = [Insert table wb] /\ written_from w table b wb /\
                  Forall2 (diagnoses w) (dropped w table b) (filter is_skip lg)).
Proof.
  unfold MainGo.insert. intros H.
  apply bind_inv in H as [(wb & st1 & H1 & H) | (r0 & H1 & Hr0 & ->)];
    apply repair_inv in H1 as (lg & E1 & Hoof & Herr & Hwb).
  2:{ exists lg, []. split; [exact E1 |]. split.
      - apply failure_OutOfFuel; assumption.
      - intros Hb. destruct (failure_Ok _ _ Hb). }
  destruct (Hwb wb eq_refl) as [Hfrom Hdiag].
  apply bind_inv in H as [(? & st2 & H2 & H) | (r0 & H2 & Hr0 & ->)];
    apply extcall_extends in H2 as [E2 R2].
  2:{ exists lg, []. split.
      - pose proof (extends_trans _ _ _ _ _ _ _ _ _ _ _ E1 E2) as E.
        simpl in E. rewrite app_nil_r in E. exact E.
      - split; [destruct R2 as [-> | ->]; discriminate |].
        intros Hb. destruct (failure_Ok _ _ Hb). }
  apply dest_ExecContext_extends in H as (tx & E3 & R3 & Htx).
  exists lg, tx. split.
  - pose proof (extends_trans _ _ _ _ _ _ _ _ _ _ _
                  (extends_trans _ _ _ _ _ _ _ _ _ _ _ E1 E2) E3) as E.
    simpl in E. rewrite !app_nil_r in E. exact E.
  - split; [destruct R3 as [-> | ->]; discriminate |].
    intros Hok. exists wb. auto.
Qed.

Lemma dropped_app table (l1 l2 : list row) :
  dropped w table (l1 ++ l2) = dropped w table l1 ++ dropped w table l2.
Proof. unfold dropped. destruct (decide _); [apply filter_app | reflexivity]. Qed.

Lemma kept_app table (l1 l2 : list row) :
  kept w table (l1 ++ l2) = kept w table l1 ++ kept w table l2.
Proof. unfold kept. destruct (decide _); [apply filter_app | reflexivity]. Qed.

(** The loop of one table, whatever its outcome; when it ends normally the
    fetches were the pages of the table followed by an empty one, and each
    page was written once, in order. *)
Lemma table_loop_inv P table fuel offset st res st' :
  MainGo.table_loop w fuel P table offset st = (res, st') ->
  exists lg rd tx,
    extends st st' [] lg rd tx /\
    (res = Ok tt ->
       exists wbs,
         tx = map (Insert table) wbs /\
         Forall2 (written_from w table)
           (pages P (drop offset (source w table))) wbs /\
         rd = map (pair table) (pages P (drop offset (source w table)) ++ [[]]) /\
         Forall2 (diagnoses w)
           (dropped w table (concat (pages P (drop offset (source w table)))))
           (filter is_skip lg)).
Proof.
  revert offset st. induction fuel as [| fuel IH]; intros offset st H.
  - inversion H; subst. exists [], [], []. split; [apply extends_refl | discriminate].
  - cbn [MainGo.table_loop] in H.
    apply bind_inv in H as [(b & st1 & H1 & H) | (r0 & H1 & Hr0 & ->)];
      apply fetch_inv in H1 as (rd1 & E1 & _ & Hb).
    2:{ exists [], rd1, []. split; [exact E1 |].
        intros Hok. destruct (failure_Ok _ _ Hok). }
    destruct (Hb b eq_refl) as [Hpage ->].
    destruct b as [| r b'].
    + (* the empty page ends the loop *)
      apply ret_inv in H as [-> ->].
      exists [], [(table, [])], []. split; [exact E1 |]. intros _.
      exists []. rewrite (pages_nil P _ (eq_sym Hpage)). simpl.
      split; [reflexivity |]. split; [constructor |]. split; [reflexivity |].
      unfold dropped. names; constructor.
    + (* a page: insert it and go on *)
      assert (take P (drop offset (source w table)) <> []) as Hne
          by (rewrite <- Hpage; discriminate).
      rewrite (pages_cons P _ Hne), drop_drop, <- Hpage.
      apply bind_inv in H as [([] & st2 & H2 & H) | (r0 & H2 & Hr0 & ->)];
        apply insert_inv in H2 as (lg2 & tx2 & E2 & _ & Hins).
      2:{ exists lg2, [(table, r :: b')], tx2. split.
          - apply (extends_trans _ _ _ _ _ _ _ _ _ _ _ E1 E2).
          - intros Hok. destruct (failure_Ok _ _ Hok). }
      apply IH in H as (lg3 & rd3 & tx3 & E3 & Hrest).
      exists (lg2 ++ lg3), ([(table, r :: b')] ++ rd3), (tx2 ++ tx3). split.
      * pose proof (extends_trans _ _ _ _ _ _ _ _ _ _ _
                      (extends_trans _ _ _ _ _ _ _ _ _ _ _ E1 E2) E3) as E.
        simpl in E. exact E.
      * intros Hok. destruct (Hins eq_refl) as (wb & -> & Hfrom & Hdiag).
        destruct (Hrest Hok) as (wbs & -> & Hfroms & -> & Hdiags).
        exists (wb :: wbs). split; [reflexivity |].
        split; [constructor; assumption |]. split; [reflexivity |].
        rewrite concat_cons, dropped_app, filter_app.
        apply Forall2_app; assumption.
Qed.

(** The loop ends before the bound when the bound exceeds the rows left. *)
Lemma table_loop_fuel P table fuel offset st :
  length (source w table) - offset < fuel ->
  fst (MainGo.table_loop w fuel P table offset st) <> OutOfFuel.
Proof.
  revert offset st. induction fuel as [| fuel IH]; intros offset st Hfuel; [lia |].
  cbn [MainGo.table_loop].
  destruct (bind _ _ st) as [res st'] eqn:H. simpl.
  apply bind_inv in H as [(b & st1 & H1 & H) | (r0 & H1 & Hr0 & ->)];
    apply fetch_inv in H1 as (rd1 & E1 & Hoof & Hb).
  2:{ apply failure_OutOfFuel; assumption. }
  destruct (Hb b eq_refl) as [Hpage _].
  destruct b as [| r b'].
  - apply ret_inv in H as [-> _]. discriminate.
  - apply bind_inv in H as [(? & st2 & H2 & H) | (r0 & H2 & Hr0 & ->)];
      apply insert_inv in H2 as (lg2 & tx2 & E2 & Hoof2 & _).
    2:{ apply failure_OutOfFuel; assumption. }
    assert (length (source w table) - (offset + P) < fuel) as Hless.
    { apply (f_equal length) in Hpage.
      rewrite length_take, length_drop in Hpage. simpl in Hpage. lia. }
    pose proof (IH (offset + P) st2 Hless) as Hres. rewrite H in Hres. exact Hres.
Qed.

End MainDriver.

(** ** Batches by table *)

Lemma batches_of_app table (l1 l2 : list (string * batch)) :
  batches_of table (l1 ++ l2) = batches_of table l1 ++ batches_of table l2.
Proof. apply omap_app. Qed.

Lemma batches_of_cons table t b (l : list (string * batch)) :
  batches_of table ((t, b) :: l) =
  (if decide (t = table) then [b] else []) ++ batches_of table l.
Proof. unfold batches_of. simpl. destruct (decide (t = table)); reflexivity. Qed.

Lemma batches_of_same table (bs : list batch) :
  batches_of table (map (pair table) bs) = bs.
Proof.
  induction bs as [| b bs IH]; [reflexivity |].
  simpl map. rewrite batches_of_cons, IH.
  destruct (decide (table = table)); [reflexivity | congruence].
Qed.

Lemma batches_of_other table table' (bs : list batch) :
  table' <> table -> batches_of table (map (pair table') bs) = [].
Proof.
  intros Hne. induction bs as [| b bs IH]; [reflexivity |].
  simpl map. rewrite batches_of_cons, IH.
  destruct (decide (table' = table)); [congruence | reflexivity].
Qed.

Lemma batches_written_app table (l1 l2 : list stmt) :
  batches_written table (l1 ++ l2) =
  batches_written table l1 ++ batches_written table l2.
Proof. apply omap_app. Qed.

Lemma batches_written_inserts table (ins : list (string * batch)) :
  batches_written table (map (fun tb => Insert (fst tb) (snd tb)) ins) =
  batches_of table ins.
Proof.
  induction ins as [| [t b] ins IH]; [reflexivity |].
  rewrite batches_of_cons, <- IH. unfold batches_written. simpl.
  destruct (decide (t = table)); reflexivity.
Qed.

Lemma batches_written_restarts table (ts : list string) :
  batches_written table (map RestartSeq ts) = [].
Proof. induction ts as [| t ts IH]; [reflexivity | exact IH]. Qed.

(** ** The destination after a list of statements *)

Lemma batches_written_cons table (s : stmt) (l : list stmt) :
  batches_written table (s :: l) =
  match s with
  | Insert t b => if decide (t = table) then [b] else []
  | RestartSeq _ => []
  end ++ batches_written table l.
Proof.
  unfold batches_written. cbn [omap list_omap].
  destruct s as [t b | t]; [destruct (decide _) |]; reflexivity.
Qed.

Section Replay.
Variable w : world.

Lemma exec_stmts_app db l1 l2 :
  exec_stmts w db (l1 ++ l2) = exec_stmts w (exec_stmts w db l1) l2.
Proof. apply fold_left_app. Qed.

Lemma stored_app table rows (bs1 bs2 : list batch) :
  stored w table rows (bs1 ++ bs2)
  = stored w table (stored w table rows bs1) bs2.
Proof. apply fold_left_app. Qed.

(** Statements built from batches with rows add those rows. *)
Lemma stored_filled table rows (bs : list batch) :
  Forall (fun b => b <> []) bs ->
  stored w table rows bs = rows ++ concat bs.
Proof.
  intros Hbs. revert rows. induction Hbs as [| b bs Hb _ IH]; intros rows.
  - simpl. rewrite app_nil_r. reflexivity.
  - cbn [stored fold_left]. change (fold_left _ bs ?acc) with (stored w table acc bs).
    rewrite IH. destruct b as [| r b]; [congruence |].
    cbn [inserted concat]. rewrite app_assoc. reflexivity.
Qed.

(** Each statement adds a row at least: a table never holds fewer rows than
    the batches written to it. *)
Lemma length_stored table rows (bs : list batch) :
  length (stored w table rows bs)
  = length rows + length (concat bs)
    + length (filter (fun b => length b = 0) bs).
Proof.
  revert rows. induction bs as [| b bs IH]; intros rows.
  - simpl. lia.
  - cbn [stored fold_left]. change (fold_left _ bs ?acc) with (stored w table acc bs).
    rewrite IH, length_app, filter_cons. cbn [concat]. rewrite length_app.
    destruct b as [| r b]; cbn [inserted length].
    + destruct (decide (0 = 0)); [| congruence]. simpl. lia.
    + destruct (decide (S (length b) = 0)); [lia |]. simpl. lia.
Qed.

(** The rows of a table after a list of statements. *)
Lemma table_rows_replay l db table :
  table_rows (exec_stmts w db l) table
  = stored w table (table_rows db table) (batches_written table l).
Proof.
  revert db. induction l as [| s l IH]; intros db; [reflexivity |].
  change (exec_stmts w db (s :: l)) with (exec_stmts w (exec_stmt w db s) l).
  rewrite IH, batches_written_cons. destruct s as [t b | t]; simpl.
  - destruct (decide (table = t)) as [-> | Hne].
    + destruct (decide (t = t)); [| congruence]. reflexivity.
    + destruct (decide (t = table)); [congruence | reflexivity].
  - reflexivity.
Qed.

Lemma table_rows_exec_stmts l db table :
  Forall (fun b => b <> []) (batches_written table l) ->
  table_rows (exec_stmts w db l) table =
  table_rows db table ++ concat (batches_written table l).
Proof. intros Hl. rewrite table_rows_replay. apply stored_filled, Hl. Qed.

Lemma next_id_exec_restarts ts db table :
  (In table ts ->
   next_id (exec_stmts w db (map RestartSeq ts)) table =
   Some (restart_value (table_rows db table))) /\
  (~ In table ts ->
   next_id (exec_stmts w db (map RestartSeq ts)) table = next_id db table).
Proof.
  revert db. induction ts as [| t ts IH]; intros db.
  - split; [intros [] | reflexivity].
  - simpl map.
    change (exec_stmts w db (?s :: ?l)) with (exec_stmts w (exec_stmt w db s) l).
    destruct (IH (exec_stmt w db (RestartSeq t))) as [IHin IHout].
    destruct (in_dec string_dec table ts) as [Hts | Hts].
    + split; [| intros Hno; exfalso; apply Hno; right; exact Hts].
      intros _. rewrite (IHin Hts). reflexivity.
    + rewrite (IHout Hts). simpl. split.
      * intros [-> | Hin]; [| contradiction].
        destruct (decide (table = table)); [reflexivity | congruence].
      * intros Hno. destruct (decide (table = t)) as [-> | Hne]; [| reflexivity].
        exfalso. apply Hno. left. reflexivity.
Qed.

Lemma next_id_inserts (l : list stmt) db :
  (forall s, In s l -> exists t b, s = Insert t b) ->
  next_id (exec_stmts w db l) = next_id db.
Proof.
  revert db. induction l as [| s l IH]; intros db Hl; [reflexivity |].
  change (exec_stmts w db (s :: l)) with (exec_stmts w (exec_stmt w db s) l).
  rewrite IH by (intros s' Hs'; apply Hl; right; exact Hs').
  destruct (Hl s (or_introl eq_refl)) as (t & b & ->). reflexivity.
Qed.

End Replay.

Section MainRun.
Variable w : world.

Lemma Printf_extends line st res st' :
  Printf line st = (res, st') -> res = Ok tt /\ extends st st' [line] [] [] [].
Proof.
  unfold Printf. intros H. inversion H; subst. split; [reflexivity |].
  unfold extends. simpl. rewrite !app_nil_r. auto.
Qed.

Lemma migrate_table_inv P table st res st' :
  MainGo.migrate_table w P table st = (res, st') ->
  exists lg rd tx,
    extends st st' ["Fetching " +:+ table] lg rd tx /\ res <> OutOfFuel /\
    (res = Ok tt ->
       exists wbs,
         tx = map (Insert table) wbs /\
         Forall2 (written_from w table) (pages P (source w table)) wbs /\
         rd = map (pair table) (pages P (source w table) ++ [[]]) /\
         Forall2 (diagnoses w)
           (dropped w table (concat (pages P (source w table))))
           (filter is_skip lg)).
Proof.
  unfold MainGo.migrate_table. intros H.
  apply bind_inv in H as [([] & st1 & H1 & H) | (r0 & H1 & Hr0 & ->)];
    apply Printf_extends in H1 as [R1 E1]; [| subst r0; discriminate].
  pose proof (table_loop_fuel w P table (S (length (source w table))) 0 st1) as Hfuel.
  rewrite H in Hfuel. simpl in Hfuel.
  apply table_loop_inv in H as (lg & rd & tx & E2 & Hok).
  exists lg, rd, tx. split.
  - apply (extends_trans _ _ _ _ _ _ _ _ _ _ _ E1 E2).
  - split; [apply Hfuel; lia |]. exact Hok.
Qed.

(** The outer loop over a list of distinct tables. *)
Lemma tables_inv P ts st res st' :
  NoDup ts ->
  for_range ts (MainGo.migrate_table w P) st = (res, st') ->
  exists out lg rd tx,
    extends st st' out lg rd tx /\ res <> OutOfFuel /\
    (res = Ok tt ->
       exists ins,
         tx = map (fun tb => Insert (fst tb) (snd tb)) ins /\
         (forall t, In t ts ->
            batches_of t rd = pages P (source w t) ++ [[]] /\
            Forall2 (written_from w t) (pages P (source w t)) (batches_of t ins)) /\
         (forall t, ~ In t ts -> batches_of t rd = [] /\ batches_of t ins = []) /\
         Forall2 (diagnoses w)
           (flat_map (fun t => dropped w t (concat (pages P (source w t)))) ts)
           (filter is_skip lg)).
Proof.
  revert st. induction ts as [| table ts IH]; intros st Hnd H.
  - apply ret_inv in H as [-> ->]. exists [], [], [], [].
    split; [apply extends_refl |]. split; [discriminate |]. intros _.
    exists []. split; [reflexivity |]. split; [intros t [] |].
    split; [auto | constructor].
  - apply NoDup_cons in Hnd as [Hfresh Hnd].
    rewrite list_elem_of_In in Hfresh.
    cbn [for_range] in H.
    apply bind_inv in H as [([] & st1 & H1 & H) | (r0 & H1 & Hr0 & ->)];
      apply migrate_table_inv in H1 as (lg1 & rd1 & tx1 & E1 & Hoof1 & Hok1).
    2:{ exists ["Fetching " +:+ table], lg1, rd1, tx1. split; [exact E1 |].
        split; [apply failure_OutOfFuel; assumption |].
        intros Hok. destruct (failure_Ok _ _ Hok). }
    apply (IH _ Hnd) in H as (out2 & lg2 & rd2 & tx2 & E2 & Hoof2 & Hok2).
    exists (["Fetching " +:+ table] ++ out2), (lg1 ++ lg2), (rd1 ++ rd2), (tx1 ++ tx2).
    split; [apply (extends_trans _ _ _ _ _ _ _ _ _ _ _ E1 E2) |].
    split; [exact Hoof2 |]. intros Hok.
    destruct (Hok1 eq_refl) as (wbs & -> & Hfrom & -> & Hdiag).
    destruct (Hok2 Hok) as (ins & -> & Hin & Hout & Hdiags).
    exists (map (pair table) wbs ++ ins). split.
    { rewrite map_app, map_map. reflexivity. }
    split; [| split].
    + intros t [<- | Ht].
      * rewrite !batches_of_app, !batches_of_same.
        destruct (Hout table Hfresh) as [-> ->]. rewrite !app_nil_r. auto.
      * assert (table <> t) as Hne by (intros ->; contradiction).
        rewrite !batches_of_app, !batches_of_other by exact Hne.
        apply (Hin t Ht).
    + intros t Ht.
      assert (table <> t) as Hne by (intros ->; apply Ht; left; reflexivity).
      rewrite !batches_of_app, !batches_of_other by exact Hne.
      apply Hout. intros Hin'. apply Ht. right. exact Hin'.
    + simpl flat_map. rewrite filter_app. apply Forall2_app; assumption.
Qed.

Lemma restarts_inv ts st res st' :
  for_range ts (fun table_name => dest_ExecContext w (RestartSeq table_name) "exec")
    st = (res, st') ->
  exists tx, extends st st' [] [] [] tx /\ res <> OutOfFuel /\
             (res = Ok tt -> tx = map RestartSeq ts).
Proof.
  revert st. induction ts as [| t ts IH]; intros st H.
  - apply ret_inv in H as [-> ->]. exists []. split; [apply extends_refl |].
    split; [discriminate | reflexivity].
  - cbn [for_range] in H.
    apply bind_inv in H as [([] & st1 & H1 & H) | (r0 & H1 & Hr0 & ->)];
      apply dest_ExecContext_extends in H1 as (tx1 & E1 & R1 & Htx1).
    2:{ exists tx1. split; [exact E1 |].
        split; [destruct R1 as [-> | ->]; discriminate |].
        intros Hok. destruct (failure_Ok _ _ Hok). }
    apply IH in H as (tx2 & E2 & Hoof & Htx2).
    exists (tx1 ++ tx2). split.
    + apply (extends_trans _ _ _ _ _ _ _ _ _ _ _ E1 E2).
    + split; [exact Hoof |]. intros Hok.
      rewrite (Htx1 eq_refl), (Htx2 Hok). reflexivity.
Qed.

End MainRun.

(** ** Counting commits *)

Lemma commits_bind {A B} n n' (m : M A) (k : A -> M B) :
  commits_at_most n m -> (forall a, commits_at_most n' (k a)) ->
  commits_at_most (n + n') (bind m k).
Proof.
  intros Hm Hk st res st' H.
  apply bind_inv in H as [(a & st1 & H1 & H2) | (r0 & H1 & Hr0 & ->)].
  - apply Hm in H1 as (_ & txs1 & E1 & L1).
    apply Hk in H2 as (Hoof & txs2 & E2 & L2).
    split; [exact Hoof |]. exists (txs1 ++ txs2).
    rewrite E2, E1, <- app_assoc, length_app. split; [reflexivity | lia].
  - apply Hm in H1 as (Hoof & txs1 & E1 & L1).
    split; [apply failure_OutOfFuel; assumption |].
    exists txs1. split; [exact E1 | lia].
Qed.

Lemma commits_none_of_extends {A} (m : M A) :
  (forall st res st', m st = (res, st') ->
     res <> OutOfFuel /\ committed st' = committed st) ->
  commits_at_most 0 m.
Proof.
  intros Hm st res st' H. apply Hm in H as [Hoof E].
  split; [exact Hoof |]. exists []. rewrite app_nil_r. auto.
Qed.

Lemma commits_for_range {A} (xs : list A) (body : A -> M unit) :
  (forall x, commits_at_most 0 (body x)) -> commits_at_most 0 (for_range xs body).
Proof.
  intros Hb. induction xs as [| x xs IH]; simpl.
  - apply commits_none_of_extends. intros st res st' H.
    apply ret_inv in H as [-> ->]. split; [discriminate | reflexivity].
  - apply (commits_bind 0 0); auto.
Qed.

Lemma commits_wrap {A} n msg (m : M A) :
  commits_at_most n m -> commits_at_most n (wrap msg m).
Proof.
  intros Hm st res st' H. unfold wrap in H.
  destruct (m st) as [r0 st1] eqn:Hrun. apply Hm in Hrun as (Hoof & Htx).
  destruct r0; inversion H; subst; split; auto; discriminate.
Qed.

Section MainCommits.
Variable w : world.

Lemma commits_extcall c msg : commits_at_most 0 (extcall w c msg).
Proof.
  apply commits_none_of_extends. intros st res st' H.
  apply extcall_inv in H as [-> [-> | ->]]; split; try discriminate; reflexivity.
Qed.

Lemma commits_open_sqlite path : commits_at_most 0 (open_sqlite w path).
Proof. apply commits_extcall. Qed.

Lemma commits_open_pgsql connector : commits_at_most 0 (open_pgsql w connector).
Proof.
  unfold open_pgsql. apply (commits_bind 0 0); [apply commits_extcall |].
  intros _. apply (commits_bind 0 0); [apply commits_extcall |].
  intros _. apply commits_none_of_extends. intros st res st' H.
  apply ret_inv in H as [-> ->]. split; [discriminate | reflexivity].
Qed.

Lemma commits_dest_BeginTxx msg : commits_at_most 0 (dest_BeginTxx w msg).
Proof.
  apply commits_none_of_extends. intros st res st' H.
  apply dest_BeginTxx_inv in H as (E & _ & _ & _ & _ & _ & [-> | ->]);
    split; try discriminate; exact E.
Qed.

Lemma commits_dest_ExecContext s msg : commits_at_most 0 (dest_ExecContext w s msg).
Proof.
  apply commits_none_of_extends. intros st res st' H.
  apply dest_ExecContext_inv in H as (E & _ & _ & _ & _ & _ & [-> | ->]);
    split; try discriminate; exact E.
Qed.

Lemma commits_dest_Commit msg : commits_at_most 1 (dest_Commit w msg).
Proof.
  intros st res st' H.
  pose proof (bounded_dest_Commit w msg st) as Hoof. rewrite H in Hoof.
  split; [exact Hoof |].
  apply dest_Commit_inv in H as (_ & _ & _ & Hok & Hfail).
  destruct res as [[] | e | e |].
  - destruct (Hok eq_refl) as [-> _]. exists [txn st].
    split; [reflexivity | simpl; lia].
  - destruct Hfail as [-> _]; [discriminate |]. exists [].
    rewrite app_nil_r. split; [reflexivity | simpl; lia].
  - destruct Hfail as [-> _]; [discriminate |]. exists [].
    rewrite app_nil_r. split; [reflexivity | simpl; lia].
  - destruct Hfail as [-> _]; [discriminate |]. exists [].
    rewrite app_nil_r. split; [reflexivity | simpl; lia].
Qed.

End MainCommits.

Lemma tables_NoDup : NoDup tables.
Proof. apply (bool_decide_unpack _). vm_compute. exact I. Qed.

Section MainMigrate.
Variable w : world.

Lemma commits_migrate_table P table :
  commits_at_most 0 (MainGo.migrate_table w P table).
Proof.
  apply commits_none_of_extends. intros st res st' H.
  apply migrate_table_inv in H as (lg & rd & tx & E & Hoof & _).
  split; [exact Hoof | apply E].
Qed.

(** [main.go] commits once, at the very end: whatever the outcome of a run,
    the destination gained no transaction or a single one. *)
Lemma main_go_commits_once connector dbpath :
  commits_at_most 1 (MainGo.migrate w connector dbpath).
Proof.
  unfold MainGo.migrate.
  apply (commits_bind 0 1); [apply commits_wrap, commits_open_sqlite |]. intros _.
  apply (commits_bind 0 1); [apply commits_wrap, commits_open_pgsql |]. intros _.
  apply (commits_bind 0 1); [apply commits_extcall |]. intros _.
  apply (commits_bind 0 1); [apply commits_dest_BeginTxx |]. intros _.
  apply (commits_bind 0 1);
    [apply commits_for_range; intros t; apply commits_migrate_table |]. intros _.
  apply (commits_bind 0 1).
  { apply commits_none_of_extends. intros st res st' H.
    apply Printf_extends in H as [-> E]. split; [discriminate | apply E]. }
  intros _.
  apply (commits_bind 0 1);
    [apply commits_for_range; intros t; apply commits_dest_ExecContext |]. intros _.
  apply (commits_bind 1 0); [apply commits_dest_Commit |]. intros _.
  apply (commits_bind 0 0); [apply commits_extcall |]. intros _.
  apply commits_extcall.
Qed.

(** A run of [main.go] that ends normally. *)
Lemma migrate_Ok connector dbpath st st' :
  MainGo.migrate w connector dbpath st = (Ok tt, st') ->
  exists lg rd ins,
    committed st' =
      committed st ++
      [map (fun tb => Insert (fst tb) (snd tb)) ins ++ map RestartSeq sequence_tables] /\
    logged st' = logged st ++ lg /\ reads st' = reads st ++ rd /\
    (forall t, In t tables ->
       batches_of t rd = pages 1000 (source w t) ++ [[]] /\
       Forall2 (written_from w t) (pages 1000 (source w t)) (batches_of t ins)) /\
    (forall t, ~ In t tables -> batches_of t rd = [] /\ batches_of t ins = []) /\
    Forall2 (diagnoses w)
      (flat_map (fun t => dropped w t (concat (pages 1000 (source w t)))) tables)
      (filter is_skip lg).
Proof.
  unfold MainGo.migrate. intros H.
  apply bind_Ok in H as ([] & st1 & H1 & H).
  assert (committed st1 = committed st /\ logged st1 = logged st /\
          reads st1 = reads st) as (C1 & L1 & R1).
  { unfold wrap, open_sqlite in H1.
    destruct (extcall w _ _ st) as [r0 s0] eqn:Hrun.
    apply extcall_inv in Hrun as [-> _].
    destruct r0; inversion H1; subst; auto. }
  apply bind_Ok in H as ([] & st2 & H2 & H).
  assert (committed st2 = committed st1 /\ logged st2 = logged st1 /\
          reads st2 = reads st1) as (C2 & L2 & R2).
  { unfold wrap, open_pgsql in H2.
    destruct (bind _ _ st1) as [r0 s0] eqn:Hrun.
    assert (s0 = st2) as -> by (destruct r0; inversion H2; reflexivity).
    apply bind_inv in Hrun as [([] & sa & Ha & Hrun) | (ra & Ha & _ & _)];
      apply extcall_inv in Ha as [-> _]; [| auto].
    apply bind_inv in Hrun as [([] & sb & Hb & Hrun) | (rb & Hb & _ & _)];
      apply extcall_inv in Hb as [-> _]; [| auto].
    apply ret_inv in Hrun as [_ ->]. auto. }
  apply bind_Ok in H as ([] & st3 & H3 & H).
  apply extcall_inv in H3 as [-> _].
  apply bind_Ok in H as ([] & st4 & H4 & H).
  apply dest_BeginTxx_inv in H4 as (C4 & _ & L4 & R4 & _ & T4 & _).
  specialize (T4 eq_refl). simpl in C4, L4, R4.
  apply bind_Ok in H as ([] & st5 & H5 & H).
  apply (tables_inv w 1000 tables _ _ _ tables_NoDup) in H5
    as (out & lg & rd & tx & E5 & _ & Hok).
  destruct (Hok eq_refl) as (ins & -> & Hin & Hout & Hdiag).
  destruct E5 as (_ & L5 & R5 & T5 & C5).
  apply bind_Ok in H as ([] & st6 & H6 & H).
  apply Printf_extends in H6 as [_ (_ & L6 & R6 & T6 & C6)].
  apply bind_Ok in H as ([] & st7 & H7 & H).
  apply restarts_inv in H7 as (tx7 & (_ & L7 & R7 & T7 & C7) & _ & Htx7).
  specialize (Htx7 eq_refl). subst tx7.
  apply bind_Ok in H as ([] & st8 & H8 & H).
  apply dest_Commit_inv in H8 as (_ & L8 & R8 & Hcommit & _).
  destruct (Hcommit eq_refl) as [C8 _].
  apply bind_Ok in H as ([] & st9 & H9 & H).
  apply extcall_inv in H9 as [-> _].
  apply extcall_inv in H as [-> _].
  cbn [committed logged reads txn record_call record_calls].
  exists lg, rd, ins.
  rewrite C8, C7, C6, C5, C4, C2, C1, T7, T6, T5, T4.
  rewrite L8, L7, L6, L5, L4, L2, L1, R8, R7, R6, R5, R4, R2, R1.
  rewrite !app_nil_r, ?app_nil_l. auto 10.
Qed.

End MainMigrate.

(** ** Who is to blame for a failure *)

Lemma blameless_Ok w table {A} (res : outcome A) :
  blameless w table res -> (forall n c, fails w n c = false) ->
  table <> "performer_custom_fields" -> exists a, res = Ok a.
Proof.
  destruct res as [a | e | e |]; simpl; intros H Hw Ht.
  - eauto.
  - destruct H as (n & c & H). rewrite Hw in H. discriminate.
  - contradiction.
  - contradiction.
Qed.

Lemma faultless_ret w table {A} (a : A) : faultless w table (ret a).
Proof. intros st. exact I. Qed.

Lemma faultless_bind w table {A B} (m : M A) (k : A -> M B) :
  faultless w table m -> (forall a, faultless w table (k a)) ->
  faultless w table (bind m k).
Proof.
  intros Hm Hk st. unfold bind. specialize (Hm st).
  destruct (m st) as [[a | e | e |] st1]; simpl in *; auto. apply Hk.
Qed.

Lemma faultless_for_rows w table f rowsSlice :
  (forall r, faultless w table (f r)) -> faultless w table (for_rows f rowsSlice).
Proof.
  intros Hf. induction rowsSlice as [| r rest IH]; simpl.
  - apply faultless_ret.
  - apply faultless_bind; [apply Hf |]. intros r'.
    apply faultless_bind; [apply IH |]. intros. apply faultless_ret.
Qed.

Section Blame.
Variable w : world.
Variable table : string.

Lemma faultless_extcall c msg : faultless w table (extcall w c msg).
Proof.
  intros st. unfold extcall. destruct (fails w (calls st) c) eqn:Hc; simpl; eauto.
Qed.

Lemma faultless_scan_rows t selected acc :
  faultless w table (scan_rows w t selected acc).
Proof.
  revert acc. induction selected as [| x rest IH]; simpl; intros acc.
  - apply faultless_ret.
  - apply faultless_bind; [apply faultless_extcall | auto].
Qed.

Lemma faultless_dest_ExecContext s msg :
  faultless w table (dest_ExecContext w s msg).
Proof.
  apply faultless_bind; [apply faultless_extcall |]. intros _ st. exact I.
Qed.

Lemma faultless_fetch P t offset : faultless w table (MainGo.fetch w P t offset).
Proof.
  unfold MainGo.fetch.
  apply faultless_bind; [apply faultless_extcall |]. intros _.
  apply faultless_bind; [apply faultless_extcall |]. intros _.
  apply faultless_bind; [apply faultless_scan_rows |]. intros b.
  apply faultless_bind; [intros st; exact I |]. intros _. apply faultless_ret.
Qed.

Lemma faultless_set_type r :
  faultless w "performer_custom_fields" (MainGo.set_type r).
Proof.
  intros st. unfold MainGo.set_type.
  destruct (reflect_TypeOf_String _); simpl; auto.
Qed.

Lemma faultless_keep_valid rowsSlice acc :
  faultless w table (MainGo.keep_valid w rowsSlice acc).
Proof.
  intros st. destruct (keep_valid_spec w rowsSlice acc st) as (lg & -> & _). exact I.
Qed.

Lemma faultless_normalize_columns tsKeys r :
  faultless w table (MainGo.normalize_columns w tsKeys r).
Proof.
  intros st. destruct (normalize_columns_inv w tsKeys r st) as (r' & st' & -> & _).
  exact I.
Qed.

Lemma faultless_repair rowsSlice : faultless w table (MainGo.repair w table rowsSlice).
Proof.
  unfold MainGo.repair.
  apply faultless_bind; [destruct (decide _); apply faultless_ret |]. intros b1.
  apply faultless_bind.
  { destruct (decide _) as [-> |]; [| apply faultless_ret].
    apply faultless_for_rows. intros r. apply faultless_set_type. }
  intros b2. apply faultless_bind.
  { destruct (decide _); [apply faultless_keep_valid | apply faultless_ret]. }
  intros b3. destruct (decide _); [| apply faultless_ret].
  apply faultless_for_rows. intros r. apply faultless_normalize_columns.
Qed.

Lemma faultless_insert rowsSlice : faultless w table (MainGo.insert w table rowsSlice).
Proof.
  unfold MainGo.insert.
  apply faultless_bind; [apply faultless_repair |]. intros b.
  apply faultless_bind; [apply faultless_extcall |]. intros _.
  apply faultless_dest_ExecContext.
Qed.

(** The loop of a table ends before the bound, and only the world or the
    type-tag rule can make it fail. *)
Lemma table_loop_blameless P fuel offset st :
  length (source w table) - offset < fuel ->
  blameless w table (fst (MainGo.table_loop w fuel P table offset st)).
Proof.
  revert offset st. induction fuel as [| fuel IH]; intros offset st Hfuel; [lia |].
  cbn [MainGo.table_loop]. unfold bind at 1.
  pose proof (faultless_fetch P table offset st) as Hf.
  destruct (MainGo.fetch w P table offset st) as [r1 st1] eqn:H1.
  apply fetch_inv in H1 as (rd1 & E1 & Hoof & Hb).
  destruct r1 as [b | e | e |]; simpl in Hf |- *; auto.
  destruct (Hb b eq_refl) as [Hpage _].
  destruct b as [| r b']; [exact I |].
  unfold bind.
  pose proof (faultless_insert (r :: b') st1) as Hi.
  destruct (MainGo.insert w table (r :: b') st1) as [r2 st2].
  destruct r2 as [[] | e | e |]; simpl in Hi |- *; auto.
  apply IH. apply (f_equal length) in Hpage.
  rewrite length_take, length_drop in Hpage. simpl in Hpage. lia.
Qed.

Lemma migrate_table_blameless P st :
  blameless w table (fst (MainGo.migrate_table w P table st)).
Proof.
  unfold MainGo.migrate_table, bind, Printf.
  apply table_loop_blameless. lia.
Qed.

End Blame.

(** ** A run without failing calls ends normally *)

Lemma faultless_wrap w table {A} msg (m : M A) :
  faultless w table m -> faultless w table (wrap msg m).
Proof.
  intros Hm st. unfold wrap. specialize (Hm st).
  destruct (m st) as [[a | e | e |] st1]; simpl in *; auto.
Qed.

Lemma faultless_for_range w table {A} (xs : list A) (body : A -> M unit) :
  (forall x, In x xs -> faultless w table (body x)) ->
  faultless w table (for_range xs body).
Proof.
  induction xs as [| x xs IH]; intros Hb; simpl.
  - apply faultless_ret.
  - apply faultless_bind; [apply Hb; left; reflexivity |].
    intros _. apply IH. intros y Hy. apply Hb. right. exact Hy.
Qed.

Lemma blameless_listed w table {A} (res : outcome A) :
  blameless w table res -> table <> "performer_custom_fields" ->
  blameless w "" res.
Proof. destruct res; simpl; auto. intros -> Hne. congruence. Qed.

Lemma tables_not_tagged table :
  In table tables -> table <> "performer_custom_fields".
Proof.
  intros Hin ->. revert Hin. rewrite <- list_elem_of_In.
  apply (bool_decide_unpack _). vm_compute. exact I.
Qed.

Section RunBlame.
Variable w : world.

Lemma faultless_open_sqlite path : faultless w "" (open_sqlite w path).
Proof. apply faultless_extcall. Qed.

Lemma faultless_open_pgsql connector : faultless w "" (open_pgsql w connector).
Proof.
  unfold open_pgsql. apply faultless_bind; [apply faultless_extcall |].
  intros _. apply faultless_bind; [apply faultless_extcall |].
  intros _. apply faultless_ret.
Qed.

Lemma faultless_begin msg : faultless w "" (dest_BeginTxx w msg).
Proof.
  apply faultless_bind; [apply faultless_extcall |]. intros _ st. exact I.
Qed.

Lemma faultless_commit msg : faultless w "" (dest_Commit w msg).
Proof.
  apply faultless_bind; [apply faultless_extcall |]. intros _ st. exact I.
Qed.

Lemma faultless_main_go connector dbpath :
  faultless w "" (MainGo.migrate w connector dbpath).
Proof.
  unfold MainGo.migrate.
  apply faultless_bind; [apply faultless_wrap, faultless_open_sqlite |]. intros _.
  apply faultless_bind; [apply faultless_wrap, faultless_open_pgsql |]. intros _.
  apply faultless_bind; [apply faultless_extcall |]. intros _.
  apply faultless_bind; [apply faultless_begin |]. intros _.
  apply faultless_bind.
  { apply faultless_for_range. intros t Ht st.
    apply (blameless_listed w t); [apply migrate_table_blameless |].
    apply tables_not_tagged, Ht. }
  intros _. apply faultless_bind; [intros st; exact I |]. intros _.
  apply faultless_bind.
  { apply faultless_for_range. intros t _. apply faultless_dest_ExecContext. }
  intros _. apply faultless_bind; [apply faultless_commit |]. intros _.
  apply faultless_bind; [apply faultless_extcall |]. intros _.
  apply faultless_extcall.
Qed.

(** With no failing external call, [main.go] migrates any source. *)
Lemma main_go_run_Ok connector dbpath st :
  (forall n c, fails w n c = false) ->
  exists st', MainGo.migrate w connector dbpath st = (Ok tt, st').
Proof.
  intros Hw. pose proof (faultless_main_go connector dbpath st) as Hb.
  destruct (MainGo.migrate w connector dbpath st) as [res st'].
  destruct (blameless_Ok w "" res Hb Hw ltac:(discriminate)) as ([] & ->). eauto.
Qed.

End RunBlame.

(** * The rules, as the specification states them *)

Lemma repair_saved_filters w b st :
  MainGo.repair w "saved_filters" b st = MainGo.keep_valid w b [] st.
Proof.
  unfold MainGo.repair. names. unfold bind, ret.
  destruct (MainGo.keep_valid w b [] st) as [[] ?]; reflexivity.
Qed.



Lemma check_json_insert w r obj v objs st :
  (forall s, r !! obj <> Some (VString s)) -> (forall s, v <> VString s) ->
  MainGo.check_json w (<[obj := v]> r) objs st = MainGo.check_json w r objs st.
Proof.
  intros Hr Hv. induction objs as [| o rest IH]; [reflexivity |].
  cbn [MainGo.check_json]. unfold index.
  destruct (decide (o = obj)) as [-> | Hne].
  - rewrite lookup_insert_eq.
    destruct v; try (exfalso; eapply Hv; reflexivity);
      (destruct (r !! obj) as [[] |] eqn:Hobj;
       try (exfalso; eapply Hr; reflexivity); exact IH).
  - rewrite lookup_insert_ne by congruence.
    destruct (r !! o) as [[] |]; try exact IH.
    destruct (json_Unmarshal w s); [reflexivity | exact IH].
Qed.

(** C9.  A designated column that holds no string is not looked at: putting
    any other value that is not a string in its place (nil, bytes, a number)
    changes neither the verdict on the row nor the log, and when the row is
    dropped the diagnostic names another column, one that holds a string
    that does not parse. *)
Theorem json_filter_skips_non_strings (w : world) (r : row) (obj : string)
    (v : value) (st : state) :
  In obj json_columns ->
  (forall s, r !! obj <> Some (VString s)) ->
  (forall s, v <> VString s) ->
  MainGo.check_json w (<[obj := v]> r) json_columns st
    = MainGo.check_json w r json_columns st /\
  (forall st', MainGo.repair w "saved_filters" [r] st = (Ok [], st') ->
     exists obj' s err,
       obj' <> obj /\ In obj' json_columns /\ r !! obj' = Some (VString s) /\
       json_Unmarshal w s = Some err /\
       st' = set_logged (logged st ++ [SkippingRow obj' err s]) st) /\
  ((forall o, In o json_columns -> forall s, r !! o <> Some (VString s)) ->
   MainGo.repair w "saved_filters" [r] st = (Ok [r], st)).
Proof.
  intros Hin Hr Hv. split; [apply check_json_insert; assumption |].
  rewrite !repair_saved_filters. cbn [MainGo.keep_valid]. unfold bind.
  destruct (check_json_spec w r json_columns st) as (lg & Hrun & Htrue & Hfalse).
  rewrite Hrun.
  destruct (forallb (column_ok w r) json_columns) eqn:Hok; simpl.
  - split; [intros st' H; discriminate |]. intros _.
    rewrite (Htrue eq_refl), set_logged_same. reflexivity.
  - destruct (Hfalse eq_refl) as (obj' & err & s & -> & Hin' & Hobj' & Herr).
    split.
    + intros st' H. inversion H; subst.
      exists obj', s, err. repeat split; auto.
      intros ->. apply (Hr s). exact Hobj'.
    + intros Hall. destruct (Hall obj' Hin' s Hobj').
Qed.

(** C10.  The type-tag rule returns a batch exactly when no row has a nil
    [value]: then every row gets the name of the type of its [value] in its
    [type] column; a single row with a nil (or missing) [value] makes the
    rule panic. *)
Theorem type_tag_needs_value (w : world) (b : batch) (st : state) :
  (Forall (fun r => index r "value" <> VNil) b ->
   exists b',
     MainGo.repair w "performer_custom_fields" b st = (Ok b', st) /\
     Forall2 tagged b b') /\
  (Exists (fun r => index r "value" = VNil) b ->
   exists msg, MainGo.repair w "performer_custom_fields" b st = (Panic msg, st)).
Proof.
  assert (MainGo.repair w "performer_custom_fields" b st =
          for_rows MainGo.set_type b st) as ->.
  { unfold MainGo.repair. names. unfold bind, ret.
    destruct (for_rows MainGo.set_type b st) as [[] ?]; reflexivity. }
  split.
  - induction 1 as [| r rest Hr Hrest IH]; cbn [for_rows].
    + exists []. split; [reflexivity | constructor].
    + destruct IH as (rest' & Hrun & Htag).
      unfold bind at 1. unfold MainGo.set_type at 1.
      destruct (reflect_TypeOf_String (index r "value")) as [name |] eqn:Hname.
      * unfold ret at 1. cbv beta iota. unfold bind at 1. rewrite Hrun.
        eexists. split; [reflexivity |].
        constructor; [| exact Htag]. exists name. auto.
      * destruct (index r "value"); try discriminate. congruence.
  - induction b as [| r rest IH]; intros Hex; [inversion Hex |].
    cbn [for_rows]. unfold bind at 1. unfold MainGo.set_type at 1.
    destruct (reflect_TypeOf_String (index r "value")) as [name |] eqn:Hname.
    + unfold ret at 1. cbv beta iota. unfold bind at 1.
      inversion Hex as [? ? Hnil | ? ? Hrest]; subst.
      * rewrite Hnil in Hname. discriminate.
      * destruct (IH Hrest) as (msg & ->). eauto.
    + unfold panic. eauto.
Qed.

Lemma advance_nil st : advance [] st = st.
Proof.
  destruct st. unfold advance, set_clock, set_logged. simpl.
  rewrite Nat.add_0_r, app_nil_r. reflexivity.
Qed.

Lemma advance_one st e :
  set_clock (S (clock st)) (set_logged (logged st ++ [e]) st) = advance [e] st.
Proof. unfold advance. simpl. rewrite Nat.add_1_r. reflexivity. Qed.

Lemma advance_app l1 l2 st : advance l2 (advance l1 st) = advance (l1 ++ l2) st.
Proof.
  unfold advance, set_clock, set_logged. simpl.
  rewrite length_app, Nat.add_assoc, app_assoc. reflexivity.
Qed.

Lemma filter_skip_one e : is_skip e = false -> filter is_skip [e] = [].
Proof.
  intros He. rewrite filter_cons, He.
  destruct (decide (false)) as [[] | _]. reflexivity.
Qed.

Section TimestampRule.
Variable w : world.

Lemma timestamp_rule_left lo lg1 lg2 k v v' :
  timestamp_rule w lo lg1 k v v' -> timestamp_rule w lo (lg1 ++ lg2) k v v'.
Proof.
  assert ((exists i, lg1 !! i = Some (time_diagnostic k v) /\
                     v' = VTime (Time_UTC (time_Now w (lo + i)))) ->
          exists i, (lg1 ++ lg2) !! i = Some (time_diagnostic k v) /\
                    v' = VTime (Time_UTC (time_Now w (lo + i)))) as Hnow.
  { intros (i & Hi & Hv). exists i. split; [| exact Hv].
    apply lookup_app_l_Some, Hi. }
  unfold timestamp_rule.
  destruct v as [| | | | | s | | t]; try exact Hnow.
  - destruct (time_Parse_RFC3339 w s) as [t |]; [| exact Hnow].
    destruct (Time_Year w t >=? 1)%Z; [auto | exact Hnow].
  - destruct (Time_Year w t >=? 1)%Z; [auto | exact Hnow].
Qed.

Lemma timestamp_rule_right lo lg1 lg2 k v v' :
  timestamp_rule w (lo + length lg1) lg2 k v v' ->
  timestamp_rule w lo (lg1 ++ lg2) k v v'.
Proof.
  assert ((exists i, lg2 !! i = Some (time_diagnostic k v) /\
                     v' = VTime (Time_UTC (time_Now w (lo + length lg1 + i)))) ->
          exists i, (lg1 ++ lg2) !! i = Some (time_diagnostic k v) /\
                    v' = VTime (Time_UTC (time_Now w (lo + i)))) as Hnow.
  { intros (i & Hi & Hv). exists (length lg1 + i). split.
    - rewrite lookup_app_r by lia.
      replace (length lg1 + i - length lg1) with i by lia. exact Hi.
    - rewrite Nat.add_assoc. exact Hv. }
  unfold timestamp_rule.
  destruct v as [| | | | | s | | t]; try exact Hnow.
  - destruct (time_Parse_RFC3339 w s) as [t |]; [| exact Hnow].
    destruct (Time_Year w t >=? 1)%Z; [auto | exact Hnow].
  - destruct (Time_Year w t >=? 1)%Z; [auto | exact Hnow].
Qed.

Lemma timestamps_fixed_left lo lg1 lg2 r r' :
  timestamps_fixed w lo lg1 r r' -> timestamps_fixed w lo (lg1 ++ lg2) r r'.
Proof.
  intros [Hcols Hrest]. split; [| exact Hrest].
  intros k Hk. specialize (Hcols k Hk).
  destruct (r !! k); [| exact Hcols].
  destruct Hcols as (v' & Hv & Hrule). exists v'. split; [exact Hv |].
  apply timestamp_rule_left, Hrule.
Qed.

Lemma timestamps_fixed_right lo lg1 lg2 r r' :
  timestamps_fixed w (lo + length lg1) lg2 r r' ->
  timestamps_fixed w lo (lg1 ++ lg2) r r'.
Proof.
  intros [Hcols Hrest]. split; [| exact Hrest].
  intros k Hk. specialize (Hcols k Hk).
  destruct (r !! k); [| exact Hcols].
  destruct Hcols as (v' & Hv & Hrule). exists v'. split; [exact Hv |].
  apply timestamp_rule_right, Hrule.
Qed.

(** One column of one row. *)
Lemma normalize_column_rule r k st :
  exists r' lg,
    MainGo.normalize_column w r k st = (Ok r', advance lg st) /\
    filter is_skip lg = [] /\ agree_except [k] r r' /\
    match r !! k with
    | None => r' = r
    | Some v =>
        exists v', r' = <[k := v']> r /\ timestamp_rule w (clock st) lg k v v'
    end.
Proof.
  assert (In k [k]) as Hin by (left; reflexivity).
  assert (forall v,
            is_skip (time_diagnostic k v) = false /\
            exists r' lg,
              (log_Printf (time_diagnostic k v) ;; now <- Now_UTC w ;;
               ret (<[k := VTime now]> r)) st
                = (Ok r', advance lg st) /\
              filter is_skip lg = [] /\ agree_except [k] r r' /\
              exists v', r' = <[k := v']> r /\
                (exists i, lg !! i = Some (time_diagnostic k v) /\
                           v' = VTime (Time_UTC (time_Now w (clock st + i)))))
    as Hnow.
  { intros v.
    assert (is_skip (time_diagnostic k v) = false) as Hskip
      by (destruct v; reflexivity).
    split; [exact Hskip |].
    exists (<[k := VTime (Time_UTC (time_Now w (clock st)))]> r),
           [time_diagnostic k v].
    split; [| split; [| split]].
    - rewrite <- advance_one. reflexivity.
    - apply filter_skip_one, Hskip.
    - apply agree_except_insert, Hin.
    - eexists. split; [reflexivity |]. exists 0. split; [reflexivity |].
      rewrite Nat.add_0_r. reflexivity. }
  unfold MainGo.normalize_column.
  destruct (r !! k) as [v |] eqn:Hk.
  2:{ exists r, []. rewrite advance_nil.
      split; [reflexivity |]. split; [reflexivity |].
      split; [apply agree_except_refl | reflexivity]. }
  destruct (Hnow v) as (_ & r' & lg & Hrun & Hlg & Hagree & v' & Hr' & Hrep).
  unfold timestamp_rule, MainGo.isValidPostgresTime.
  destruct v as [| | | | | s | | t];
    try (exists r', lg; split; [exact Hrun |]; split; [exact Hlg |];
         split; [exact Hagree |]; exists v'; split; [exact Hr' | exact Hrep]).
  - destruct (time_Parse_RFC3339 w s) as [t |].
    + destruct (Time_Year w t >=? 1)%Z; simpl.
      * exists (<[k := VTime t]> r), []. rewrite advance_nil.
        split; [reflexivity |]. split; [reflexivity |].
        split; [apply agree_except_insert, Hin | eauto].
      * exists r', lg. split; [exact Hrun |]. split; [exact Hlg |].
        split; [exact Hagree |]. exists v'. split; [exact Hr' | exact Hrep].
    + exists r', lg. split; [exact Hrun |]. split; [exact Hlg |].
      split; [exact Hagree |]. exists v'. split; [exact Hr' | exact Hrep].
  - destruct (Time_Year w t >=? 1)%Z; simpl.
    + exists r, []. rewrite advance_nil.
      split; [reflexivity |]. split; [reflexivity |].
      split; [apply agree_except_refl |].
      exists (VTime t). split; [| reflexivity]. symmetry. apply insert_id, Hk.
    + exists r', lg. split; [exact Hrun |]. split; [exact Hlg |].
      split; [exact Hagree |]. exists v'. split; [exact Hr' | exact Hrep].
Qed.

(** Both columns of one row. *)
Lemma normalize_columns_rule r st :
  exists r' lg,
    MainGo.normalize_columns w timestamp_columns r st = (Ok r', advance lg st) /\
    filter is_skip lg = [] /\ timestamps_fixed w (clock st) lg r r'.
Proof.
  destruct (normalize_column_rule r "created_at" st)
    as (r1 & lg1 & H1 & F1 & A1 & P1).
  destruct (normalize_column_rule r1 "updated_at" (advance lg1 st))
    as (r2 & lg2 & H2 & F2 & A2 & P2).
  exists r2, (lg1 ++ lg2).
  unfold timestamp_columns. cbn [MainGo.normalize_columns]. unfold bind.
  rewrite H1, H2, advance_app. split; [reflexivity |].
  split; [rewrite filter_app, F1, F2; reflexivity |].
  assert (r1 !! "updated_at" = r !! "updated_at") as Hu.
  { apply A1. simpl. intros [E | []]. discriminate. }
  assert (r2 !! "created_at" = r1 !! "created_at") as Hc.
  { apply A2. simpl. intros [E | []]. discriminate. }
  split.
  - intros k [<- | [<- | []]].
    + rewrite Hc. destruct (r !! "created_at") eqn:E; [| rewrite P1; exact E].
      destruct P1 as (v' & -> & Hrule). exists v'.
      rewrite lookup_insert_eq. split; [reflexivity |].
      apply timestamp_rule_left, Hrule.
    + rewrite <- Hu. destruct (r1 !! "updated_at") eqn:E; [| rewrite P2; exact E].
      destruct P2 as (v' & -> & Hrule). exists v'.
      rewrite lookup_insert_eq. split; [reflexivity |].
      apply timestamp_rule_right, Hrule.
  - intros k Hk. rewrite A2, A1; [reflexivity | |];
      simpl in *; intros [<- | []]; apply Hk; auto.
Qed.

(** Every row of a batch, in order. *)
Lemma normalize_rows_rule b st :
  exists b' lg,
    for_rows (MainGo.normalize_columns w timestamp_columns) b st
      = (Ok b', advance lg st) /\
    filter is_skip lg = [] /\
    Forall2 (timestamps_fixed w (clock st) lg) b b'.
Proof.
  revert st. induction b as [| r b IH]; intros st.
  - exists [], []. rewrite advance_nil. repeat split; constructor.
  - destruct (normalize_columns_rule r st) as (r' & lg1 & H1 & F1 & N1).
    destruct (IH (advance lg1 st)) as (b' & lg2 & H2 & F2 & N2).
    exists (r' :: b'), (lg1 ++ lg2). cbn [for_rows]. unfold bind.
    rewrite H1, H2, advance_app. split; [reflexivity |].
    split; [rewrite filter_app, F1, F2; reflexivity |].
    constructor; [apply timestamps_fixed_left, N1 |].
    eapply Forall2_impl; [exact N2 |]. intros x y Hxy.
    apply timestamps_fixed_right, Hxy.
Qed.

End TimestampRule.

(** C5.  The timestamp rule of [scene_markers].  On one designated column
    of one row: a text that parses to a year of 1 or later is replaced by
    the parsed time; a text that does not parse or parses to an earlier
    year, and a time of an earlier year, are replaced by the reading of the
    clock in UTC, with a diagnostic; a time of year 1 or later stays.  On a
    batch: the rule always returns a batch, with the rows in their order,
    and in every row of it [created_at] and [updated_at] hold what the rule
    makes of the value the row had there, each value replaced being the
    reading of the clock that goes with its diagnostic in the log; an absent
    column is not created and no other column changes. *)
Theorem timestamp_normalization (w : world) (r : row) (tsKey : string)
    (st : state) :
  let now := Time_UTC (time_Now w (clock st)) in
  let logging e := set_clock (S (clock st)) (set_logged (logged st ++ [e]) st) in
  (forall s t,
     r !! tsKey = Some (VString s) -> time_Parse_RFC3339 w s = Some t ->
     (1 <= Time_Year w t)%Z ->
     MainGo.normalize_column w r tsKey st = (Ok (<[tsKey := VTime t]> r), st)) /\
  (forall s,
     r !! tsKey = Some (VString s) ->
     (time_Parse_RFC3339 w s = None \/
      exists t, time_Parse_RFC3339 w s = Some t /\ (Time_Year w t < 1)%Z) ->
     MainGo.normalize_column w r tsKey st
       = (Ok (<[tsKey := VTime now]> r), logging (InvalidTime tsKey (VString s)))) /\
  (forall t,
     r !! tsKey = Some (VTime t) -> (Time_Year w t < 1)%Z ->
     MainGo.normalize_column w r tsKey st
       = (Ok (<[tsKey := VTime now]> r), logging (OutOfRangeTime tsKey t))) /\
  (forall t,
     r !! tsKey = Some (VTime t) -> (1 <= Time_Year w t)%Z ->
     MainGo.normalize_column w r tsKey st = (Ok r, st)) /\
  zone_offset now = 0%Z /\
  (forall b,
     exists b' lg,
       MainGo.repair w "scene_markers" b st = (Ok b', advance lg st) /\
       Forall2 (timestamps_fixed w (clock st) lg) b b' /\
       filter is_skip lg = []) /\
  (forall b,
     MainGo.repair w "scene_markers" b st
       = for_rows (MainGo.normalize_columns w ["created_at"; "updated_at"]) b st) /\
  MainGo.normalize_columns w ["created_at"; "updated_at"] r st
    = bind (MainGo.normalize_column w r "created_at")
        (fun r1 => MainGo.normalize_column w r1 "updated_at") st.
Proof.
  cbv zeta.
  assert (forall b,
            MainGo.repair w "scene_markers" b st
            = for_rows (MainGo.normalize_columns w ["created_at"; "updated_at"])
                b st) as Hrepair.
  { intros b. unfold MainGo.repair. names. unfold bind, ret. reflexivity. }
  split; [| split; [| split; [| split; [| split; [| split; [| split]]]]]].
  - intros s t Hr Hp Hy.
    unfold MainGo.normalize_column, MainGo.isValidPostgresTime. rewrite Hr, Hp.
    destruct (Z.geb_spec (Time_Year w t) 1); [reflexivity | lia].
  - intros s Hr Hp. unfold MainGo.normalize_column, MainGo.isValidPostgresTime.
    rewrite Hr. destruct Hp as [-> | (t & -> & Hy)]; [reflexivity |].
    destruct (Z.geb_spec (Time_Year w t) 1); [lia | reflexivity].
  - intros t Hr Hy. unfold MainGo.normalize_column, MainGo.isValidPostgresTime.
    rewrite Hr. destruct (Z.geb_spec (Time_Year w t) 1); [lia | reflexivity].
  - intros t Hr Hy. unfold MainGo.normalize_column, MainGo.isValidPostgresTime.
    rewrite Hr. destruct (Z.geb_spec (Time_Year w t) 1); [reflexivity | lia].
  - reflexivity.
  - intros b. destruct (normalize_rows_rule w b st) as (b' & lg & Hrun & Hlg & Hb).
    exists b', lg. rewrite Hrepair. auto.
  - exact Hrepair.
  - cbn [MainGo.normalize_columns]. unfold bind.
    destruct (MainGo.normalize_column w r "created_at" st) as [[r1 | | |] st1];
      try reflexivity.
    destruct (MainGo.normalize_column w r1 "updated_at" st1) as [[] ?]; reflexivity.
Qed.

(** * The run of [main.go] *)

(** The loop of one table in [main.go], with page size [P]. *)
Lemma main_go_pagination (w : world) (P : nat) (table : string) (st : state) :
  0 < P ->
  (forall st',
     MainGo.migrate_table w P table st = (Ok tt, st') ->
     exists wbs,
       reads st' = reads st ++ map (pair table) (pages P (source w table) ++ [[]]) /\
       txn st' = txn st ++ map (Insert table) wbs /\
       Forall2 (written_from w table) (pages P (source w table)) wbs) /\
  ((forall n c, fails w n c = false) -> table <> "performer_custom_fields" ->
   exists st', MainGo.migrate_table w P table st = (Ok tt, st')).
Proof.
  intros HP. split.
  - intros st' H.
    apply migrate_table_inv in H as (lg & rd & tx & E & _ & Hok).
    destruct (Hok eq_refl) as (wbs & -> & Hfrom & -> & _).
    destruct E as (_ & _ & Hreads & Htxn & _).
    exists wbs. auto.
  - intros Hw Ht.
    pose proof (migrate_table_blameless w table P st) as Hb.
    destruct (MainGo.migrate_table w P table st) as [res st'].
    destruct (blameless_Ok w table res Hb Hw Ht) as ([] & ->). eauto.
Qed.

(** ** Kept and dropped rows *)

Lemma kept_dropped_length w table (rows : list row) :
  length (kept w table rows) + length (dropped w table rows) = length rows.
Proof.
  unfold kept, dropped. destruct (decide (table = "saved_filters")); [| simpl; lia].
  induction rows as [| r rows IH]; [reflexivity |].
  rewrite !filter_cons. destruct (json_ok w r).
  - destruct (decide (true = true)); [| congruence].
    destruct (decide (true = false)); [congruence |]. simpl. lia.
  - destruct (decide (false = true)); [congruence |].
    destruct (decide (false = false)); [| congruence]. simpl. lia.
Qed.

Lemma kept_or_dropped w table (rows : list row) r :
  In r rows -> In r (kept w table rows) \/ In r (dropped w table rows).
Proof.
  unfold kept, dropped. destruct (decide (table = "saved_filters")); [| auto].
  intros Hin. rewrite <- !list_elem_of_In, !list_elem_of_filter, !list_elem_of_In.
  destruct (json_ok w r); auto.
Qed.

Lemma flat_map_single {A} (f : string -> list A) (x : string) (ts : list string) :
  NoDup ts -> In x ts -> (forall t, t <> x -> f t = []) -> flat_map f ts = f x.
Proof.
  intros Hnd Hin Hf. induction ts as [| t ts IH]; [destruct Hin |].
  apply NoDup_cons in Hnd as [Hfresh Hnd]. rewrite list_elem_of_In in Hfresh.
  simpl. destruct Hin as [-> | Hin].
  - assert (flat_map f ts = []) as ->; [| apply app_nil_r].
    clear IH Hnd. induction ts as [| t ts IH]; [reflexivity |].
    simpl. rewrite Hf, IH; [reflexivity | |].
    + intros Hin. apply Hfresh. right. exact Hin.
    + intros ->. apply Hfresh. left. reflexivity.
  - rewrite Hf, (IH Hnd Hin); [reflexivity |]. intros ->. contradiction.
Qed.

Lemma Forall2_concat {A B} (R : A -> B -> Prop) (ls : list (list A))
    (ks : list (list B)) :
  Forall2 (Forall2 R) ls ks -> Forall2 R (concat ls) (concat ks).
Proof.
  induction 1 as [| l k ls ks Hlk _ IH]; [constructor |].
  simpl. apply Forall2_app; assumption.
Qed.

Lemma kept_concat w table (bs : list batch) :
  kept w table (concat bs) = concat (map (kept w table) bs).
Proof.
  induction bs as [| b bs IH]; simpl.
  - unfold kept. destruct (decide _); reflexivity.
  - rewrite kept_app, IH. reflexivity.
Qed.

Lemma written_from_concat w table (bs wbs : list batch) :
  Forall2 (written_from w table) bs wbs ->
  Forall2 (agree_except (designated table)) (kept w table (concat bs)) (concat wbs).
Proof.
  intros H. rewrite kept_concat. apply Forall2_concat.
  induction H; simpl; constructor; auto.
Qed.

Lemma repair_length w table b st wb st' :
  MainGo.repair w table b st = (Ok wb, st') ->
  length wb <= length b /\ (table <> "saved_filters" -> length wb = length b).
Proof.
  intros H. apply repair_inv in H as (lg & _ & _ & _ & Hok).
  destruct (Hok wb eq_refl) as [Hfrom _]. unfold written_from in Hfrom.
  apply Forall2_length in Hfrom. rewrite <- Hfrom.
  pose proof (kept_dropped_length w table b) as Hlen. split; [lia |].
  intros Hne. rewrite dropped_other in Hlen by exact Hne. simpl in Hlen. lia.
Qed.

(** ** The maximum of the ids *)

Lemma sql_max_Some (xs : list (option Z)) (acc : option Z) (m : Z) :
  fold_left sql_max_step xs acc = Some m ->
  (acc = Some m \/ In (Some m) xs) /\
  (forall n, acc = Some n \/ In (Some n) xs -> (n <= m)%Z).
Proof.
  revert acc. induction xs as [| x xs IH]; intros acc H; simpl in H.
  - subst acc. split; [auto |]. intros n [Hn | []]. inversion Hn. lia.
  - apply IH in H as [Hm Hle].
    assert (forall n, sql_max_step acc x = Some n ->
                      acc = Some n \/ x = Some n) as Hstep.
    { intros n. destruct acc as [a |], x as [b |]; simpl; auto.
      intros Hn. inversion Hn.
      destruct (Z.max_spec a b) as [[_ ->] | [_ ->]]; auto. }
    assert (forall n, acc = Some n \/ x = Some n ->
                      exists k, sql_max_step acc x = Some k /\ (n <= k)%Z) as Hup.
    { intros n. destruct acc as [a |], x as [b |]; simpl;
        intros [Hn | Hn]; inversion Hn; subst; eexists; split;
        try reflexivity; lia. }
    split.
    + destruct Hm as [Hm | Hm]; [| simpl; auto].
      destruct (Hstep m Hm) as [-> | ->]; simpl; auto.
    + intros n [Hn | [Hn | Hn]].
      * destruct (Hup n (or_introl Hn)) as (k & Hk & Hnk).
        specialize (Hle k (or_introl Hk)). lia.
      * destruct (Hup n (or_intror Hn)) as (k & Hk & Hnk).
        specialize (Hle k (or_introl Hk)). lia.
      * apply Hle. right. exact Hn.
Qed.

Lemma sql_max_None (xs : list (option Z)) (acc : option Z) :
  fold_left sql_max_step xs acc = None ->
  acc = None /\ forall x, In x xs -> x = None.
Proof.
  revert acc. induction xs as [| x xs IH]; intros acc H; simpl in H.
  - split; [exact H | intros x []].
  - apply IH in H as [Hstep Hall].
    destruct acc as [a |], x as [b |]; simpl in Hstep; try discriminate.
    split; [reflexivity |]. intros x [<- | Hx]; auto.
Qed.

Lemma sql_max_all_null (xs : list (option Z)) :
  (forall x, In x xs -> x = None) -> sql_max xs = None.
Proof.
  intros Hall. destruct (sql_max xs) as [m |] eqn:H; [| reflexivity].
  apply sql_max_Some in H as [[Hm | Hm] _]; [discriminate |].
  apply Hall in Hm. discriminate.
Qed.

(** [restart_value] is one more than the largest id, and 1 without ids. *)
Lemma restart_value_spec (rows : list row) :
  ((forall r, In r rows -> row_id r = None) -> restart_value rows = 1%Z) /\
  (forall r n, In r rows -> row_id r = Some n ->
     (n < restart_value rows)%Z /\
     exists r', In r' rows /\ row_id r' = Some (restart_value rows - 1)%Z).
Proof.
  unfold restart_value. split.
  - intros Hall. rewrite sql_max_all_null; [reflexivity |].
    intros x Hx. apply in_map_iff in Hx as (r & <- & Hr). apply Hall, Hr.
  - intros r n Hr Hn.
    assert (In (Some n) (map row_id rows)) as Hin
        by (rewrite <- Hn; apply in_map; exact Hr).
    destruct (sql_max (map row_id rows)) as [m |] eqn:Hmax.
    + apply sql_max_Some in Hmax as [[Hm | Hm] Hle]; [discriminate |].
      split; [specialize (Hle n (or_intror Hin)); lia |].
      apply in_map_iff in Hm as (r' & Hid & Hr').
      exists r'. split; [exact Hr' |]. rewrite Hid. f_equal. lia.
    + apply sql_max_None in Hmax as [_ Hall]. apply Hall in Hin. discriminate.
Qed.

Lemma concat_one {A} (l : list A) : concat [l] = l.
Proof. simpl. apply app_nil_r. Qed.

Section MainDestination.
Variable w : world.

(** The destination after a normal run of [main.go] on an empty one. *)
Lemma main_destination connector dbpath st' :
  MainGo.migrate w connector dbpath init = (Ok tt, st') ->
  exists ins,
    (forall t, table_rows (destination w st') t = stored w t [] (batches_of t ins)) /\
    (forall t, In t sequence_tables ->
       next_id (destination w st') t =
       Some (restart_value (table_rows (destination w st') t))) /\
    (forall t, In t tables ->
       batches_read st' t = pages 1000 (source w t) ++ [[]] /\
       Forall2 (written_from w t) (pages 1000 (source w t)) (batches_of t ins)) /\
    (forall t, ~ In t tables -> batches_read st' t = [] /\ batches_of t ins = []) /\
    Forall2 (diagnoses w)
      (flat_map (fun t => dropped w t (concat (pages 1000 (source w t)))) tables)
      (filter is_skip (logged st')).
Proof.
  intros H.
  apply migrate_Ok in H as (lg & rd & ins & Hc & Hl & Hr & Hin & Hout & Hdiag).
  cbn [committed logged reads init] in Hc, Hl, Hr. exists ins.
  split; [| split].
  - intros t. unfold destination. rewrite Hc, app_nil_l, concat_one.
    rewrite table_rows_replay, batches_written_app,
      batches_written_inserts, batches_written_restarts, app_nil_r.
    reflexivity.
  - intros t Ht. unfold destination. rewrite Hc.
    rewrite app_nil_l, concat_one, exec_stmts_app.
    rewrite (proj1 (next_id_exec_restarts w sequence_tables _ t) Ht).
    rewrite (table_rows_replay w (map RestartSeq sequence_tables)),
      batches_written_restarts.
    reflexivity.
  - unfold batches_read. rewrite Hr, Hl. auto.
Qed.

End MainDestination.

Lemma saved_filters_in_tables : In "saved_filters" tables.
Proof. unfold tables. rewrite <- list_elem_of_In. apply (bool_decide_unpack _). vm_compute. exact I. Qed.

Lemma sample_run_Ok :
  MainGo.migrate (sample_world sample_source no_failure)
    "postgres://stash@localhost/stash" "stash-go.sqlite" init
  = (Ok tt, snd sample_run).
Proof. vm_compute. reflexivity. Qed.

Lemma emptied_count w table (bs wbs : list batch) :
  Forall2 (written_from w table) bs wbs ->
  length (filter (fun wb => length wb = 0) wbs)
  = length (filter (fun b => length (kept w table b) = 0) bs).
Proof.
  induction 1 as [| b wb bs wbs Hb _ IH]; [reflexivity |].
  rewrite !filter_cons. apply Forall2_length in Hb. rewrite <- Hb.
  destruct (decide (length (kept w table b) = 0)); simpl; rewrite IH; reflexivity.
Qed.

Lemma written_filled w table (bs wbs : list batch) :
  Forall (fun b => kept w table b <> []) bs ->
  Forall2 (written_from w table) bs wbs ->
  Forall (fun wb => wb <> []) wbs.
Proof.
  intros Hbs H. induction H as [| b wb bs wbs Hb _ IH]; [constructor |].
  apply Forall_cons in Hbs as [Hkept Hbs]. constructor; [| apply IH, Hbs].
  intros ->. apply Forall2_length in Hb. destruct (kept w table b); [congruence |].
  discriminate.
Qed.

Lemma pages_kept_other w table (rows : list row) :
  table <> "saved_filters" ->
  Forall (fun b => kept w table b <> []) (pages 1000 rows).
Proof.
  intros Hne. eapply Forall_impl; [apply pages_nonempty |].
  intros b [Hb _]. unfold kept. destruct (decide _); [congruence | exact Hb].
Qed.

Section MainAccounting.
Variable w : world.

(** The rows of a table after a normal run of [main.go], counted. *)
Lemma main_go_counts connector dbpath st' table :
  MainGo.migrate w connector dbpath init = (Ok tt, st') ->
  In table tables ->
  rows_read st' table = source w table /\
  length (table_rows (destination w st') table)
    + length (dropped w table (source w table))
  = length (source w table)
    + length (filter (fun b => length (kept w table b) = 0)
                (pages 1000 (source w table))) /\
  (Forall (fun b => kept w table b <> []) (pages 1000 (source w table)) ->
   Forall2 (agree_except (designated table))
     (kept w table (source w table))
     (table_rows (destination w st') table)).
Proof.
  intros H Ht.
  apply main_destination in H as (ins & Hrows & _ & Hin & _ & _).
  destruct (Hin table Ht) as [Hread Hfrom].
  split; [| split].
  - unfold rows_read. rewrite Hread, concat_app. simpl.
    rewrite !app_nil_r. apply concat_pages. lia.
  - rewrite Hrows, length_stored, (emptied_count w table _ _ Hfrom).
    pose proof (written_from_concat w table _ _ Hfrom) as Hall.
    rewrite concat_pages in Hall by lia. apply Forall2_length in Hall.
    pose proof (kept_dropped_length w table (source w table)) as Hlen.
    simpl. lia.
  - intros Hfilled. rewrite Hrows.
    rewrite stored_filled by (apply (written_filled w table _ _ Hfilled Hfrom)).
    pose proof (written_from_concat w table _ _ Hfrom) as Hall.
    rewrite concat_pages in Hall by lia. exact Hall.
Qed.

(** A normal run of [main.go] restarts the listed sequences only. *)
Lemma main_go_unlisted_sequence connector dbpath st' table :
  MainGo.migrate w connector dbpath init = (Ok tt, st') ->
  ~ In table sequence_tables ->
  next_id (destination w st') table = None.
Proof.
  intros H Ht.
  apply migrate_Ok in H as (lg & rd & ins & Hc & _).
  cbn [committed init] in Hc. unfold destination.
  rewrite Hc, app_nil_l, concat_one, exec_stmts_app.
  rewrite (proj2 (next_id_exec_restarts w sequence_tables _ table) Ht).
  rewrite next_id_inserts; [reflexivity |].
  intros s Hs. apply in_map_iff in Hs as ([t b] & <- & _). eauto.
Qed.

End MainAccounting.

(** X17.  Row accounting of [main.go], for any source, on a run from an
    empty destination that ends normally.  For every table of the list the
    rows read are the source table, and a row read is kept or dropped.  The
    rows the destination holds and the rows the JSON rule dropped add up to
    the rows read plus one row for each page the rule emptied, whose insert
    statement is built from no row.  Where no page is emptied, as in every
    table but [saved_filters], the rows the destination holds are the kept
    rows, in order, up to the table's repaired columns.  The [SkippingRow]
    lines of the log are the diagnostics of the dropped rows, one each, in
    order.  Only [saved_filters] has dropped rows, and a rule never makes a
    batch longer.  With no failing external call the run does end
    normally. *)
Theorem main_go_row_accounting (w : world) (connector dbpath : string) :
  (forall st',
     MainGo.migrate w connector dbpath init = (Ok tt, st') ->
     (forall table, In table tables ->
        rows_read st' table = source w table /\
        length (table_rows (destination w st') table)
          + length (dropped w table (rows_read st' table))
          = length (rows_read st' table)
            + length (filter (fun b => length (kept w table b) = 0)
                        (pages 1000 (source w table))) /\
        (Forall (fun b => kept w table b <> []) (pages 1000 (source w table)) ->
         Forall2 (agree_except (designated table))
           (kept w table (rows_read st' table))
           (table_rows (destination w st') table)) /\
        (table <> "saved_filters" ->
         Forall2 (agree_except (designated table))
           (rows_read st' table)
           (table_rows (destination w st') table)) /\
        (forall r, In r (rows_read st' table) ->
           In r (kept w table (rows_read st' table)) \/
           In r (dropped w table (rows_read st' table)))) /\
     Forall2 (diagnoses w)
       (dropped w "saved_filters" (source w "saved_filters"))
       (filter is_skip (logged st'))) /\
  (forall table rows, table <> "saved_filters" -> dropped w table rows = []) /\
  (forall table b s wb s',
     MainGo.repair w table b s = (Ok wb, s') ->
     length wb <= length b /\
     (table <> "saved_filters" -> length wb = length b)) /\
  ((forall n c, fails w n c = false) ->
   exists st', MainGo.migrate w connector dbpath init = (Ok tt, st')).
Proof.
  split; [| split; [| split]].
  - intros st' H. split.
    + intros table Ht.
      destruct (main_go_counts w _ _ _ table H Ht) as (Hsrc & Hlen & Hrows).
      rewrite Hsrc. split; [reflexivity |]. split; [exact Hlen |].
      split; [exact Hrows |]. split; [| apply kept_or_dropped].
      intros Hne. specialize (Hrows (pages_kept_other w table _ Hne)).
      unfold kept in Hrows. destruct (decide _); [congruence | exact Hrows].
    + apply main_destination in H as (ins & _ & _ & _ & _ & Hdiag).
      rewrite (flat_map_single _ "saved_filters") in Hdiag.
      * rewrite concat_pages in Hdiag by lia. exact Hdiag.
      * exact tables_NoDup.
      * exact saved_filters_in_tables.
      * intros t Hne. apply dropped_other, Hne.
  - intros table rows Hne. apply dropped_other, Hne.
  - intros table b s wb s'. apply repair_length.
  - apply main_go_run_Ok.
Qed.

Lemma main_go_row_accounting_witness :
  exists st',
    sample_run = (Ok tt, st') /\
    length (table_rows (destination (sample_world sample_source no_failure) st')
              "saved_filters") + 1 = 3 /\
    length (filter is_skip (logged st')) = 1.
Proof.
  pose proof (main_go_row_accounting (sample_world sample_source no_failure)
                "postgres://stash@localhost/stash" "stash-go.sqlite")
    as (Hrun & _ & _ & Htotal).
  destruct (Htotal (fun n c => eq_refl)) as (st' & Hok).
  exists st'. split; [exact Hok |].
  destruct (Hrun st' Hok) as (Htables & Hlog).
  pose proof (Htables "saved_filters" saved_filters_in_tables)
    as (Hsrc & Hlen & _).
  rewrite Hsrc in Hlen. apply Forall2_length in Hlog.
  set (D := dropped _ _ _) in Hlen, Hlog.
  assert (length D = 1) as HD by (vm_compute; reflexivity).
  set (S := source _ _) in Hlen.
  assert (length S = 3) as HS by (vm_compute; reflexivity).
  set (E := filter _ (pages 1000 S)) in Hlen.
  assert (length E = 0) as HE by (vm_compute; reflexivity).
  split; lia.
Defined.

(** C1 at a source whose only saved filter holds a broken [ui_options].
    The run of [main.go] ends normally.  The row is read, dropped by the
    JSON rule and logged; the insert statement is then built from the
    emptied batch and executed, and it is committed with the sequences.  A
    destination that accepts it holds one row of [saved_filters], a row of
    defaults that was never read: the rows written and the rows dropped are
    two, the rows read one. *)
Theorem row_accounting_fails_on_emptied_page :
  let w := sample_world broken_source no_failure in
  fst broken_run = Ok tt /\
  rows_read (snd broken_run) "saved_filters" = broken_source "saved_filters" /\
  length (rows_read (snd broken_run) "saved_filters") = 1 /\
  dropped w "saved_filters" (rows_read (snd broken_run) "saved_filters")
    = broken_source "saved_filters" /\
  logged (snd broken_run)
    = [SkippingRow "ui_options" "invalid character" "{oops"] /\
  committed (snd broken_run)
    = [Insert "saved_filters" [] :: map RestartSeq sequence_tables] /\
  table_rows (destination w (snd broken_run)) "saved_filters"
    = [default_values w "saved_filters" []] /\
  length (table_rows (destination w (snd broken_run)) "saved_filters")
    + length (dropped w "saved_filters"
                (rows_read (snd broken_run) "saved_filters"))
    <> length (rows_read (snd broken_run) "saved_filters").
Proof.
  intros w. unfold w.
  split; [vm_compute; reflexivity |]. split; [vm_compute; reflexivity |].
  split; [vm_compute; reflexivity |]. split; [vm_compute; reflexivity |].
  split; [vm_compute; reflexivity |]. split; [vm_compute; reflexivity |].
  split; [vm_compute; reflexivity |]. vm_compute. discriminate.
Qed.

(** X18.  After a normal run of [main.go], the sequence of every table of
    the resync list of the code draws next [COALESCE(max(id) + 1, 1)] over
    the rows the destination holds for that table: one more than the
    largest id, and 1 when no row has an id, as for an empty table; over
    ids 3, 7 and 12 that is 13.  The sequence of no other table is
    restarted. *)
Theorem sequence_resync (w : world) (connector dbpath : string) (st' : state) :
  MainGo.migrate w connector dbpath init = (Ok tt, st') ->
  (forall table, In table sequence_tables ->
     next_id (destination w st') table =
     Some (restart_value (table_rows (destination w st') table))) /\
  (forall table, ~ In table sequence_tables ->
     next_id (destination w st') table = None) /\
  (forall rows,
     ((forall r, In r rows -> row_id r = None) -> restart_value rows = 1%Z) /\
     (forall r n, In r rows -> row_id r = Some n ->
        (n < restart_value rows)%Z /\
        exists r', In r' rows /\ row_id r' = Some (restart_value rows - 1)%Z)) /\
  restart_value [] = 1%Z /\
  (forall rows, map row_id rows = [Some 3; Some 7; Some 12]%Z ->
     restart_value rows = 13%Z).
Proof.
  intros H.
  split; [| split].
  - apply main_destination in H as (ins & _ & Hseq & _). exact Hseq.
  - intros table Ht. apply (main_go_unlisted_sequence w _ _ _ table H Ht).
  - split; [apply restart_value_spec |].
    split; [reflexivity |].
    intros rows Hids. unfold restart_value. rewrite Hids. reflexivity.
Qed.

Lemma sequence_resync_witness :
  MainGo.migrate (sample_world sample_source no_failure)
    "postgres://stash@localhost/stash" "stash-go.sqlite" init
  = (Ok tt, snd sample_run) /\
  next_id (destination (sample_world sample_source no_failure) (snd sample_run))
    "folders"
  = Some (restart_value
            (table_rows (destination (sample_world sample_source no_failure)
                           (snd sample_run)) "folders")) /\
  restart_value (map with_id [3; 7; 12]%Z) = 13%Z.
Proof.
  split; [exact sample_run_Ok |].
  pose proof (sequence_resync (sample_world sample_source no_failure)
                "postgres://stash@localhost/stash" "stash-go.sqlite"
                (snd sample_run) sample_run_Ok) as (Hseq & _ & _ & _ & Hex).
  split.
  - apply Hseq. unfold sequence_tables. right. left. reflexivity.
  - apply Hex. vm_compute. reflexivity.
Defined.

(** C7 at a source with three galleries, of ids 3, 7 and 12.  The run of
    [main.go] ends normally and the destination holds the three rows:
    [galleries] is in the list of tables.  It is not in the list of
    sequences, next to [galleries_chapters] which is: its sequence is never
    restarted, where [COALESCE(max(id) + 1, 1)] is 13. *)
Theorem sequence_resync_misses_galleries :
  let w := sample_world galleries_source no_failure in
  fst galleries_run = Ok tt /\
  In "galleries" tables /\
  ~ In "galleries" sequence_tables /\
  In "galleries_chapters" sequence_tables /\
  map row_id (table_rows (destination w (snd galleries_run)) "galleries")
    = [Some 3; Some 7; Some 12]%Z /\
  restart_value (table_rows (destination w (snd galleries_run)) "galleries")
    = 13%Z /\
  next_id (destination w (snd galleries_run)) "galleries" = None.
Proof.
  intros w. unfold w.
  split; [vm_compute; reflexivity |].
  split; [rewrite <- list_elem_of_In; apply (bool_decide_unpack _);
          vm_compute; exact I |].
  split; [rewrite <- list_elem_of_In; apply (bool_decide_unpack _);
          vm_compute; exact I |].
  split; [rewrite <- list_elem_of_In; apply (bool_decide_unpack _);
          vm_compute; exact I |].
  split; [vm_compute; reflexivity |]. split; vm_compute; reflexivity.
Qed.

(** A normal run of [main.go] fetches and writes nothing of a table that
    is not in its list. *)
Lemma unlisted_table_not_migrated (w : world) (connector dbpath : string)
    (st' : state) (table : string) :
  MainGo.migrate w connector dbpath init = (Ok tt, st') ->
  ~ In table tables ->
  batches_read st' table = [] /\ table_rows (destination w st') table = [].
Proof.
  intros H Ht. apply main_destination in H as (ins & Hrows & _ & _ & Hout & _).
  destruct (Hout table Ht) as [Hread Hins]. split; [exact Hread |].
  rewrite Hrows, Hins. reflexivity.
Qed.

(** * The per-batch driver *)

(** ** Commits in order *)

Lemma commits_prefix_bind {A B} e1 e2 (m : M A) (k : A -> M B) :
  commits_prefix e1 m -> (forall a, commits_prefix e2 (k a)) ->
  commits_prefix (e1 ++ e2) (bind m k).
Proof.
  intros Hm Hk st res st' H.
  apply bind_inv in H as [(a & st1 & H1 & H2) | (r0 & H1 & Hr0 & ->)].
  - apply Hm in H1 as (_ & rest1 & E1 & Hok1).
    rewrite (Hok1 eq_refl), app_nil_r in E1.
    apply Hk in H2 as (Hoof & rest2 & E2 & Hok2).
    split; [exact Hoof |]. exists rest2. split; [| exact Hok2].
    rewrite app_assoc, E1. exact E2.
  - apply Hm in H1 as (Hoof & rest1 & E1 & _).
    split; [apply failure_OutOfFuel; assumption |].
    exists (rest1 ++ e2). split.
    + rewrite !app_assoc, E1. reflexivity.
    + rewrite failure_not_Ok. discriminate.
Qed.

Lemma commits_prefix_none {A} (m : M A) :
  commits_at_most 0 m -> commits_prefix [] m.
Proof.
  intros Hm st res st' H. apply Hm in H as (Hoof & txs & E & Hlen).
  destruct txs; [| simpl in Hlen; lia]. rewrite app_nil_r in E.
  split; [exact Hoof |]. exists []. rewrite E. auto.
Qed.

Lemma commits_prefix_for_range {A} (e : A -> list (list stmt)) (xs : list A)
    (body : A -> M unit) :
  (forall x, commits_prefix (e x) (body x)) ->
  commits_prefix (flat_map e xs) (for_range xs body).
Proof.
  intros Hb. induction xs as [| x xs IH]; simpl.
  - apply commits_prefix_none, commits_none_of_extends.
    intros st res st' H. apply ret_inv in H as [-> ->].
    split; [discriminate | reflexivity].
  - apply commits_prefix_bind; auto.
Qed.

Section PerBatchDriver.
Variable w : world.

Lemma per_batch_fetch_inv P table offset st res st' :
  PerBatch.fetch w P table offset st = (res, st') ->
  committed st' = committed st /\ res <> OutOfFuel /\
  (forall b, res = Ok b -> b = take P (drop offset (source w table))).
Proof.
  unfold PerBatch.fetch. intros H.
  apply bind_inv in H as [([] & st0 & H0 & H) | (r0 & H0 & Hr0 & ->)];
    apply extcall_inv in H0 as [-> R0].
  2:{ split; [reflexivity |]. split.
      - destruct R0 as [-> | ->]; discriminate.
      - intros b Hb. destruct (failure_Ok _ _ Hb). }
  change (MainGo.fetch w P table offset (record_call SourceBeginTxx st) = (res, st'))
    in H.
  apply fetch_inv in H as (rd & E & Hoof & Hb).
  split; [apply E |]. split; [exact Hoof |].
  intros b Hres. apply (Hb b Hres).
Qed.

(** The insert step commits its batch, alone, or nothing at all. *)
Lemma per_batch_insert_inv table b st res st' :
  PerBatch.insert w table b st = (res, st') ->
  res <> OutOfFuel /\
  (if is_Ok res
   then committed st' = committed st ++ [[Insert table (PerBatch.repair table b)]]
   else committed st' = committed st).
Proof.
  unfold PerBatch.insert. intros H.
  apply bind_inv in H as [([] & st1 & H1 & H) | (r0 & H1 & Hr0 & ->)];
    apply dest_BeginTxx_inv in H1 as (C1 & _ & _ & _ & _ & T1 & R1).
  2:{ destruct R1 as [-> | ->]; [discriminate |]. simpl.
      split; [discriminate | exact C1]. }
  specialize (T1 eq_refl).
  apply bind_inv in H as [([] & st2 & H2 & H) | (r0 & H2 & Hr0 & ->)];
    apply extcall_inv in H2 as [-> R2].
  2:{ destruct R2 as [-> | ->]; [discriminate |]. simpl.
      split; [discriminate | exact C1]. }
  apply bind_inv in H as [([] & st3 & H3 & H) | (r0 & H3 & Hr0 & ->)];
    apply dest_ExecContext_inv in H3 as (C3 & _ & _ & _ & _ & T3 & R3).
  2:{ destruct R3 as [-> | ->]; [discriminate |]. simpl.
      split; [discriminate |]. rewrite C3. exact C1. }
  specialize (T3 eq_refl). simpl in C3, T3. rewrite T1 in T3.
  pose proof (bounded_dest_Commit w "commit" st3) as Hoof. rewrite H in Hoof.
  split; [exact Hoof |].
  apply dest_Commit_inv in H as (_ & _ & _ & Hok & Hfail).
  destruct res as [[] | e | e |]; simpl.
  - destruct (Hok eq_refl) as [-> _]. rewrite C3, C1, T3. reflexivity.
  - destruct Hfail as [-> _]; [discriminate |]. rewrite C3. exact C1.
  - destruct Hfail as [-> _]; [discriminate |]. rewrite C3. exact C1.
  - destruct Hfail as [-> _]; [discriminate |]. rewrite C3. exact C1.
Qed.

Lemma commits_per_batch_insert table b :
  commits_prefix [[Insert table (PerBatch.repair table b)]]
    (PerBatch.insert w table b).
Proof.
  intros st res st' H. apply per_batch_insert_inv in H as [Hoof Hc].
  split; [exact Hoof |]. destruct (is_Ok res).
  - exists []. rewrite Hc, app_nil_r. auto.
  - exists [[Insert table (PerBatch.repair table b)]]. rewrite Hc.
    split; [reflexivity | discriminate].
Qed.

Lemma commits_per_batch_table_loop P table fuel offset :
  length (source w table) - offset < fuel ->
  commits_prefix
    (map (fun b => [Insert table (PerBatch.repair table b)])
         (pages P (drop offset (source w table))))
    (PerBatch.table_loop w fuel P table offset).
Proof.
  revert offset. induction fuel as [| fuel IH]; intros offset Hfuel; [lia |].
  intros st res st' H. cbn [PerBatch.table_loop] in H.
  apply bind_inv in H as [(b & st1 & H1 & H) | (r0 & H1 & Hr0 & ->)];
    apply per_batch_fetch_inv in H1 as (C1 & Hoof1 & Hb).
  2:{ split; [apply failure_OutOfFuel; assumption |].
      eexists. rewrite C1. split; [reflexivity |].
      rewrite failure_not_Ok. discriminate. }
  pose proof (Hb b eq_refl) as Hpage.
  destruct b as [| r b'].
  - apply ret_inv in H as [-> ->]. split; [discriminate |].
    rewrite (pages_nil P _ (eq_sym Hpage)). exists []. rewrite C1. auto.
  - assert (take P (drop offset (source w table)) <> []) as Hne
        by (rewrite <- Hpage; discriminate).
    rewrite (pages_cons P _ Hne), drop_drop, <- Hpage. rewrite <- C1.
    change (map ?f (?x :: ?l)) with ([f x] ++ map f l).
    revert H. apply (commits_prefix_bind _ _ _ _ (commits_per_batch_insert _ _)).
    intros _. apply IH.
    apply (f_equal length) in Hpage.
    rewrite length_take, length_drop in Hpage. simpl in Hpage. lia.
Qed.

Lemma commits_per_batch_migrate_table P table :
  commits_prefix
    (map (fun b => [Insert table (PerBatch.repair table b)])
         (pages P (source w table)))
    (PerBatch.migrate_table w P table).
Proof.
  unfold PerBatch.migrate_table.
  apply (commits_prefix_bind [] _).
  - apply commits_prefix_none, commits_none_of_extends.
    intros st res st' H. apply Printf_extends in H as [-> E].
    split; [discriminate | apply E].
  - intros _. apply (commits_per_batch_table_loop P table _ 0). lia.
Qed.

Lemma commits_restart_sequence table_name :
  commits_prefix [[RestartSeq table_name]] (PerBatch.restart_sequence w table_name).
Proof.
  intros st res st' H. unfold PerBatch.restart_sequence in H.
  apply bind_inv in H as [([] & st1 & H1 & H) | (r0 & H1 & Hr0 & ->)];
    apply dest_BeginTxx_inv in H1 as (C1 & _ & _ & _ & _ & T1 & R1).
  2:{ destruct R1 as [-> | ->]; [discriminate |]. simpl.
      split; [discriminate |]. eexists. rewrite C1.
      split; [reflexivity | discriminate]. }
  specialize (T1 eq_refl).
  apply bind_inv in H as [([] & st3 & H3 & H) | (r0 & H3 & Hr0 & ->)];
    apply dest_QueryxContext_inv in H3 as (C3 & _ & _ & _ & _ & T3 & R3).
  2:{ destruct R3 as [-> | ->]; [discriminate |]. simpl.
      split; [discriminate |]. eexists. rewrite C3, C1.
      split; [reflexivity | discriminate]. }
  specialize (T3 eq_refl). rewrite T1 in T3.
  pose proof (bounded_dest_Commit w "commit" st3) as Hoof. rewrite H in Hoof.
  split; [exact Hoof |].
  apply dest_Commit_inv in H as (_ & _ & _ & Hok & Hfail).
  destruct res as [[] | e | e |]; simpl.
  - destruct (Hok eq_refl) as [-> _]. exists [].
    rewrite C3, C1, T3, app_nil_r. auto.
  - destruct Hfail as [-> _]; [discriminate |]. eexists. rewrite C3, C1.
    split; [reflexivity | discriminate].
  - destruct Hfail as [-> _]; [discriminate |]. eexists. rewrite C3, C1.
    split; [reflexivity | discriminate].
  - destruct Hfail as [-> _]; [discriminate |]. eexists. rewrite C3, C1.
    split; [reflexivity | discriminate].
Qed.

Lemma commits_per_batch_migrate connector dbpath :
  commits_prefix (expected_commits w) (PerBatch.migrate w connector dbpath).
Proof.
  unfold PerBatch.migrate, expected_commits.
  apply (commits_prefix_bind [] _);
    [apply commits_prefix_none, commits_wrap, commits_open_sqlite |]. intros _.
  apply (commits_prefix_bind [] _);
    [apply commits_prefix_none, commits_wrap, commits_open_pgsql |]. intros _.
  apply commits_prefix_bind.
  { apply commits_prefix_for_range. intros t.
    apply commits_per_batch_migrate_table. }
  intros _.
  apply (commits_prefix_bind [] _);
    [apply commits_prefix_none, commits_extcall |]. intros _.
  apply (commits_prefix_bind [] _).
  { apply commits_prefix_none, commits_none_of_extends.
    intros st res st' H. apply Printf_extends in H as [-> E].
    split; [discriminate | apply E]. }
  intros _.
  apply (commits_prefix_bind
           (flat_map (fun t => [[RestartSeq t]]) sequence_tables) []).
  { apply commits_prefix_for_range. intros t. apply commits_restart_sequence. }
  intros _. apply commits_prefix_none, commits_extcall.
Qed.

End PerBatchDriver.

Section PerBatchPages.
Variable w : world.

Lemma per_batch_fetch_reads P table offset st b st' :
  PerBatch.fetch w P table offset st = (Ok b, st') ->
  reads st' = reads st ++ [(table, b)].
Proof.
  unfold PerBatch.fetch. intros H.
  apply bind_Ok in H as ([] & st0 & H0 & H). apply extcall_inv in H0 as [-> _].
  change (MainGo.fetch w P table offset (record_call SourceBeginTxx st) = (Ok b, st'))
    in H.
  apply fetch_inv in H as (rd & E & _ & Hb).
  destruct (Hb b eq_refl) as [_ ->]. apply E.
Qed.

Lemma per_batch_insert_reads table b st res st' :
  PerBatch.insert w table b st = (res, st') -> reads st' = reads st.
Proof.
  unfold PerBatch.insert. intros H.
  apply bind_inv in H as [([] & st1 & H1 & H) | (r0 & H1 & Hr0 & ->)];
    apply dest_BeginTxx_inv in H1 as (_ & _ & _ & R1 & _); [| exact R1].
  apply bind_inv in H as [([] & st2 & H2 & H) | (r0 & H2 & Hr0 & ->)];
    apply extcall_inv in H2 as [-> _]; [| exact R1].
  apply bind_inv in H as [([] & st3 & H3 & H) | (r0 & H3 & Hr0 & ->)];
    apply dest_ExecContext_inv in H3 as (_ & _ & _ & R3 & _);
    [| rewrite R3; exact R1].
  apply dest_Commit_inv in H as (_ & _ & R4 & _).
  rewrite R4, R3. exact R1.
Qed.

Lemma per_batch_table_loop_reads P table fuel offset st st' :
  PerBatch.table_loop w fuel P table offset st = (Ok tt, st') ->
  reads st' =
  reads st ++ map (pair table) (pages P (drop offset (source w table)) ++ [[]]).
Proof.
  revert offset st. induction fuel as [| fuel IH]; intros offset st H;
    [discriminate |].
  cbn [PerBatch.table_loop] in H.
  apply bind_Ok in H as (b & st1 & H1 & H).
  pose proof (per_batch_fetch_reads _ _ _ _ _ _ H1) as R1.
  apply per_batch_fetch_inv in H1 as (_ & _ & Hb).
  pose proof (Hb b eq_refl) as Hpage.
  destruct b as [| r b'].
  - apply ret_inv in H as [_ ->].
    rewrite (pages_nil P _ (eq_sym Hpage)). exact R1.
  - assert (take P (drop offset (source w table)) <> []) as Hne
        by (rewrite <- Hpage; discriminate).
    rewrite (pages_cons P _ Hne), drop_drop, <- Hpage.
    apply bind_Ok in H as ([] & st2 & H2 & H).
    apply per_batch_insert_reads in H2. apply IH in H.
    rewrite H, H2, R1, <- app_assoc. reflexivity.
Qed.

Lemma faultless_dest_BeginTxx table msg : faultless w table (dest_BeginTxx w msg).
Proof.
  apply faultless_bind; [apply faultless_extcall |]. intros _ st. exact I.
Qed.

Lemma faultless_dest_Commit table msg : faultless w table (dest_Commit w msg).
Proof.
  apply faultless_bind; [apply faultless_extcall |]. intros _ st. exact I.
Qed.

Lemma faultless_per_batch_fetch table P t offset :
  faultless w table (PerBatch.fetch w P t offset).
Proof.
  unfold PerBatch.fetch.
  apply faultless_bind; [apply faultless_extcall |]. intros _.
  apply (faultless_fetch w table P t offset).
Qed.

Lemma faultless_per_batch_insert table t b :
  faultless w table (PerBatch.insert w t b).
Proof.
  unfold PerBatch.insert.
  apply faultless_bind; [apply faultless_dest_BeginTxx |]. intros _.
  apply faultless_bind; [apply faultless_extcall |]. intros _.
  apply faultless_bind; [apply faultless_dest_ExecContext |]. intros _.
  apply faultless_dest_Commit.
Qed.

(** Without a failing external call the per-batch loop ends normally. *)
Lemma per_batch_table_loop_Ok P table fuel offset st :
  (forall n c, fails w n c = false) ->
  length (source w table) - offset < fuel ->
  exists st', PerBatch.table_loop w fuel P table offset st = (Ok tt, st').
Proof.
  intros Hw. revert offset st.
  induction fuel as [| fuel IH]; intros offset st Hfuel; [lia |].
  cbn [PerBatch.table_loop]. unfold bind at 1.
  pose proof (faultless_per_batch_fetch "" P table offset st) as Hf.
  destruct (PerBatch.fetch w P table offset st) as [r1 st1] eqn:H1.
  destruct (blameless_Ok w "" r1 Hf Hw ltac:(discriminate)) as (b & ->).
  apply per_batch_fetch_inv in H1 as (_ & _ & Hb).
  pose proof (Hb b eq_refl) as Hpage.
  destruct b as [| r b']; [eexists; reflexivity |].
  unfold bind.
  pose proof (faultless_per_batch_insert "" table (r :: b') st1) as Hi.
  destruct (PerBatch.insert w table (r :: b') st1) as [r2 st2].
  destruct (blameless_Ok w "" r2 Hi Hw ltac:(discriminate)) as ([] & ->).
  apply IH. apply (f_equal length) in Hpage.
  rewrite length_take, length_drop in Hpage. simpl in Hpage. lia.
Qed.

Lemma per_batch_repair_agree table (b : batch) :
  Forall2 (agree_except ["interactive_speed"]) b (PerBatch.repair table b).
Proof.
  unfold PerBatch.repair. destruct (decide _).
  - apply Forall2_map_right. intros r. apply hotfix_agree.
  - apply Forall2_refl_on. intros r. apply agree_except_refl.
Qed.

(** The loop of one table in the per-batch driver, with page size [P]. *)
Lemma per_batch_pagination (P : nat) (table : string) (st : state) :
  (forall st',
     PerBatch.migrate_table w P table st = (Ok tt, st') ->
     reads st' = reads st ++ map (pair table) (pages P (source w table) ++ [[]]) /\
     committed st' =
       committed st ++
       map (fun b => [Insert table (PerBatch.repair table b)])
           (pages P (source w table))) /\
  ((forall n c, fails w n c = false) ->
   exists st', PerBatch.migrate_table w P table st = (Ok tt, st')).
Proof.
  split.
  - intros st' H.
    pose proof (commits_per_batch_migrate_table w P table _ _ _ H)
      as (_ & rest & Hc & Hrest).
    rewrite (Hrest eq_refl), app_nil_r in Hc.
    unfold PerBatch.migrate_table in H.
    apply bind_Ok in H as ([] & st1 & H1 & H). inversion H1; subst.
    apply per_batch_table_loop_reads in H. auto.
  - intros Hw. unfold PerBatch.migrate_table, bind, Printf.
    apply per_batch_table_loop_Ok; [exact Hw | lia].
Qed.

End PerBatchPages.

(** * Pagination and transactions *)

(** C2.  The loop of one table with page size [P], in either driver.  The
    pages of a table of [N] rows are [ceil (N / P)] batches, none empty, and
    put end to end they are the table in its order.  When the loop ends
    normally it has fetched these pages in order, then one empty batch and
    nothing more, and it has written each page by one insert, in the order
    of the fetches, its kept rows in their order.  With no failing external
    call the loop does end normally. *)
Theorem pagination_complete (w : world) (P : nat) (table : string) (st : state) :
  0 < P ->
  (length (pages P (source w table)) = ceil_div (length (source w table)) P /\
   Forall (fun b => b <> [] /\ length b <= P) (pages P (source w table)) /\
   concat (pages P (source w table)) = source w table) /\
  (forall st',
     MainGo.migrate_table w P table st = (Ok tt, st') ->
     exists wbs,
       reads st' = reads st ++ map (pair table) (pages P (source w table) ++ [[]]) /\
       txn st' = txn st ++ map (Insert table) wbs /\
       Forall2 (written_from w table) (pages P (source w table)) wbs) /\
  (forall st',
     PerBatch.migrate_table w P table st = (Ok tt, st') ->
     exists wbs,
       reads st' = reads st ++ map (pair table) (pages P (source w table) ++ [[]]) /\
       committed st' = committed st ++ map (fun wb => [Insert table wb]) wbs /\
       Forall2 (Forall2 (agree_except ["interactive_speed"]))
         (pages P (source w table)) wbs) /\
  ((forall n c, fails w n c = false) ->
   (table <> "performer_custom_fields" ->
    exists st', MainGo.migrate_table w P table st = (Ok tt, st')) /\
   exists st', PerBatch.migrate_table w P table st = (Ok tt, st')).
Proof.
  intros HP.
  destruct (main_go_pagination w P table st HP) as [Hmain Hmain_total].
  destruct (per_batch_pagination w P table st) as [Hper Hper_total].
  split; [| split; [| split]].
  - split; [apply length_pages |]. split; [apply pages_nonempty |].
    apply concat_pages, HP.
  - exact Hmain.
  - intros st' H. destruct (Hper st' H) as [Hreads Hcommitted].
    exists (map (PerBatch.repair table) (pages P (source w table))).
    split; [exact Hreads |]. split.
    + rewrite Hcommitted, map_map. reflexivity.
    + apply Forall2_map_right. intros b. apply per_batch_repair_agree.
  - intros Hw. split; [| apply Hper_total, Hw].
    intros Ht. apply Hmain_total; assumption.
Qed.

Lemma pagination_complete_witness :
  0 < 2 /\
  exists st',
    sample_pages = (Ok tt, st') /\
    map (map row_id) (batches_read st' "folders")
      = [[Some 3; Some 7]; [Some 12; Some 5]; [Some 1]; []]%Z.
Proof.
  split; [lia |].
  destruct (pagination_complete (sample_world sample_source no_failure) 2
              "folders" init ltac:(lia)) as (_ & Hmain & _ & Htotal).
  destruct (Htotal (fun n c => eq_refl)) as [Hrun _].
  destruct Hrun as (st' & Hrun); [discriminate |].
  exists st'. split; [exact Hrun |].
  destruct (Hmain st' Hrun) as (wbs & Hreads & _).
  unfold batches_read. rewrite Hreads. vm_compute. reflexivity.
Defined.

(** A failure ends the sequence it occurs in: what follows is not run. *)
Lemma bind_aborts {A B} (m : M A) (k : A -> M B) st res st1 :
  m st = (res, st1) -> is_Ok res = false ->
  bind m k st = (failure B res, st1).
Proof.
  intros H Hres. unfold bind. rewrite H.
  destruct res; [discriminate | reflexivity ..].
Qed.

Lemma in_batches_written t (b : batch) (l : list stmt) :
  In b (batches_written t l) -> In (Insert t b) l.
Proof.
  induction l as [| s l IH]; [intros [] |].
  rewrite batches_written_cons. intros Hin.
  apply in_app_or in Hin as [Hin | Hin]; [| right; apply IH, Hin].
  destruct s as [t' b' | t']; [| destruct Hin].
  destruct (decide (t' = t)) as [-> |]; [| destruct Hin].
  destruct Hin as [-> | []]. left. reflexivity.
Qed.

Lemma per_batch_repair_filled t (b : batch) :
  b <> [] -> PerBatch.repair t b <> [].
Proof.
  unfold PerBatch.repair. destruct (decide _); [| auto].
  destruct b; [congruence | discriminate].
Qed.

(** The per-batch driver builds no statement from a batch without rows: the
    transactions it commits hold inserts of the pages of a table. *)
Lemma committed_filled w (l rest : list (list stmt)) t :
  expected_commits w = l ++ rest ->
  Forall (fun b => b <> []) (batches_written t (concat l)).
Proof.
  intros E. apply List.Forall_forall. intros b Hb.
  apply in_batches_written in Hb.
  assert (In (Insert t b) (concat (expected_commits w))) as Hin.
  { rewrite E, concat_app. apply in_or_app. left. exact Hb. }
  apply in_concat in Hin as (tx & Htx & Hs).
  unfold expected_commits in Htx. apply in_app_or in Htx as [Htx | Htx].
  - apply in_flat_map in Htx as (t' & _ & Htx).
    apply in_map_iff in Htx as (page & <- & Hpage).
    destruct Hs as [Hs | []]. inversion Hs; subst.
    apply per_batch_repair_filled.
    pose proof (pages_nonempty 1000 (source w t)) as Hne.
    rewrite List.Forall_forall in Hne. apply (Hne page Hpage).
  - apply in_map_iff in Htx as (t' & <- & _).
    destruct Hs as [Hs | []]. discriminate.
Qed.

(** C3.  In the per-batch driver the insert step of a batch commits one
    transaction holding the insert of that batch and nothing else, or, when
    building the statement, executing it or committing fails, commits
    nothing; a fetch commits nothing.  A failed fetch or insert step ends
    the loop of its table with that failure, and a failed table ends the
    loop over the tables.  So after a run, whatever its outcome, the
    committed transactions are the first ones of the sequence a complete run
    commits (one per batch, then one per sequence), all of them when the run
    ends normally, and the destination holds the rows of the committed
    inserts and no others. *)
Theorem commit_per_batch (w : world) :
  (forall table b st res st',
     PerBatch.insert w table b st = (res, st') ->
     if is_Ok res
     then committed st' = committed st ++ [[Insert table (PerBatch.repair table b)]]
     else committed st' = committed st) /\
  (forall P table offset st res st',
     PerBatch.fetch w P table offset st = (res, st') ->
     committed st' = committed st) /\
  (forall fuel P table offset st res st1,
     PerBatch.fetch w P table offset st = (res, st1) -> is_Ok res = false ->
     PerBatch.table_loop w (S fuel) P table offset st = (failure unit res, st1)) /\
  (forall fuel P table offset st r b st1 res st2,
     PerBatch.fetch w P table offset st = (Ok (r :: b), st1) ->
     PerBatch.insert w table (r :: b) st1 = (res, st2) -> is_Ok res = false ->
     PerBatch.table_loop w (S fuel) P table offset st = (failure unit res, st2)) /\
  (forall P table ts st res st1,
     PerBatch.migrate_table w P table st = (res, st1) -> is_Ok res = false ->
     for_range (table :: ts) (PerBatch.migrate_table w P) st
       = (failure unit res, st1)) /\
  (forall connector dbpath res st',
     PerBatch.migrate w connector dbpath init = (res, st') ->
     res <> OutOfFuel /\
     (exists rest,
        expected_commits w = committed st' ++ rest /\
        (res = Ok tt -> rest = [])) /\
     Forall (fun tx => length tx = 1) (committed st') /\
     (forall t,
        table_rows (destination w st') t =
        concat (batches_written t (concat (committed st'))))).
Proof.
  split; [| split; [| split; [| split; [| split]]]].
  - intros table b st res st' H. apply (per_batch_insert_inv w _ _ _ _ _ H).
  - intros P table offset st res st' H. apply (per_batch_fetch_inv w _ _ _ _ _ _ H).
  - intros fuel P table offset st res st1 H Hres.
    cbn [PerBatch.table_loop]. apply bind_aborts; assumption.
  - intros fuel P table offset st r b st1 res st2 Hfetch Hinsert Hres.
    cbn [PerBatch.table_loop]. unfold bind at 1. rewrite Hfetch.
    apply bind_aborts; assumption.
  - intros P table ts st res st1 H Hres.
    cbn [for_range]. apply bind_aborts; assumption.
  - intros connector dbpath res st' H.
    apply commits_per_batch_migrate in H as (Hoof & rest & Hc & Hrest).
    simpl in Hc. split; [exact Hoof |]. split; [| split].
    + exists rest. split; [exact Hc |]. intros ->. apply Hrest. reflexivity.
    + assert (Forall (fun tx : list stmt => length tx = 1) (expected_commits w))
        as Hone.
      { unfold expected_commits. apply Forall_app. split.
        - apply List.Forall_forall. intros tx Htx.
          apply in_flat_map in Htx as (t & _ & Htx).
          apply in_map_iff in Htx as (b & <- & _). reflexivity.
        - apply List.Forall_forall. intros tx Htx.
          apply in_map_iff in Htx as (t & <- & _). reflexivity. }
      rewrite Hc in Hone. apply Forall_app in Hone as [Hone _]. exact Hone.
    + intros t. unfold destination.
      rewrite table_rows_exec_stmts by (apply (committed_filled w _ rest), Hc).
      reflexivity.
Qed.

Lemma commit_per_batch_witness :
  fst failed_run = Err "exec" /\
  (exists rest,
     expected_commits (sample_world sample_source (rejects "saved_filters"))
     = committed (snd failed_run) ++ rest) /\
  committed (snd failed_run) = [[Insert "folders" (sample_source "folders")]] /\
  table_rows (destination (sample_world sample_source (rejects "saved_filters"))
                (snd failed_run)) "saved_filters" = [].
Proof.
  split; [vm_compute; reflexivity |]. split.
  - destruct (commit_per_batch
                (sample_world sample_source (rejects "saved_filters")))
      as (_ & _ & _ & _ & _ & Hrun).
    destruct (Hrun "postgres://stash@localhost/stash" "stash-go.sqlite"
                (fst failed_run) (snd failed_run)) as (_ & (rest & Hrest & _) & _).
    + apply surjective_pairing.
    + exists rest. exact Hrest.
  - split; vm_compute; reflexivity.
Defined.

(** The same rejected insert under [main.go]: its single transaction is
    never committed, and the folders inserted before are not kept. *)
Lemma main_go_failed_run_commits_nothing :
  MainGo.migrate (sample_world sample_source (rejects "saved_filters"))
    "postgres://stash@localhost/stash" "stash-go.sqlite" init
  = (Err "exec",
     snd (MainGo.migrate (sample_world sample_source (rejects "saved_filters"))
            "postgres://stash@localhost/stash" "stash-go.sqlite" init)) /\
  committed
    (snd (MainGo.migrate (sample_world sample_source (rejects "saved_filters"))
            "postgres://stash@localhost/stash" "stash-go.sqlite" init)) = [].
Proof. split; vm_compute; reflexivity. Qed.

(** A row whose [object_filter] is nil and whose other designated columns
    parse is kept, whatever replaces the nil. *)
Lemma json_filter_skips_non_strings_witness :
  In "object_filter" json_columns /\
  MainGo.check_json (sample_world sample_source no_failure)
    (<["object_filter" := VBytes []]>
       (<["object_filter" := VNil]> (<["ui_options" := VString "[1,2]"]> (with_id 4))))
    json_columns init
  = MainGo.check_json (sample_world sample_source no_failure)
      (<["object_filter" := VNil]> (<["ui_options" := VString "[1,2]"]> (with_id 4)))
      json_columns init.
Proof.
  split; [unfold json_columns; simpl; auto |].
  apply (json_filter_skips_non_strings (sample_world sample_source no_failure)
           (<["object_filter" := VNil]> (<["ui_options" := VString "[1,2]"]> (with_id 4)))
           "object_filter" (VBytes []) init).
  - unfold json_columns. simpl. auto.
  - intros s. vm_compute. discriminate.
  - intros s. discriminate.
Defined.

(** * Further properties of the rules *)

(** ** The numeric clamp on a row *)

Lemma hotfix_idempotent r :
  hotfix_interactive_speed (hotfix_interactive_speed r) = hotfix_interactive_speed r.
Proof.
  unfold hotfix_interactive_speed.
  destruct (r !! "interactive_speed") as [v |] eqn:E.
  - destruct v; rewrite ?E; try reflexivity.
    rewrite lookup_insert_eq. reflexivity.
  - rewrite E. reflexivity.
Qed.

Lemma clamp_bounds v :
  (MinInt32 <= clampInt64ToInt32 v <= MaxInt32)%Z.
Proof.
  destruct (Z_lt_le_dec MaxInt32 v) as [Hhi | Hhi].
  - rewrite clamp_above by lia. unfold MinInt32, MaxInt32. lia.
  - destruct (Z_lt_le_dec v MinInt32) as [Hlo | Hlo].
    + rewrite clamp_below by lia. unfold MinInt32, MaxInt32. lia.
    + rewrite clamp_in_range by lia. lia.
Qed.

(** X1.  The hotfix of [video_files], the same in both drivers, rewrites a
    batch row by row and touches nothing but an [interactive_speed] that
    holds an [int64]: that value becomes the clamped [int32], which lies in
    the range of the destination column; a row whose [interactive_speed] is
    absent, null or of another type is written as it was read; no other
    column changes; and the rule is idempotent.  No other table of the
    per-batch driver is rewritten. *)
Theorem video_files_hotfix (w : world) (b : batch) (st : state) :
  MainGo.repair w "video_files" b st
    = (Ok (map hotfix_interactive_speed b), st) /\
  PerBatch.repair "video_files" b = map hotfix_interactive_speed b /\
  (forall table, table <> "video_files" -> PerBatch.repair table b = b) /\
  length (map hotfix_interactive_speed b) = length b /\
  forall r,
    (forall v, r !! "interactive_speed" = Some (VInt64 v) ->
       hotfix_interactive_speed r
         = <["interactive_speed" := VInt32 (clampInt64ToInt32 v)]> r /\
       (MinInt32 <= clampInt64ToInt32 v <= MaxInt32)%Z /\
       ((MinInt32 <= v <= MaxInt32)%Z -> clampInt64ToInt32 v = v)) /\
    ((forall v, r !! "interactive_speed" <> Some (VInt64 v)) ->
       hotfix_interactive_speed r = r) /\
    (forall k, k <> "interactive_speed" ->
       hotfix_interactive_speed r !! k = r !! k) /\
    hotfix_interactive_speed (hotfix_interactive_speed r)
      = hotfix_interactive_speed r.
Proof.
  split; [| split; [| split; [| split]]].
  - unfold MainGo.repair. names. reflexivity.
  - unfold PerBatch.repair. names; reflexivity.
  - intros table Hne. unfold PerBatch.repair. names; reflexivity.
  - apply length_map.
  - intros r. split; [| split; [| split]].
    + intros v Hv. unfold hotfix_interactive_speed. rewrite Hv.
      split; [reflexivity |]. split; [apply clamp_bounds | apply clamp_in_range].
    + intros Hno. unfold hotfix_interactive_speed.
      destruct (r !! "interactive_speed") as [v |] eqn:E; [| reflexivity].
      destruct v; try reflexivity. destruct (Hno n eq_refl).
    + intros k Hk. apply hotfix_agree. simpl. intuition.
    + apply hotfix_idempotent.
Qed.

(** ** The JSON rule stops at the first broken column *)

Section FirstBroken.
Variable w : world.

Lemma check_json_skip r obj rest st :
  column_ok w r obj = true ->
  MainGo.check_json w r (obj :: rest) st = MainGo.check_json w r rest st.
Proof.
  unfold column_ok. cbn [MainGo.check_json]. unfold index.
  destruct (r !! obj) as [v |]; [| reflexivity].
  destruct v; try reflexivity.
  destruct (json_Unmarshal w s); [discriminate | reflexivity].
Qed.

Lemma check_json_first_broken r pre obj post err s st :
  Forall (fun o => column_ok w r o = true) pre ->
  r !! obj = Some (VString s) -> json_Unmarshal w s = Some err ->
  MainGo.check_json w r (pre ++ obj :: post) st
    = (Ok false, set_logged (logged st ++ [SkippingRow obj err s]) st).
Proof.
  intros Hpre Hobj Herr. induction Hpre as [| o pre Ho Hpre IH].
  - cbn [app MainGo.check_json]. unfold index. rewrite Hobj, Herr. reflexivity.
  - rewrite <- app_comm_cons, check_json_skip by exact Ho. exact IH.
Qed.

End FirstBroken.

(** X2.  The JSON rule of [saved_filters] stops at the first designated
    column, in the order [find_filter], [object_filter], [ui_options], whose
    text does not parse: the single diagnostic of a dropped row names that
    column, its text and its error, and the columns after it are not looked
    at. *)
Theorem json_filter_reports_first_broken_column (w : world) (r : row)
    (pre post : list string) (obj err s : string) (st : state) :
  json_columns = pre ++ obj :: post ->
  Forall (fun o => column_ok w r o = true) pre ->
  r !! obj = Some (VString s) ->
  json_Unmarshal w s = Some err ->
  MainGo.check_json w r json_columns st
    = (Ok false, set_logged (logged st ++ [SkippingRow obj err s]) st) /\
  MainGo.repair w "saved_filters" [r] st
    = (Ok [], set_logged (logged st ++ [SkippingRow obj err s]) st).
Proof.
  intros Hcols Hpre Hobj Herr.
  assert (MainGo.check_json w r json_columns st
          = (Ok false, set_logged (logged st ++ [SkippingRow obj err s]) st)) as Hc.
  { rewrite Hcols. apply check_json_first_broken; assumption. }
  split; [exact Hc |].
  rewrite repair_saved_filters. cbn [MainGo.keep_valid]. unfold bind.
  rewrite Hc. reflexivity.
Qed.

Lemma json_filter_reports_first_broken_column_witness :
  MainGo.check_json (sample_world sample_source no_failure) twice_broken
    json_columns init
  = (Ok false,
     set_logged [SkippingRow "find_filter" "invalid character" "{bad"] init).
Proof.
  apply (json_filter_reports_first_broken_column
           (sample_world sample_source no_failure) twice_broken
           [] ["object_filter"; "ui_options"] "find_filter"
           "invalid character" "{bad" init).
  - reflexivity.
  - constructor.
  - vm_compute. reflexivity.
  - vm_compute. reflexivity.
Defined.

(** ** The timestamp rule on a batch *)

Section Timestamps.
Variable w : world.
Hypothesis clock_ok : sane_clock w.

(** One column of one row: the result is the row with the column set to a
    time the destination accepts, or the row itself when the column is
    absent. *)
Lemma normalize_column_post r k st :
  exists r' lg,
    MainGo.normalize_column w r k st = (Ok r', advance lg st) /\
    filter is_skip lg = [] /\ agree_except [k] r r' /\
    match r !! k with
    | None => r' = r
    | Some _ =>
        exists t, r' = <[k := VTime t]> r /\
                  MainGo.isValidPostgresTime w t = true
    end.
Proof.
  assert (In k [k]) as Hin by (left; reflexivity).
  assert (forall e, is_skip e = false ->
            exists r' lg,
              (log_Printf e ;; now <- Now_UTC w ;; ret (<[k := VTime now]> r)) st
                = (Ok r', advance lg st) /\
              filter is_skip lg = [] /\ agree_except [k] r r' /\
              exists t, r' = <[k := VTime t]> r /\
                        MainGo.isValidPostgresTime w t = true) as Hnow.
  { intros e He. exists (<[k := VTime (Time_UTC (time_Now w (clock st)))]> r), [e].
    split; [| split; [| split]].
    - rewrite <- advance_one. reflexivity.
    - apply filter_skip_one, He.
    - apply agree_except_insert, Hin.
    - eexists. split; [reflexivity | apply clock_ok]. }
  unfold MainGo.normalize_column.
  destruct (r !! k) as [v |] eqn:Hk.
  2:{ exists r, []. rewrite advance_nil.
      split; [reflexivity |]. split; [reflexivity |].
      split; [apply agree_except_refl | reflexivity]. }
  destruct v as [| | | | | s | | t];
    try (apply Hnow; reflexivity).
  - destruct (time_Parse_RFC3339 w s) as [t |]; [| apply Hnow; reflexivity].
    destruct (MainGo.isValidPostgresTime w t) eqn:Ht; simpl;
      [| apply Hnow; reflexivity].
    exists (<[k := VTime t]> r), []. rewrite advance_nil.
    split; [reflexivity |]. split; [reflexivity |].
    split; [apply agree_except_insert, Hin | eauto].
  - destruct (MainGo.isValidPostgresTime w t) eqn:Ht; simpl;
      [| apply Hnow; reflexivity].
    exists r, []. rewrite advance_nil.
    split; [reflexivity |]. split; [reflexivity |].
    split; [apply agree_except_refl |].
    exists t. split; [| exact Ht]. symmetry. apply insert_id, Hk.
Qed.

Lemma normalize_columns_post r st :
  exists r' lg,
    MainGo.normalize_columns w timestamp_columns r st = (Ok r', advance lg st) /\
    filter is_skip lg = [] /\ agree_except timestamp_columns r r' /\
    normalized w r r'.
Proof.
  destruct (normalize_column_post r "created_at" st)
    as (r1 & lg1 & H1 & F1 & A1 & P1).
  destruct (normalize_column_post r1 "updated_at" (advance lg1 st))
    as (r2 & lg2 & H2 & F2 & A2 & P2).
  exists r2, (lg1 ++ lg2).
  unfold timestamp_columns. cbn [MainGo.normalize_columns]. unfold bind.
  rewrite H1, H2, advance_app. split; [reflexivity |].
  split; [rewrite filter_app, F1, F2; reflexivity |].
  assert (r1 !! "updated_at" = r !! "updated_at") as Hu.
  { apply A1. simpl. intros [E | []]. discriminate. }
  assert (r2 !! "created_at" = r1 !! "created_at") as Hc.
  { apply A2. simpl. intros [E | []]. discriminate. }
  split.
  - intros k Hk. rewrite A2, A1; [reflexivity | |];
      simpl in *; intros [<- | []]; apply Hk; auto.
  - intros k [<- | [<- | []]].
    + rewrite Hc. destruct (r !! "created_at") eqn:E; [| rewrite P1; exact E].
      destruct P1 as (t & -> & Ht). exists t.
      rewrite lookup_insert_eq. auto.
    + rewrite <- Hu. destruct (r1 !! "updated_at") eqn:E; [| rewrite P2; exact E].
      destruct P2 as (t & -> & Ht). exists t.
      rewrite lookup_insert_eq. auto.
Qed.

Lemma normalize_rows_post b st :
  exists b' lg,
    for_rows (MainGo.normalize_columns w timestamp_columns) b st
      = (Ok b', advance lg st) /\
    filter is_skip lg = [] /\
    Forall2 (agree_except timestamp_columns) b b' /\
    Forall2 (normalized w) b b'.
Proof.
  revert st. induction b as [| r b IH]; intros st.
  - exists [], []. rewrite advance_nil. repeat split; constructor.
  - destruct (normalize_columns_post r st) as (r' & lg1 & H1 & F1 & A1 & N1).
    destruct (IH (advance lg1 st)) as (b' & lg2 & H2 & F2 & A2 & N2).
    exists (r' :: b'), (lg1 ++ lg2). cbn [for_rows]. unfold bind.
    rewrite H1, H2, advance_app. split; [reflexivity |].
    split; [rewrite filter_app, F1, F2; reflexivity |].
    split; constructor; assumption.
Qed.

End Timestamps.

Lemma repair_scene_markers w b st :
  MainGo.repair w "scene_markers" b st
    = for_rows (MainGo.normalize_columns w timestamp_columns) b st.
Proof. unfold MainGo.repair. names. reflexivity. Qed.

Lemma normalized_settled w r r' : normalized w r r' -> settled w r'.
Proof.
  intros H k Hk. specialize (H k Hk).
  destruct (r !! k); [right; exact H | left; exact H].
Qed.

Lemma normalized_all_settled w (b b' : batch) :
  Forall2 (normalized w) b b' -> Forall (settled w) b'.
Proof.
  induction 1 as [| r r' b b' Hr _ IH]; constructor.
  - apply (normalized_settled w r r' Hr).
  - exact IH.
Qed.

Lemma settled_column w r k st :
  In k timestamp_columns -> settled w r ->
  MainGo.normalize_column w r k st = (Ok r, st).
Proof.
  intros Hk Hs. unfold MainGo.normalize_column.
  destruct (Hs k Hk) as [-> | (t & -> & Ht)]; [reflexivity |].
  rewrite Ht. reflexivity.
Qed.

Lemma settled_row w r st :
  settled w r ->
  MainGo.normalize_columns w timestamp_columns r st = (Ok r, st).
Proof.
  intros Hs. unfold timestamp_columns. cbn [MainGo.normalize_columns].
  unfold bind.
  rewrite (settled_column w r "created_at") by (simpl; auto).
  rewrite (settled_column w r "updated_at") by (simpl; auto).
  reflexivity.
Qed.

Lemma for_rows_fixed (f : row -> M row) (b : batch) (st : state) :
  Forall (fun r => f r st = (Ok r, st)) b -> for_rows f b st = (Ok b, st).
Proof.
  induction 1 as [| r b Hr Hb IH]; [reflexivity |].
  cbn [for_rows]. unfold bind. rewrite Hr, IH. reflexivity.
Qed.

Lemma scene_rows_settled w (Hclock : sane_clock w) b st :
  exists b' st',
    MainGo.repair w "scene_markers" b st = (Ok b', st') /\
    Forall (settled w) b'.
Proof.
  destruct (normalize_rows_post w Hclock b st) as (b' & lg & H & _ & _ & N).
  exists b', (advance lg st). rewrite repair_scene_markers. split; [exact H |].
  apply (normalized_all_settled w _ _ N).
Qed.

(** X3.  Under a clock that never reads a year before 1, the timestamp rule
    of [scene_markers] never fails and leaves a batch in which every
    [created_at] and [updated_at] that was present holds a time the
    destination accepts, and every one that was absent is still absent;
    rows are neither dropped nor reordered, no other column changes, no
    row-skipping diagnostic is logged, and the clock is read exactly once
    per diagnostic. *)
Theorem scene_markers_rule_postcondition (w : world) (b : batch) (st : state) :
  sane_clock w ->
  exists b' lg,
    MainGo.repair w "scene_markers" b st = (Ok b', advance lg st) /\
    Forall2 (normalized w) b b' /\
    Forall2 (agree_except timestamp_columns) b b' /\
    Forall (settled w) b' /\
    filter is_skip lg = [].
Proof.
  intros Hclock.
  destruct (normalize_rows_post w Hclock b st) as (b' & lg & H & F & A & N).
  exists b', lg. rewrite repair_scene_markers. split; [exact H |].
  split; [exact N |]. split; [exact A |]. split; [| exact F].
  apply (normalized_all_settled w _ _ N).
Qed.

Lemma scene_markers_rule_postcondition_witness :
  exists b' lg,
    MainGo.repair (sample_world sample_source no_failure) "scene_markers"
      (sample_source "scene_markers") init = (Ok b', advance lg init) /\
    Forall2 (normalized (sample_world sample_source no_failure))
      (sample_source "scene_markers") b' /\
    Forall2 (agree_except timestamp_columns) (sample_source "scene_markers") b' /\
    Forall (settled (sample_world sample_source no_failure)) b' /\
    filter is_skip lg = [].
Proof.
  apply (scene_markers_rule_postcondition
           (sample_world sample_source no_failure)
           (sample_source "scene_markers") init).
  intros n. unfold MainGo.isValidPostgresTime. simpl.
  unfold sample_Year, Time_UTC, sample_Now. simpl.
  apply Z.geb_le.
  assert (0 <= (2025000 + Z.of_nat n + 0) / 1000)%Z by (apply Z.div_pos; lia).
  lia.
Defined.

(** ** Running a rule on its own output *)

Lemma repair_video_files w b st :
  MainGo.repair w "video_files" b st = (Ok (map hotfix_interactive_speed b), st).
Proof. unfold MainGo.repair. names. reflexivity. Qed.

Lemma repair_type_tag w b st res st' :
  MainGo.repair w "performer_custom_fields" b st = (res, st') ->
  for_rows MainGo.set_type b st = (res, st').
Proof.
  unfold MainGo.repair. names. unfold bind, ret.
  destruct (for_rows MainGo.set_type b st) as [[wb | e1 | e2 |] st1]; auto.
Qed.

Lemma for_rows_set_type b st wb st' :
  for_rows MainGo.set_type b st = (Ok wb, st') -> Forall2 tagged b wb.
Proof.
  revert st wb st'. induction b as [| r b IH]; intros st wb st' H.
  - apply ret_inv in H as [H _]. inversion H. constructor.
  - cbn [for_rows] in H.
    apply bind_Ok in H as (r' & st1 & H1 & H).
    apply bind_Ok in H as (b' & st2 & H2 & H).
    apply ret_inv in H as [H _]. inversion H; subst.
    apply set_type_inv in H1 as [_ [(_ & r'' & Hr & Ht) | (_ & msg & Hr)]];
      [| discriminate].
    inversion Hr; subst. constructor; [exact Ht |]. apply (IH _ _ _ H2).
Qed.

Lemma tagged_fixed r r' st :
  tagged r r' -> MainGo.set_type r' st = (Ok r', st).
Proof.
  intros (name & Hname & ->). unfold MainGo.set_type.
  assert (index (<["type" := VString name]> r) "value" = index r "value") as ->.
  { unfold index. rewrite lookup_insert_ne by discriminate. reflexivity. }
  rewrite Hname. unfold ret. rewrite insert_insert_eq. reflexivity.
Qed.

Lemma repair_other w table b st :
  table <> "video_files" -> table <> "performer_custom_fields" ->
  table <> "saved_filters" -> table <> "scene_markers" ->
  MainGo.repair w table b st = (Ok b, st).
Proof. intros N1 N2 N3 N4. unfold MainGo.repair. names. reflexivity. Qed.

Lemma filter_filter_same (P : row -> Prop) `{!forall r, Decision (P r)}
    (l : list row) :
  filter P (filter P l) = filter P l.
Proof.
  apply filter_all_true. apply List.Forall_forall. intros r Hr.
  apply list_elem_of_In, list_elem_of_filter in Hr as [Hr _]. exact Hr.
Qed.

(** X4.  Every rule of [main.go] is idempotent: run again on a batch it has
    already repaired, in whatever state, it returns the batch as it is,
    logs nothing and does not read the clock.  (For the timestamp rule this
    needs a clock that never reads a year before 1: otherwise the value it
    substitutes is itself out of range.) *)
Theorem repair_idempotent (w : world) (table : string) (b wb : batch)
    (st st' st2 : state) :
  sane_clock w ->
  MainGo.repair w table b st = (Ok wb, st') ->
  MainGo.repair w table wb st2 = (Ok wb, st2).
Proof.
  intros Hclock H.
  destruct (decide (table = "video_files")) as [-> | N1].
  { rewrite repair_video_files in H. inversion H; subst.
    rewrite repair_video_files, map_map. do 2 f_equal.
    apply map_ext. intros r. apply hotfix_idempotent. }
  destruct (decide (table = "performer_custom_fields")) as [-> | N2].
  { apply repair_type_tag, for_rows_set_type in H.
    destruct (MainGo.repair w "performer_custom_fields" wb st2) as [res s2] eqn:H2.
    apply repair_type_tag in H2. rewrite <- H2. apply for_rows_fixed.
    clear H2. induction H as [| r r' b wb Hr _ IH]; constructor; [| exact IH].
    apply (tagged_fixed r r' st2 Hr). }
  destruct (decide (table = "saved_filters")) as [-> | N3].
  { rewrite repair_saved_filters in H.
    destruct (keep_valid_spec w b [] st) as (lg & Hrun & _ & _).
    rewrite Hrun in H. inversion H; subst. clear H Hrun.
    rewrite repair_saved_filters.
    destruct (keep_valid_spec w (filter (fun r => json_ok w r = true) b) [] st2)
      as (lg2 & Hrun & Hdiag & _).
    rewrite Hrun. cbn [app]. rewrite filter_filter_same.
    assert (filter (fun r => json_ok w r = false)
              (filter (fun r => json_ok w r = true) b) = []) as Hnone.
    { apply filter_none. apply List.Forall_forall. intros r Hr.
      apply list_elem_of_In, list_elem_of_filter in Hr as [Hr _].
      rewrite Hr. discriminate. }
    rewrite Hnone in Hdiag. inversion Hdiag; subst.
    rewrite set_logged_same. reflexivity. }
  destruct (decide (table = "scene_markers")) as [-> | N4].
  { destruct (scene_rows_settled w Hclock b st) as (b' & st1 & Hrun & Hs).
    rewrite Hrun in H. inversion H; subst.
    rewrite repair_scene_markers. apply for_rows_fixed.
    eapply Forall_impl; [exact Hs |]. intros r Hr. apply settled_row, Hr. }
  rewrite repair_other in H by assumption. inversion H; subst.
  apply repair_other; assumption.
Qed.

Lemma repair_idempotent_witness :
  exists wb st',
    MainGo.repair (sample_world sample_source no_failure) "scene_markers"
      (sample_source "scene_markers") init = (Ok wb, st') /\
    MainGo.repair (sample_world sample_source no_failure) "scene_markers" wb st'
      = (Ok wb, st').
Proof.
  eexists. eexists. split; [vm_compute; reflexivity |].
  eapply (repair_idempotent (sample_world sample_source no_failure)
            "scene_markers" (sample_source "scene_markers") _ init).
  - intros n. unfold MainGo.isValidPostgresTime. simpl.
    unfold sample_Year, Time_UTC, sample_Now. simpl.
    apply Z.geb_le.
    assert (0 <= (2025000 + Z.of_nat n + 0) / 1000)%Z by (apply Z.div_pos; lia).
    lia.
  - vm_compute. reflexivity.
Defined.

(** * Further properties of the drivers *)

(** ** What [main.go] writes, rule by rule *)

Lemma commits_none_eq {A} (m : M A) :
  commits_at_most 0 m ->
  forall st res st', m st = (res, st') -> committed st' = committed st.
Proof.
  intros Hm st res st' H. apply Hm in H as (_ & txs & E & Hlen).
  destruct txs; [| simpl in Hlen; lia]. rewrite E. apply app_nil_r.
Qed.

(** The inversion of a normal run of [main.go] for any relation [R] the
    repair step establishes between the batch it gets and the batch it
    returns. *)
Section Related.
Variable w : world.
Variable R : string -> batch -> batch -> Prop.
Hypothesis repair_R :
  forall table b st wb st',
    MainGo.repair w table b st = (Ok wb, st') -> R table b wb.

Lemma insert_related table b st st' :
  MainGo.insert w table b st = (Ok tt, st') ->
  exists wb, txn st' = txn st ++ [Insert table wb] /\ R table b wb.
Proof.
  unfold MainGo.insert. intros H.
  apply bind_Ok in H as (wb & st1 & H1 & H).
  pose proof (repair_R _ _ _ _ _ H1) as HR.
  apply repair_inv in H1 as (lg & (_ & _ & _ & T1 & _) & _).
  apply bind_Ok in H as ([] & st2 & H2 & H).
  apply extcall_inv in H2 as [-> _].
  apply dest_ExecContext_inv in H as (_ & _ & _ & _ & _ & T & _).
  exists wb. split; [| exact HR].
  rewrite (T eq_refl). cbn [txn record_call record_calls]. rewrite T1, app_nil_r. reflexivity.
Qed.

Lemma table_loop_related P table fuel offset st st' :
  MainGo.table_loop w fuel P table offset st = (Ok tt, st') ->
  exists wbs,
    txn st' = txn st ++ map (Insert table) wbs /\
    Forall2 (R table) (pages P (drop offset (source w table))) wbs.
Proof.
  revert offset st. induction fuel as [| fuel IH]; intros offset st H;
    [discriminate |].
  cbn [MainGo.table_loop] in H.
  apply bind_Ok in H as (b & st1 & H1 & H).
  apply fetch_inv in H1 as (rd1 & (_ & _ & _ & T1 & _) & _ & Hb).
  destruct (Hb b eq_refl) as [Hpage _]. rewrite app_nil_r in T1.
  destruct b as [| r b'].
  - apply ret_inv in H as [_ ->]. exists [].
    rewrite (pages_nil P _ (eq_sym Hpage)), T1. simpl. rewrite app_nil_r.
    split; [reflexivity | constructor].
  - assert (take P (drop offset (source w table)) <> []) as Hne
        by (rewrite <- Hpage; discriminate).
    rewrite (pages_cons P _ Hne), drop_drop, <- Hpage.
    apply bind_Ok in H as ([] & st2 & H2 & H).
    apply insert_related in H2 as (wb & T2 & HR).
    apply IH in H as (wbs & T3 & HRs).
    exists (wb :: wbs). split; [| constructor; assumption].
    rewrite T3, T2, T1, <- app_assoc. reflexivity.
Qed.

Lemma tables_related P ts st st' :
  NoDup ts ->
  for_range ts (MainGo.migrate_table w P) st = (Ok tt, st') ->
  exists ins,
    txn st' = txn st ++ map (fun tb => Insert (fst tb) (snd tb)) ins /\
    (forall t, In t ts ->
       Forall2 (R t) (pages P (source w t)) (batches_of t ins)) /\
    (forall t, ~ In t ts -> batches_of t ins = []).
Proof.
  revert st. induction ts as [| table ts IH]; intros st Hnd H.
  - apply ret_inv in H as [_ ->]. exists []. simpl. rewrite app_nil_r.
    split; [reflexivity |]. split; [intros t [] | reflexivity].
  - apply NoDup_cons in Hnd as [Hfresh Hnd].
    rewrite list_elem_of_In in Hfresh.
    cbn [for_range] in H.
    apply bind_Ok in H as ([] & st1 & H1 & H).
    unfold MainGo.migrate_table in H1.
    apply bind_Ok in H1 as ([] & st0 & H0 & H1).
    apply Printf_extends in H0 as [_ (_ & _ & _ & T0 & _)].
    apply table_loop_related in H1 as (wbs & T1 & HR).
    rewrite drop_0 in HR. rewrite T0, app_nil_r in T1.
    apply (IH _ Hnd) in H as (ins & T2 & Hin & Hout).
    exists (map (pair table) wbs ++ ins). split; [| split].
    + rewrite T2, T1, map_app, map_map, <- app_assoc. reflexivity.
    + intros t [<- | Ht].
      * rewrite batches_of_app, batches_of_same, (Hout table Hfresh), app_nil_r.
        exact HR.
      * assert (table <> t) as Hne by (intros ->; contradiction).
        rewrite batches_of_app, batches_of_other by exact Hne.
        apply (Hin t Ht).
    + intros t Ht.
      assert (table <> t) as Hne by (intros ->; apply Ht; left; reflexivity).
      rewrite batches_of_app, batches_of_other by exact Hne.
      apply Hout. intros Hin'. apply Ht. right. exact Hin'.
Qed.

Lemma main_go_related connector dbpath st' :
  MainGo.migrate w connector dbpath init = (Ok tt, st') ->
  forall t, In t tables ->
    exists wbs,
      table_rows (destination w st') t = stored w t [] wbs /\
      Forall2 (R t) (pages 1000 (source w t)) wbs.
Proof.
  unfold MainGo.migrate. intros H.
  apply bind_Ok in H as ([] & st1 & H1 & H).
  apply (commits_none_eq _ (commits_wrap 0 _ _ (commits_open_sqlite w _))) in H1.
  apply bind_Ok in H as ([] & st2 & H2 & H).
  apply (commits_none_eq _ (commits_wrap 0 _ _ (commits_open_pgsql w _))) in H2.
  apply bind_Ok in H as ([] & st3 & H3 & H).
  apply (commits_none_eq _ (commits_extcall w _ _)) in H3.
  apply bind_Ok in H as ([] & st4 & H4 & H).
  apply dest_BeginTxx_inv in H4 as (C4 & _ & _ & _ & _ & T4 & _).
  specialize (T4 eq_refl).
  apply bind_Ok in H as ([] & st5 & H5 & H).
  pose proof (commits_none_eq _
                (commits_for_range tables _
                   (fun t => commits_migrate_table w 1000 t)) _ _ _ H5) as C5.
  apply (tables_related 1000 tables _ _ tables_NoDup) in H5 as (ins & T5 & Hin & _).
  rewrite T4, app_nil_l in T5.
  apply bind_Ok in H as ([] & st6 & H6 & H).
  apply Printf_extends in H6 as [_ (_ & _ & _ & T6 & C6)].
  apply bind_Ok in H as ([] & st7 & H7 & H).
  apply restarts_inv in H7 as (tx7 & (_ & _ & _ & T7 & C7) & _ & Htx7).
  specialize (Htx7 eq_refl). subst tx7.
  apply bind_Ok in H as ([] & st8 & H8 & H).
  apply dest_Commit_inv in H8 as (_ & _ & _ & Hcommit & _).
  destruct (Hcommit eq_refl) as [C8 _].
  apply bind_Ok in H as ([] & st9 & H9 & H).
  apply extcall_inv in H9 as [-> _].
  apply extcall_inv in H as [-> _].
  intros t Ht. exists (batches_of t ins). split; [| apply (Hin t Ht)].
  unfold destination. cbn [committed record_call record_calls].
  rewrite C8, C7, C6, C5, C4, H3, H2, H1, T7, T6, T5, app_nil_r.
  cbn [committed init app]. rewrite concat_one.
  rewrite table_rows_replay, batches_written_app,
    batches_written_inserts, batches_written_restarts, app_nil_r.
  reflexivity.
Qed.

End Related.




Lemma repair_exact w table b st wb st' :
  MainGo.repair w table b st = (Ok wb, st') ->
  table <> "scene_markers" -> table <> "performer_custom_fields" ->
  wb = expected_rows w table b.
Proof.
  intros H N4 N2. unfold expected_rows.
  destruct (decide (table = "video_files")) as [-> | N1].
  { rewrite repair_video_files in H. inversion H. reflexivity. }
  destruct (decide (table = "saved_filters")) as [-> | N3].
  { rewrite repair_saved_filters in H.
    destruct (keep_valid_spec w b [] st) as (lg & Hrun & _).
    rewrite Hrun in H. inversion H. reflexivity. }
  rewrite repair_other in H by assumption. inversion H. reflexivity.
Qed.

Lemma expected_rows_app w table (l1 l2 : list row) :
  expected_rows w table (l1 ++ l2)
    = expected_rows w table l1 ++ expected_rows w table l2.
Proof.
  unfold expected_rows.
  destruct (decide _); [apply map_app |].
  destruct (decide _); [apply filter_app | reflexivity].
Qed.

Lemma expected_rows_nil w table : expected_rows w table [] = [].
Proof. unfold expected_rows. repeat destruct (decide _); reflexivity. Qed.

Lemma expected_rows_concat w table (bs : list batch) :
  concat (map (expected_rows w table) bs) = expected_rows w table (concat bs).
Proof.
  induction bs as [| b bs IH]; simpl.
  - symmetry. apply expected_rows_nil.
  - rewrite expected_rows_app, IH. reflexivity.
Qed.

Lemma Forall2_is_map {A B} (f : A -> B) (l : list A) (k : list B) :
  Forall2 (fun x y => y = f x) l k -> k = map f l.
Proof. induction 1; simpl; congruence. Qed.

Lemma video_files_in_tables : In "video_files" tables.
Proof.
  unfold tables. rewrite <- list_elem_of_In.
  apply (bool_decide_unpack _). vm_compute. exact I.
Qed.

Lemma scene_markers_in_tables : In "scene_markers" tables.
Proof.
  unfold tables. rewrite <- list_elem_of_In.
  apply (bool_decide_unpack _). vm_compute. exact I.
Qed.

Lemma expected_rows_filled w table (b : batch) :
  table <> "saved_filters" -> b <> [] -> expected_rows w table b <> [].
Proof.
  intros Hne Hb. unfold expected_rows.
  destruct (decide _); [destruct b; [congruence | discriminate] |].
  destruct (decide _); [congruence | exact Hb].
Qed.

Lemma main_go_exact_rows w connector dbpath st' t :
  MainGo.migrate w connector dbpath init = (Ok tt, st') ->
  In t tables -> t <> "scene_markers" ->
  table_rows (destination w st') t
  = stored w t [] (map (expected_rows w t) (pages 1000 (source w t))).
Proof.
  intros H Ht Hne.
  destruct (main_go_related w
              (fun t b wb => t <> "scene_markers" ->
                             t <> "performer_custom_fields" ->
                             wb = expected_rows w t b)
              (repair_exact w) _ _ _ H t Ht) as (wbs & -> & HR).
  f_equal. apply Forall2_is_map. eapply Forall2_impl; [exact HR |].
  intros b wb Hb. apply Hb; [exact Hne | apply tables_not_tagged, Ht].
Qed.

Lemma main_go_exact_filled w connector dbpath st' t :
  MainGo.migrate w connector dbpath init = (Ok tt, st') ->
  In t tables -> t <> "scene_markers" ->
  Forall (fun b => expected_rows w t b <> []) (pages 1000 (source w t)) ->
  table_rows (destination w st') t = expected_rows w t (source w t).
Proof.
  intros H Ht Hne Hfilled.
  rewrite (main_go_exact_rows w _ _ _ t H Ht Hne).
  rewrite stored_filled by (apply Forall_map, Hfilled).
  rewrite expected_rows_concat, concat_pages by lia. reflexivity.
Qed.

Lemma pages_expected_filled w t (rows : list row) :
  t <> "saved_filters" ->
  Forall (fun b => expected_rows w t b <> []) (pages 1000 rows).
Proof.
  intros Hne. eapply Forall_impl; [apply pages_nonempty |].
  intros b [Hb _]. apply expected_rows_filled; assumption.
Qed.

(** X5.  What a normal run of [main.go] leaves in an empty destination,
    exactly, for every table of the list but [scene_markers].  Each page of
    the table gives one insert statement, built from the rows of the page
    after the rule of the table: the hotfix on each row of [video_files],
    the rows of [saved_filters] without those that hold a broken JSON
    column, the rows as they are for every other table.  A statement built
    from rows adds those rows; the statement built from a page of
    [saved_filters] that the rule emptied adds one row of defaults.  So a
    table none of whose pages is emptied, as every table but
    [saved_filters], holds the source rows in their order after the rule;
    and a table that is not in the list holds nothing. *)
Theorem main_go_destination_exact (w : world) (connector dbpath : string)
    (st' : state) :
  MainGo.migrate w connector dbpath init = (Ok tt, st') ->
  (forall t, In t tables -> t <> "scene_markers" ->
     table_rows (destination w st') t
     = stored w t [] (map (expected_rows w t) (pages 1000 (source w t)))) /\
  (forall t, In t tables -> t <> "scene_markers" ->
     Forall (fun b => expected_rows w t b <> []) (pages 1000 (source w t)) ->
     table_rows (destination w st') t = expected_rows w t (source w t)) /\
  (forall t, In t tables -> t <> "scene_markers" -> t <> "saved_filters" ->
     table_rows (destination w st') t = expected_rows w t (source w t)) /\
  (forall t, In t tables -> t <> "scene_markers" -> t <> "video_files" ->
     t <> "saved_filters" -> table_rows (destination w st') t = source w t) /\
  (forall b, b <> [] -> length b <= 1000 ->
     source w "saved_filters" = b ->
     Forall (fun r => json_ok w r = false) b ->
     table_rows (destination w st') "saved_filters"
     = [default_values w "saved_filters" []]) /\
  (forall t, ~ In t tables -> table_rows (destination w st') t = []).
Proof.
  intros H.
  assert (forall t, In t tables -> t <> "scene_markers" -> t <> "saved_filters" ->
            table_rows (destination w st') t = expected_rows w t (source w t))
    as Hother.
  { intros t Ht N4 N3. apply (main_go_exact_filled w _ _ _ t H Ht N4).
    apply pages_expected_filled, N3. }
  split; [| split; [| split; [| split; [| split]]]].
  - intros t Ht Hne. apply (main_go_exact_rows w _ _ _ t H Ht Hne).
  - intros t Ht Hne Hfilled.
    apply (main_go_exact_filled w _ _ _ t H Ht Hne Hfilled).
  - exact Hother.
  - intros t Ht N4 N1 N3. rewrite (Hother t Ht N4 N3).
    unfold expected_rows. names; reflexivity.
  - intros b Hb Hlen Hsrc Hbad.
    rewrite (main_go_exact_rows w _ _ _ "saved_filters" H saved_filters_in_tables)
      by discriminate.
    rewrite Hsrc.
    assert (pages 1000 b = [b]) as ->.
    { assert (take 1000 b = b) as Htake by (apply take_ge; lia).
      rewrite pages_cons by (rewrite Htake; exact Hb).
      rewrite Htake, pages_nil; [reflexivity |].
      rewrite drop_ge by lia. reflexivity. }
    assert (expected_rows w "saved_filters" b = []) as Hnone.
    { unfold expected_rows. names. apply filter_none.
      eapply Forall_impl; [exact Hbad |]. intros r Hr. rewrite Hr. discriminate. }
    cbn [map stored fold_left]. rewrite Hnone. reflexivity.
  - intros t Ht. apply (unlisted_table_not_migrated w _ _ _ t H Ht).
Qed.

Lemma main_go_destination_exact_witness :
  table_rows (destination (sample_world sample_source no_failure)
                (snd sample_run)) "video_files"
  = [ <["interactive_speed" := VInt32 MaxInt32]> (with_id 2) ].
Proof.
  rewrite (proj1 (proj2 (proj2 (main_go_destination_exact
                    (sample_world sample_source no_failure)
                    "postgres://stash@localhost/stash" "stash-go.sqlite"
                    (snd sample_run) sample_run_Ok)))
             "video_files" video_files_in_tables ltac:(discriminate)
             ltac:(discriminate)).
  vm_compute. reflexivity.
Defined.

Lemma same_length_filled {A B} (R : A -> B -> Prop) (bs : list (list A))
    (wbs : list (list B)) :
  Forall2 (Forall2 R) bs wbs ->
  Forall (fun b => b <> []) bs -> Forall (fun wb => wb <> []) wbs.
Proof.
  induction 1 as [| b wb bs wbs Hb _ IH]; intros Hbs; [constructor |].
  apply Forall_cons in Hbs as [Hne Hbs]. constructor; [| apply IH, Hbs].
  intros ->. apply Forall2_length in Hb. destruct b; [congruence | discriminate].
Qed.

Lemma pages_filled {A} (P : nat) (l : list A) :
  Forall (fun b => b <> []) (pages P l).
Proof.
  eapply Forall_impl; [apply pages_nonempty |]. intros b [Hb _]. exact Hb.
Qed.

(** X6.  After a normal run of [main.go] under a clock that never reads a
    year before 1, the rows of [scene_markers] in the destination are those
    of the source, one for one and in order, and each holds in [created_at]
    and [updated_at] a time the destination accepts wherever the source row
    had the column, and nothing where it had not. *)
Theorem main_go_timestamps_valid (w : world) (connector dbpath : string)
    (st' : state) :
  sane_clock w ->
  MainGo.migrate w connector dbpath init = (Ok tt, st') ->
  Forall2 (normalized w) (source w "scene_markers")
    (table_rows (destination w st') "scene_markers") /\
  Forall (settled w) (table_rows (destination w st') "scene_markers").
Proof.
  intros Hclock H.
  assert (forall table b st wb st1,
            MainGo.repair w table b st = (Ok wb, st1) ->
            table = "scene_markers" -> Forall2 (normalized w) b wb) as Hrule.
  { intros table b st wb st1 Hrun ->.
    destruct (normalize_rows_post w Hclock b st) as (b' & lg & Hb & _ & _ & N).
    rewrite repair_scene_markers, Hb in Hrun. inversion Hrun; subst. exact N. }
  pose proof (main_go_related w _ Hrule connector dbpath st' H
                "scene_markers" scene_markers_in_tables) as (wbs & Hrows & HR).
  assert (Forall2 (Forall2 (normalized w))
            (pages 1000 (source w "scene_markers")) wbs) as HRs.
  { eapply Forall2_impl; [exact HR |]. intros b wb Hb. apply Hb. reflexivity. }
  assert (Forall2 (normalized w) (source w "scene_markers")
            (table_rows (destination w st') "scene_markers")) as HN.
  { rewrite Hrows, stored_filled.
    - rewrite <- (concat_pages 1000 (source w "scene_markers")) at 1 by lia.
      apply Forall2_concat, HRs.
    - apply (same_length_filled _ _ _ HRs), pages_filled. }
  split; [exact HN | apply (normalized_all_settled w _ _ HN)].
Qed.

Lemma main_go_timestamps_valid_witness :
  Forall2 (normalized (sample_world sample_source no_failure))
    (sample_source "scene_markers")
    (table_rows (destination (sample_world sample_source no_failure)
                   (snd sample_run)) "scene_markers") /\
  Forall (settled (sample_world sample_source no_failure))
    (table_rows (destination (sample_world sample_source no_failure)
                   (snd sample_run)) "scene_markers").
Proof.
  apply (main_go_timestamps_valid (sample_world sample_source no_failure)
           "postgres://stash@localhost/stash" "stash-go.sqlite"
           (snd sample_run)).
  - intros n. unfold MainGo.isValidPostgresTime. simpl.
    unfold sample_Year, Time_UTC, sample_Now. simpl.
    apply Z.geb_le.
    assert (0 <= (2025000 + Z.of_nat n + 0) / 1000)%Z by (apply Z.div_pos; lia).
    lia.
  - exact sample_run_Ok.
Defined.

(** ** All or nothing *)


Section AllOrNothing.
Variable w : world.


End AllOrNothing.



(** ** Only the world makes a run fail *)

Section PerBatchBlame.
Variable w : world.

Lemma per_batch_table_loop_blameless P table fuel offset st :
  length (source w table) - offset < fuel ->
  blameless w "" (fst (PerBatch.table_loop w fuel P table offset st)).
Proof.
  revert offset st. induction fuel as [| fuel IH]; intros offset st Hfuel; [lia |].
  cbn [PerBatch.table_loop]. unfold bind at 1.
  pose proof (faultless_per_batch_fetch w "" P table offset st) as Hf.
  destruct (PerBatch.fetch w P table offset st) as [r1 st1] eqn:H1.
  apply per_batch_fetch_inv in H1 as (_ & _ & Hb).
  destruct r1 as [b | e1 | e2 |]; simpl in Hf |- *; auto.
  pose proof (Hb b eq_refl) as Hpage.
  destruct b as [| r b']; [exact I |].
  unfold bind.
  pose proof (faultless_per_batch_insert w "" table (r :: b') st1) as Hi.
  destruct (PerBatch.insert w table (r :: b') st1) as [r2 st2].
  destruct r2 as [[] | e1 | e2 |]; simpl in Hi |- *; auto.
  apply IH. apply (f_equal length) in Hpage.
  rewrite length_take, length_drop in Hpage. simpl in Hpage. lia.
Qed.

Lemma faultless_restart_sequence table_name :
  faultless w "" (PerBatch.restart_sequence w table_name).
Proof.
  unfold PerBatch.restart_sequence.
  apply faultless_bind; [apply faultless_dest_BeginTxx |]. intros _.
  apply faultless_bind.
  { apply faultless_bind; [apply faultless_extcall |]. intros _ st. exact I. }
  intros _. apply faultless_dest_Commit.
Qed.

Lemma faultless_per_batch_migrate connector dbpath :
  faultless w "" (PerBatch.migrate w connector dbpath).
Proof.
  unfold PerBatch.migrate.
  apply faultless_bind; [apply faultless_wrap, faultless_open_sqlite |]. intros _.
  apply faultless_bind; [apply faultless_wrap, faultless_open_pgsql |]. intros _.
  apply faultless_bind.
  { apply faultless_for_range. intros t _ st.
    unfold PerBatch.migrate_table, bind, Printf.
    apply per_batch_table_loop_blameless. lia. }
  intros _. apply faultless_bind; [apply faultless_extcall |]. intros _.
  apply faultless_bind; [intros st; exact I |]. intros _.
  apply faultless_bind.
  { apply faultless_for_range. intros t _. apply faultless_restart_sequence. }
  intros _. apply faultless_extcall.
Qed.

End PerBatchBlame.

(** ** The call that made a run fail *)

Lemma succeeded_nil w n : succeeded w n [].
Proof. intros i c Hi. rewrite lookup_nil in Hi. discriminate. Qed.

Lemma succeeded_app w n cs1 cs2 :
  succeeded w n cs1 -> succeeded w (n + length cs1) cs2 ->
  succeeded w n (cs1 ++ cs2).
Proof.
  intros H1 H2 i c Hi. apply lookup_app_Some in Hi as [Hi | [Hle Hi]].
  - apply H1, Hi.
  - apply H2 in Hi.
    replace (n + i) with (n + length cs1 + (i - length cs1)) by lia.
    exact Hi.
Qed.

Lemma stopped_app w n cs1 cs2 :
  succeeded w n cs1 -> stopped w (n + length cs1) cs2 ->
  stopped w n (cs1 ++ cs2).
Proof.
  intros H1 (cs0 & c & -> & H0 & Hf). exists (cs1 ++ cs0), c.
  split; [apply app_assoc |]. split; [apply succeeded_app; assumption |].
  rewrite length_app, Nat.add_assoc. exact Hf.
Qed.

Lemma traced_ret w {A} (a : A) : traced w (ret a).
Proof.
  intros st res st' H. apply ret_inv in H as [-> ->].
  exists []. rewrite app_nil_r, Nat.add_0_r.
  split; [reflexivity |]. split; [reflexivity | apply succeeded_nil].
Qed.

(** A step that makes no external call and returns no error. *)
Lemma traced_silent w {A} (m : M A) :
  (forall st, asked (snd (m st)) = asked st /\ calls (snd (m st)) = calls st /\
     forall e, fst (m st) <> Err e) ->
  traced w m.
Proof.
  intros Hm st res st' H. destruct (Hm st) as (Ha & Hc & He).
  rewrite H in Ha, Hc, He. simpl in Ha, Hc, He.
  exists []. rewrite app_nil_r, Nat.add_0_r.
  split; [exact Ha |]. split; [exact Hc |].
  destruct res as [a | e | e |]; [apply succeeded_nil | | exact I | exact I].
  destruct (He e eq_refl).
Qed.

Lemma traced_bind w {A B} (m : M A) (k : A -> M B) :
  traced w m -> (forall a, traced w (k a)) -> traced w (bind m k).
Proof.
  intros Hm Hk st res st' H.
  apply bind_inv in H as [(a & st1 & H1 & H2) | (r0 & H1 & Hr0 & ->)].
  - apply Hm in H1 as (cs1 & A1 & C1 & S1).
    apply Hk in H2 as (cs2 & A2 & C2 & S2).
    exists (cs1 ++ cs2). rewrite A2, A1, C2, C1, length_app, app_assoc.
    split; [reflexivity |]. split; [lia |].
    rewrite C1 in S2.
    destruct res; auto using succeeded_app, stopped_app.
  - apply Hm in H1 as (cs1 & A1 & C1 & S1). exists cs1.
    split; [exact A1 |]. split; [exact C1 |].
    destruct r0; [discriminate | exact S1 | exact I | exact I].
Qed.

Lemma traced_wrap w {A} msg (m : M A) : traced w m -> traced w (wrap msg m).
Proof.
  intros Hm st res st' H. unfold wrap in H.
  destruct (m st) as [r1 st1] eqn:H1. apply Hm in H1 as (cs & Ha & Hc & Hs).
  destruct r1; inversion H; subst; exists cs; auto.
Qed.

Lemma traced_for_range w {A} (xs : list A) (body : A -> M unit) :
  (forall x, traced w (body x)) -> traced w (for_range xs body).
Proof.
  intros Hb. induction xs as [| x xs IH]; simpl.
  - apply traced_ret.
  - apply traced_bind; [apply Hb | intros _; exact IH].
Qed.

Lemma traced_for_rows w f rowsSlice :
  (forall r, traced w (f r)) -> traced w (for_rows f rowsSlice).
Proof.
  intros Hf. induction rowsSlice as [| r rest IH]; simpl.
  - apply traced_ret.
  - apply traced_bind; [apply Hf |]. intros r'.
    apply traced_bind; [apply IH |]. intros. apply traced_ret.
Qed.

Section Traces.
Variable w : world.

(** An external call is the one call it makes. *)
Lemma traced_extcall c msg : traced w (extcall w c msg).
Proof.
  intros st res st' H. unfold extcall in H. exists [c].
  destruct (fails w (calls st) c) eqn:Hc; inversion H; subst; simpl;
    (split; [reflexivity |]); (split; [lia |]).
  - exists [], c. rewrite Nat.add_0_r. split; [reflexivity |].
    split; [apply succeeded_nil | exact Hc].
  - intros [| i] c' Hi; simpl in Hi; [| rewrite lookup_nil in Hi; discriminate].
    inversion Hi; subst. rewrite Nat.add_0_r. exact Hc.
Qed.

Lemma traced_Printf line : traced w (Printf line).
Proof. apply traced_silent. intros st. simpl. auto. Qed.

Lemma traced_log_Printf e : traced w (log_Printf e).
Proof. apply traced_silent. intros st. simpl. auto. Qed.

Lemma traced_record_read table b : traced w (record_read table b).
Proof. apply traced_silent. intros st. simpl. auto. Qed.

Lemma traced_Now_UTC : traced w (Now_UTC w).
Proof. apply traced_silent. intros st. simpl. auto. Qed.

Lemma traced_scan_rows table selected acc :
  traced w (scan_rows w table selected acc).
Proof.
  revert acc. induction selected as [| x rest IH]; simpl; intros acc.
  - apply traced_ret.
  - apply traced_bind; [apply traced_extcall | auto].
Qed.

Lemma traced_dest_BeginTxx msg : traced w (dest_BeginTxx w msg).
Proof.
  apply traced_bind; [apply traced_extcall |]. intros _.
  apply traced_silent. intros st. simpl. auto.
Qed.

Lemma traced_dest_ExecContext s msg : traced w (dest_ExecContext w s msg).
Proof.
  apply traced_bind; [apply traced_extcall |]. intros _.
  apply traced_silent. intros st. simpl. auto.
Qed.

Lemma traced_dest_QueryxContext s msg : traced w (dest_QueryxContext w s msg).
Proof.
  apply traced_bind; [apply traced_extcall |]. intros _.
  apply traced_silent. intros st. simpl. auto.
Qed.

Lemma traced_dest_Commit msg : traced w (dest_Commit w msg).
Proof.
  apply traced_bind; [apply traced_extcall |]. intros _.
  apply traced_silent. intros st. simpl. auto.
Qed.

Lemma traced_open_sqlite path : traced w (open_sqlite w path).
Proof. apply traced_extcall. Qed.

Lemma traced_open_pgsql connector : traced w (open_pgsql w connector).
Proof.
  unfold open_pgsql. apply traced_bind; [apply traced_extcall |].
  intros _. apply traced_bind; [apply traced_extcall |].
  intros _. apply traced_ret.
Qed.

(** The rules make no external call. *)
Lemma traced_set_type r : traced w (MainGo.set_type r).
Proof.
  unfold MainGo.set_type. destruct (reflect_TypeOf_String _).
  - apply traced_ret.
  - apply traced_silent. intros st. simpl. auto.
Qed.

Lemma traced_check_json r objs : traced w (MainGo.check_json w r objs).
Proof.
  induction objs as [| obj rest IH]; cbn [MainGo.check_json];
    [apply traced_ret |].
  destruct (index r obj); try exact IH.
  destruct (json_Unmarshal w s); [| exact IH].
  apply traced_bind; [apply traced_log_Printf |]. intros _. apply traced_ret.
Qed.

Lemma traced_keep_valid rowsSlice validRows :
  traced w (MainGo.keep_valid w rowsSlice validRows).
Proof.
  revert validRows.
  induction rowsSlice as [| r rest IH]; intros validRows; cbn [MainGo.keep_valid].
  - apply traced_ret.
  - apply traced_bind; [apply traced_check_json |]. intros valid. apply IH.
Qed.

Lemma traced_replace (tsKey : string) e (r : row) :
  traced w (log_Printf e ;; now <- Now_UTC w ;; ret (<[tsKey := VTime now]> r)).
Proof.
  apply traced_bind; [apply traced_log_Printf |]. intros _.
  apply traced_bind; [apply traced_Now_UTC |]. intros now. apply traced_ret.
Qed.

Lemma traced_normalize_column r tsKey : traced w (MainGo.normalize_column w r tsKey).
Proof.
  unfold MainGo.normalize_column.
  destruct (r !! tsKey) as [v |]; [| apply traced_ret].
  destruct v; try apply traced_replace.
  - destruct (time_Parse_RFC3339 w s); [| apply traced_replace].
    destruct (negb _); [apply traced_replace | apply traced_ret].
  - destruct (negb _); [apply traced_replace | apply traced_ret].
Qed.

Lemma traced_normalize_columns tsKeys r :
  traced w (MainGo.normalize_columns w tsKeys r).
Proof.
  revert r.
  induction tsKeys as [| tsKey rest IH]; intros r; cbn [MainGo.normalize_columns].
  - apply traced_ret.
  - apply traced_bind; [apply traced_normalize_column |]. intros r'. apply IH.
Qed.

Lemma traced_repair table rowsSlice : traced w (MainGo.repair w table rowsSlice).
Proof.
  unfold MainGo.repair.
  apply traced_bind; [destruct (decide _); apply traced_ret |]. intros b1.
  apply traced_bind.
  { destruct (decide _); [| apply traced_ret].
    apply traced_for_rows, traced_set_type. }
  intros b2. apply traced_bind.
  { destruct (decide _); [apply traced_keep_valid | apply traced_ret]. }
  intros b3. destruct (decide _); [| apply traced_ret].
  apply traced_for_rows, traced_normalize_columns.
Qed.

(** The driver of [main.go]. *)
Lemma traced_fetch P table offset : traced w (MainGo.fetch w P table offset).
Proof.
  unfold MainGo.fetch.
  apply traced_bind; [apply traced_extcall |]. intros _.
  apply traced_bind; [apply traced_extcall |]. intros _.
  apply traced_bind; [apply traced_scan_rows |]. intros b.
  apply traced_bind; [apply traced_record_read |]. intros _. apply traced_ret.
Qed.

Lemma traced_insert table rowsSlice : traced w (MainGo.insert w table rowsSlice).
Proof.
  unfold MainGo.insert.
  apply traced_bind; [apply traced_repair |]. intros b.
  apply traced_bind; [apply traced_extcall |]. intros _.
  apply traced_dest_ExecContext.
Qed.

Lemma traced_table_loop fuel P table offset :
  traced w (MainGo.table_loop w fuel P table offset).
Proof.
  revert offset. induction fuel as [| fuel IH]; intros offset;
    cbn [MainGo.table_loop].
  - apply traced_silent. intros st. simpl. auto.
  - apply traced_bind; [apply traced_fetch |]. intros [| r b].
    + apply traced_ret.
    + apply traced_bind; [apply traced_insert |]. intros _. apply IH.
Qed.

Lemma traced_main_go connector dbpath :
  traced w (MainGo.migrate w connector dbpath).
Proof.
  unfold MainGo.migrate.
  apply traced_bind; [apply traced_wrap, traced_open_sqlite |]. intros _.
  apply traced_bind; [apply traced_wrap, traced_open_pgsql |]. intros _.
  apply traced_bind; [apply traced_extcall |]. intros _.
  apply traced_bind; [apply traced_dest_BeginTxx |]. intros _.
  apply traced_bind.
  { apply traced_for_range. intros t. unfold MainGo.migrate_table.
    apply traced_bind; [apply traced_Printf |]. intros _.
    apply traced_table_loop. }
  intros _. apply traced_bind; [apply traced_Printf |]. intros _.
  apply traced_bind.
  { apply traced_for_range. intros t. apply traced_dest_ExecContext. }
  intros _. apply traced_bind; [apply traced_dest_Commit |]. intros _.
  apply traced_bind; [apply traced_extcall |]. intros _.
  apply traced_extcall.
Qed.

(** The per-batch driver. *)
Lemma traced_per_batch_fetch P table offset :
  traced w (PerBatch.fetch w P table offset).
Proof.
  unfold PerBatch.fetch.
  apply traced_bind; [apply traced_extcall |]. intros _.
  apply traced_bind; [apply traced_extcall |]. intros _.
  apply traced_bind; [apply traced_extcall |]. intros _.
  apply traced_bind; [apply traced_scan_rows |]. intros b.
  apply traced_bind; [apply traced_record_read |]. intros _. apply traced_ret.
Qed.

Lemma traced_per_batch_insert table rowsSlice :
  traced w (PerBatch.insert w table rowsSlice).
Proof.
  unfold PerBatch.insert.
  apply traced_bind; [apply traced_dest_BeginTxx |]. intros _.
  apply traced_bind; [apply traced_extcall |]. intros _.
  apply traced_bind; [apply traced_dest_ExecContext |]. intros _.
  apply traced_dest_Commit.
Qed.

Lemma traced_per_batch_table_loop fuel P table offset :
  traced w (PerBatch.table_loop w fuel P table offset).
Proof.
  revert offset. induction fuel as [| fuel IH]; intros offset;
    cbn [PerBatch.table_loop].
  - apply traced_silent. intros st. simpl. auto.
  - apply traced_bind; [apply traced_per_batch_fetch |]. intros [| r b].
    + apply traced_ret.
    + apply traced_bind; [apply traced_per_batch_insert |]. intros _. apply IH.
Qed.

Lemma traced_per_batch_migrate connector dbpath :
  traced w (PerBatch.migrate w connector dbpath).
Proof.
  unfold PerBatch.migrate.
  apply traced_bind; [apply traced_wrap, traced_open_sqlite |]. intros _.
  apply traced_bind; [apply traced_wrap, traced_open_pgsql |]. intros _.
  apply traced_bind.
  { apply traced_for_range. intros t. unfold PerBatch.migrate_table.
    apply traced_bind; [apply traced_Printf |]. intros _.
    apply traced_per_batch_table_loop. }
  intros _. apply traced_bind; [apply traced_extcall |]. intros _.
  apply traced_bind; [apply traced_Printf |]. intros _.
  apply traced_bind.
  { apply traced_for_range. intros t. unfold PerBatch.restart_sequence.
    apply traced_bind; [apply traced_dest_BeginTxx |]. intros _.
    apply traced_bind; [apply traced_dest_QueryxContext |]. intros _.
    apply traced_dest_Commit. }
  intros _. apply traced_extcall.
Qed.

End Traces.

(** X8.  Neither driver ever panics on a run, and the loop over the pages
    of a table always ends: a run, from any state, ends normally or returns
    an error.  The external calls [cs] the run made, in order, explain
    which: the run ends normally when every one of them succeeded, and it
    returns an error when the last call it made failed, all the calls
    before it having succeeded; no call follows a failed one.  (The panic of
    the type-tag rule is out of reach, its table not being in the list.)
    With no failing call, both drivers end normally. *)
Theorem runs_fail_only_with_the_world (w : world) (connector dbpath : string)
    (st : state) :
  (forall res st',
     MainGo.migrate w connector dbpath st = (res, st') \/
     PerBatch.migrate w connector dbpath st = (res, st') ->
     exists cs,
       asked st' = asked st ++ cs /\ calls st' = calls st + length cs /\
       (res = Ok tt /\ succeeded w (calls st) cs \/
        exists msg cs0 c,
          res = Err msg /\ cs = cs0 ++ [c] /\ succeeded w (calls st) cs0 /\
          fails w (calls st + length cs0) c = true)) /\
  ((forall n c, fails w n c = false) ->
   (exists st', MainGo.migrate w connector dbpath st = (Ok tt, st')) /\
   (exists st', PerBatch.migrate w connector dbpath st = (Ok tt, st'))).
Proof.
  assert (forall res st',
     MainGo.migrate w connector dbpath st = (res, st') \/
     PerBatch.migrate w connector dbpath st = (res, st') ->
     exists cs,
       asked st' = asked st ++ cs /\ calls st' = calls st + length cs /\
       (res = Ok tt /\ succeeded w (calls st) cs \/
        exists msg cs0 c,
          res = Err msg /\ cs = cs0 ++ [c] /\ succeeded w (calls st) cs0 /\
          fails w (calls st + length cs0) c = true)) as Hall.
  { intros res st' H.
    assert (blameless w "" res /\
            exists cs,
              asked st' = asked st ++ cs /\ calls st' = calls st + length cs /\
              match res with
              | Ok _ => succeeded w (calls st) cs
              | Err _ => stopped w (calls st) cs
              | _ => True
              end) as [Hb (cs & Ha & Hc & Hs)].
    { destruct H as [H | H].
      - split; [| apply (traced_main_go w connector dbpath), H].
        pose proof (faultless_main_go w connector dbpath st) as Hb.
        rewrite H in Hb. exact Hb.
      - split; [| apply (traced_per_batch_migrate w connector dbpath), H].
        pose proof (faultless_per_batch_migrate w connector dbpath st) as Hb.
        rewrite H in Hb. exact Hb. }
    exists cs. split; [exact Ha |]. split; [exact Hc |].
    destruct res as [[] | e1 | e2 |]; simpl in Hb.
    - left. auto.
    - right. destruct Hs as (cs0 & c & E & Hs0 & Hf). exists e1, cs0, c. auto.
    - discriminate.
    - contradiction. }
  split; [exact Hall |]. intros Hw. split.
  - destruct (MainGo.migrate w connector dbpath st) as [res st'] eqn:H.
    destruct (Hall res st' (or_introl eq_refl))
      as (cs & _ & _ & [[-> _] | (msg & cs0 & c & _ & _ & _ & Hf)]);
      [eauto |]. rewrite Hw in Hf. discriminate.
  - destruct (PerBatch.migrate w connector dbpath st) as [res st'] eqn:H.
    destruct (Hall res st' (or_intror eq_refl))
      as (cs & _ & _ & [[-> _] | (msg & cs0 & c & _ & _ & _ & Hf)]);
      [eauto |]. rewrite Hw in Hf. discriminate.
Qed.

Lemma runs_fail_only_with_the_world_witness :
  fst closing_run = Err "source close" /\
  exists cs0,
    asked (snd closing_run) = cs0 ++ [SourceClose] /\
    succeeded (sample_world sample_source close_fails) 0 cs0.
Proof.
  split; [vm_compute; reflexivity |].
  destruct (proj1 (runs_fail_only_with_the_world
                     (sample_world sample_source close_fails)
                     "postgres://stash@localhost/stash" "stash-go.sqlite" init)
              (fst closing_run) (snd closing_run)
              (or_introl (surjective_pairing _)))
    as (cs & Ha & _ & [[Hok _] | (msg & cs0 & c & _ & -> & Hs & Hf)]).
  - exfalso. revert Hok. vm_compute. discriminate.
  - exists cs0. split; [| exact Hs]. rewrite Ha.
    destruct c; try discriminate Hf. reflexivity.
Defined.

(** ** What the per-batch driver leaves behind *)

Lemma per_batch_repair_concat table (bs : list batch) :
  concat (map (PerBatch.repair table) bs) = PerBatch.repair table (concat bs).
Proof.
  unfold PerBatch.repair. destruct (decide _).
  - symmetry. apply concat_map.
  - rewrite map_id. reflexivity.
Qed.

Lemma concat_singletons {A B} (f : A -> B) (l : list A) :
  concat (map (fun x => [f x]) l) = map f l.
Proof. induction l as [| x l IH]; simpl; [| rewrite IH]; reflexivity. Qed.

Lemma sequence_tables_plain t :
  In t sequence_tables -> In t tables /\ t <> "video_files".
Proof.
  intros H. split.
  - revert t H. apply List.Forall_forall.
    unfold sequence_tables.
    repeat (constructor;
            [rewrite <- list_elem_of_In; apply (bool_decide_unpack _);
             vm_compute; exact I |]).
    constructor.
  - intros ->. revert H. rewrite <- list_elem_of_In.
    apply (bool_decide_unpack _). vm_compute. exact I.
Qed.

Section PerBatchDestination.
Variable w : world.

(** No insert of the per-batch driver is built from a batch without rows. *)
Lemma inserts_filled (l1 l2 : list (list stmt)) t :
  expected_inserts w = l1 ++ l2 ->
  Forall (fun b => b <> []) (batches_written t (concat l1)) /\
  Forall (fun b => b <> []) (batches_written t (concat l2)).
Proof.
  intros E.
  assert (Forall (fun b => b <> [])
            (batches_written t (concat (expected_inserts w)))) as Hall.
  { apply (committed_filled w (expected_inserts w)
             (map (fun t => [RestartSeq t]) sequence_tables)).
    reflexivity. }
  rewrite E, concat_app, batches_written_app in Hall.
  apply Forall_app in Hall. exact Hall.
Qed.

Lemma rows_of_page_inserts t t' (bs : list batch) :
  concat (batches_written t
            (concat (map (fun b => [Insert t' (PerBatch.repair t' b)]) bs)))
  = if decide (t' = t) then concat (map (PerBatch.repair t') bs) else [].
Proof.
  rewrite concat_singletons.
  induction bs as [| b bs IH]; simpl map.
  - destruct (decide _); reflexivity.
  - rewrite batches_written_cons, concat_app, IH.
    destruct (decide (t' = t)); simpl; rewrite ?app_nil_r; reflexivity.
Qed.

Lemma rows_of_inserts t ts :
  concat (batches_written t
            (concat (flat_map
                       (fun t' => map (fun b => [Insert t' (PerBatch.repair t' b)])
                                      (pages 1000 (source w t')))
                       ts)))
  = flat_map (fun t' => if decide (t' = t)
                        then PerBatch.repair t' (source w t') else []) ts.
Proof.
  induction ts as [| t' ts IH]; [reflexivity |].
  cbn [flat_map]. rewrite concat_app, batches_written_app, concat_app, IH.
  f_equal. rewrite rows_of_page_inserts.
  destruct (decide _); [| reflexivity].
  rewrite per_batch_repair_concat, concat_pages by lia. reflexivity.
Qed.

(** The rows of the destination once every insert transaction is in. *)
Lemma loaded_rows t :
  (In t tables ->
   table_rows (exec_stmts w empty_database (concat (expected_inserts w))) t
   = PerBatch.repair t (source w t)) /\
  (~ In t tables ->
   table_rows (exec_stmts w empty_database (concat (expected_inserts w))) t = []).
Proof.
  rewrite table_rows_exec_stmts
    by (apply (inserts_filled (expected_inserts w) []); symmetry; apply app_nil_r).
  cbn [table_rows empty_database app].
  unfold expected_inserts. rewrite rows_of_inserts. split.
  - intros Ht.
    rewrite (flat_map_single _ t tables tables_NoDup Ht).
    + destruct (decide (t = t)); [reflexivity | congruence].
    + intros t' Hne. destruct (decide (t' = t)); [congruence | reflexivity].
  - intros Ht. induction tables as [| t' ts IH]; [reflexivity |].
    cbn [flat_map]. rewrite IH by (intros Hin; apply Ht; right; exact Hin).
    destruct (decide (t' = t)) as [-> |]; [| reflexivity].
    destruct Ht. left. reflexivity.
Qed.

Lemma inserts_only (l rest : list (list stmt)) :
  expected_inserts w = l ++ rest ->
  forall s, In s (concat l) -> exists t b, s = Insert t b.
Proof.
  intros E s Hs.
  assert (In s (concat (expected_inserts w))) as Hin.
  { rewrite E, concat_app. apply in_or_app. left. exact Hs. }
  unfold expected_inserts in Hin.
  apply in_concat in Hin as (tx & Htx & Hs').
  apply in_flat_map in Htx as (t & _ & Htx).
  apply in_map_iff in Htx as (b & <- & _).
  destruct Hs' as [<- | []]. eauto.
Qed.

Lemma expected_commits_split :
  expected_commits w
  = expected_inserts w ++ map (fun t => [RestartSeq t]) sequence_tables.
Proof. reflexivity. Qed.

(** The committed transactions of a run, whatever its outcome: a first part
    of the inserts, or all of them and a first part of the sequences. *)
Lemma per_batch_committed connector dbpath res st' :
  PerBatch.migrate w connector dbpath init = (res, st') ->
  (exists rest, expected_inserts w = committed st' ++ rest /\ res <> Ok tt) \/
  (exists n,
     committed st'
     = expected_inserts w ++ map (fun t => [RestartSeq t]) (take n sequence_tables) /\
     (res = Ok tt -> take n sequence_tables = sequence_tables)).
Proof.
  intros H. apply commits_per_batch_migrate in H as (_ & rest & Hc & Hrest).
  cbn [committed init app] in Hc. rewrite expected_commits_split in Hc.
  destruct (is_Ok res) eqn:Hok.
  { right. exists (length sequence_tables).
    rewrite (Hrest eq_refl), app_nil_r in Hc.
    rewrite firstn_all. split; [symmetry; exact Hc | reflexivity]. }
  assert (res <> Ok tt) as Hres by (intros ->; discriminate).
  apply app_eq_app in Hc as (l & [[Hi Hr] | [Hi Hr]]).
  - left. exists l. split; [exact Hi | exact Hres].
  - right. exists (length l). split; [| intros E; destruct (Hres E)].
    rewrite Hi. f_equal.
    apply (f_equal (take (length l))) in Hr.
    rewrite take_app_length in Hr. rewrite <- Hr at 1.
    apply firstn_map.
Qed.

End PerBatchDestination.

Section PerBatchLoaded.
Variable w : world.

Lemma destination_loaded st' ts :
  committed st' = expected_inserts w ++ map (fun t => [RestartSeq t]) ts ->
  (forall t,
     table_rows (destination w st') t
     = table_rows (exec_stmts w empty_database (concat (expected_inserts w))) t) /\
  (forall t, In t ts ->
     next_id (destination w st') t
     = Some (restart_value
               (table_rows (exec_stmts w empty_database
                              (concat (expected_inserts w))) t))) /\
  (forall t, ~ In t ts -> next_id (destination w st') t = None).
Proof.
  intros Hc. unfold destination.
  rewrite Hc, concat_app, concat_singletons, exec_stmts_app.
  split; [| split].
  - intros t.
    rewrite table_rows_exec_stmts by (rewrite batches_written_restarts; constructor).
    rewrite batches_written_restarts. apply app_nil_r.
  - intros t Ht.
    apply (proj1 (next_id_exec_restarts w ts
                    (exec_stmts w empty_database (concat (expected_inserts w))) t)),
      Ht.
  - intros t Ht.
    rewrite (proj2 (next_id_exec_restarts w ts
                      (exec_stmts w empty_database (concat (expected_inserts w))) t)
               Ht).
    rewrite next_id_inserts; [reflexivity |].
    apply (inserts_only w (expected_inserts w) []). symmetry. apply app_nil_r.
Qed.

End PerBatchLoaded.

(** X9.  What the per-batch driver leaves in an empty destination.
    Whatever the outcome of a run, each table of the list holds a first
    part of its source rows, in order, with the hotfix applied to the rows
    of [video_files], and a table that is not in the list holds nothing.
    When the run ends normally every listed table holds all of its rows and
    every listed sequence is restarted at one more than the largest [id] of
    its source table (at 1 when the table has none). *)
Theorem per_batch_destination (w : world) (connector dbpath : string)
    (res : outcome unit) (st' : state) :
  PerBatch.migrate w connector dbpath init = (res, st') ->
  (forall t, In t tables ->
     exists missing,
       PerBatch.repair t (source w t)
       = table_rows (destination w st') t ++ missing) /\
  (forall t, ~ In t tables -> table_rows (destination w st') t = []) /\
  (res = Ok tt ->
   (forall t, In t tables ->
      table_rows (destination w st') t = PerBatch.repair t (source w t)) /\
   (forall t, In t sequence_tables ->
      next_id (destination w st') t = Some (restart_value (source w t)))).
Proof.
  intros H.
  apply per_batch_committed in H as [(rest & Hi & Hres) | (n & Hc & Hn)].
  - assert (forall t,
              table_rows (exec_stmts w empty_database (concat (expected_inserts w))) t
              = table_rows (destination w st') t
                ++ concat (batches_written t (concat rest))) as Hsplit.
    { intros t. unfold destination.
      destruct (inserts_filled w _ _ t Hi) as [Hfill1 Hfill2].
      rewrite Hi, concat_app, exec_stmts_app.
      rewrite (table_rows_exec_stmts w (concat rest)) by exact Hfill2.
      rewrite table_rows_exec_stmts by exact Hfill1.
      reflexivity. }
    split; [| split].
    + intros t Ht. eexists. rewrite <- Hsplit.
      symmetry. apply (proj1 (loaded_rows w t) Ht).
    + intros t Ht. pose proof (proj2 (loaded_rows w t) Ht) as Hnone.
      rewrite Hsplit in Hnone. apply app_eq_nil in Hnone as [Hnone _].
      exact Hnone.
    + intros E. destruct (Hres E).
  - destruct (destination_loaded w st' _ Hc) as (Hrows & Hseq & _).
    split; [| split].
    + intros t Ht. exists []. rewrite app_nil_r, Hrows.
      symmetry. apply (proj1 (loaded_rows w t) Ht).
    + intros t Ht. rewrite Hrows. apply (proj2 (loaded_rows w t) Ht).
    + intros E. split.
      * intros t Ht. rewrite Hrows. apply (proj1 (loaded_rows w t) Ht).
      * intros t Ht. rewrite (Hn E) in Hseq. rewrite (Hseq t Ht).
        destruct (sequence_tables_plain t Ht) as [Hin Hne].
        rewrite (proj1 (loaded_rows w t) Hin).
        unfold PerBatch.repair. destruct (decide _); [congruence | reflexivity].
Qed.

Lemma per_batch_destination_witness :
  exists missing,
    PerBatch.repair "saved_filters" (sample_source "saved_filters")
    = table_rows (destination (sample_world sample_source (rejects "saved_filters"))
       (snd failed_run)) "saved_filters" ++ missing.
Proof.
  apply (proj1 (per_batch_destination
                  (sample_world sample_source (rejects "saved_filters"))
                  "postgres://stash@localhost/stash" "stash-go.sqlite"
                  (fst failed_run) (snd failed_run)
                  (surjective_pairing _))
           "saved_filters" saved_filters_in_tables).
Defined.

(** X10.  The per-batch driver restarts no sequence before every table is
    loaded: whatever the outcome of a run, if the destination has a
    sequence restarted then that sequence is a listed one, it is restarted
    at one more than the largest [id] of its source table, and every table
    of the list holds all of its rows. *)
Theorem per_batch_sequences_after_load (w : world) (connector dbpath : string)
    (res : outcome unit) (st' : state) (t : string) (v : Z) :
  PerBatch.migrate w connector dbpath init = (res, st') ->
  next_id (destination w st') t = Some v ->
  In t sequence_tables /\
  v = restart_value (source w t) /\
  forall t', In t' tables ->
    table_rows (destination w st') t' = PerBatch.repair t' (source w t').
Proof.
  intros H Hv.
  apply per_batch_committed in H as [(rest & Hi & Hres) | (n & Hc & Hn)].
  - exfalso. unfold destination in Hv.
    rewrite next_id_inserts in Hv by (apply (inserts_only w _ rest Hi)).
    discriminate.
  - destruct (destination_loaded w st' _ Hc) as (Hrows & Hseq & Hnot).
    destruct (in_dec string_dec t (take n sequence_tables)) as [Ht | Ht].
    2:{ rewrite (Hnot t Ht) in Hv. discriminate. }
    assert (In t sequence_tables) as Hin.
    { rewrite <- (take_drop n sequence_tables). apply in_or_app. left. exact Ht. }
    destruct (sequence_tables_plain t Hin) as [Hlisted Hne].
    split; [exact Hin |]. split.
    + rewrite (Hseq t Ht) in Hv. inversion Hv.
      rewrite (proj1 (loaded_rows w t) Hlisted).
      unfold PerBatch.repair. destruct (decide _); [congruence | reflexivity].
    + intros t' Ht'. rewrite Hrows. apply (proj1 (loaded_rows w t') Ht').
Qed.

Lemma per_batch_sequences_after_load_witness :
  In "folders" sequence_tables /\
  13%Z = restart_value (sample_source "folders") /\
  forall t', In t' tables ->
    table_rows (destination (sample_world sample_source no_failure)
       (snd per_batch_run)) t'
    = PerBatch.repair t' (sample_source t').
Proof.
  apply (per_batch_sequences_after_load
           (sample_world sample_source no_failure)
           "postgres://stash@localhost/stash" "stash-go.sqlite"
           (fst per_batch_run) (snd per_batch_run) "folders" 13%Z).
  - apply surjective_pairing.
  - vm_compute. reflexivity.
Defined.

(** ** Opening the two databases *)

Lemma append_assoc (a b c : string) : (a +:+ b) +:+ c = a +:+ b +:+ c.
Proof.
  induction a as [| x a IH]; [reflexivity |].
  change (String x ((a +:+ b) +:+ c) = String x (a +:+ b +:+ c)).
  rewrite IH. reflexivity.
Qed.

Lemma open_sqlite_call w path :
  open_sqlite w path
  = extcall w
      (SqlxOpen "sqlite3"
         ("file:" +:+ path
          +:+ "?_journal=WAL&_sync=NORMAL&_busy_timeout=50&_fk=true&mode=ro"))
      "db.Open()".
Proof.
  unfold open_sqlite. cbv zeta. cbn [negb]. rewrite !append_assoc. reflexivity.
Qed.

Lemma bind_step {A B} (m : M A) (k : A -> M B) st a st1 :
  m st = (Ok a, st1) -> bind m k st = k a st1.
Proof. intros H. unfold bind. rewrite H. reflexivity. Qed.

Section Opening.
Variable w : world.
Variables connector dbpath : string.

Lemma wrap_open_sqlite st :
  wrap "failed to open db" (open_sqlite w dbpath) st
  = (if fails w (calls st)
          (SqlxOpen "sqlite3"
             ("file:" +:+ dbpath
              +:+ "?_journal=WAL&_sync=NORMAL&_busy_timeout=50&_fk=true&mode=ro"))
     then Err "failed to open db: db.Open()" else Ok tt,
     record_calls
       [SqlxOpen "sqlite3"
          ("file:" +:+ dbpath
           +:+ "?_journal=WAL&_sync=NORMAL&_busy_timeout=50&_fk=true&mode=ro")]
       st).
Proof.
  rewrite open_sqlite_call. unfold wrap, extcall.
  destruct (fails w (calls st) _); reflexivity.
Qed.

Lemma wrap_open_pgsql st :
  wrap "failed to open db" (open_pgsql w connector) st
  = if fails w (calls st) (SqlxOpen "pgx" connector)
    then (Err "failed to open db: db.Open()",
          record_calls [SqlxOpen "pgx" connector] st)
    else (if fails w (S (calls st))
               (ConnExec "SET session_replication_role = replica;")
          then Err "failed to open db: conn.Exec()" else Ok tt,
          record_calls
            [SqlxOpen "pgx" connector;
             ConnExec "SET session_replication_role = replica;"] st).
Proof.
  unfold wrap, open_pgsql, bind, extcall. cbn [negb].
  destruct (fails w (calls st) _); [reflexivity |].
  unfold record_call. rewrite !record_calls_app.
  cbn [calls record_calls length Nat.add app].
  destruct (fails w (S (calls st)) _); reflexivity.
Qed.

End Opening.

(** X11.  How a run starts, in both drivers.  The source is opened first,
    read-only and with foreign keys enforced; then the destination, on
    which [session_replication_role] is set to [replica].  If one of these
    three calls fails, the run returns the error wrapped in "failed to open
    db" and has done nothing else: nothing is printed, logged, fetched or
    written, and the calls it made are these, in this order, up to the one
    that failed. *)
Theorem connection_failure_aborts (w : world) (connector dbpath : string)
    (st : state) :
  let sqlite :=
    SqlxOpen "sqlite3"
      ("file:" +:+ dbpath
       +:+ "?_journal=WAL&_sync=NORMAL&_busy_timeout=50&_fk=true&mode=ro") in
  let pgsql := SqlxOpen "pgx" connector in
  let replica := ConnExec "SET session_replication_role = replica;" in
  (fails w (calls st) sqlite = true ->
   MainGo.migrate w connector dbpath st
     = (Err "failed to open db: db.Open()", record_calls [sqlite] st) /\
   PerBatch.migrate w connector dbpath st
     = (Err "failed to open db: db.Open()", record_calls [sqlite] st)) /\
  (fails w (calls st) sqlite = false ->
   fails w (1 + calls st) pgsql = true ->
   MainGo.migrate w connector dbpath st
     = (Err "failed to open db: db.Open()",
        record_calls [sqlite; pgsql] st) /\
   PerBatch.migrate w connector dbpath st
     = (Err "failed to open db: db.Open()",
        record_calls [sqlite; pgsql] st)) /\
  (fails w (calls st) sqlite = false ->
   fails w (1 + calls st) pgsql = false ->
   fails w (2 + calls st) replica = true ->
   MainGo.migrate w connector dbpath st
     = (Err "failed to open db: conn.Exec()",
        record_calls [sqlite; pgsql; replica] st) /\
   PerBatch.migrate w connector dbpath st
     = (Err "failed to open db: conn.Exec()",
        record_calls [sqlite; pgsql; replica] st)).
Proof.
  intros sqlite pgsql replica. cbn [Nat.add].
  assert (forall r,
            (if fails w (calls st) sqlite then Err "failed to open db: db.Open()"
             else Ok tt) = r ->
            wrap "failed to open db" (open_sqlite w dbpath) st
            = (r, record_calls [sqlite] st)) as Hsqlite.
  { intros r <-. apply wrap_open_sqlite. }
  assert (wrap "failed to open db" (open_pgsql w connector)
            (record_calls [sqlite] st)
          = if fails w (S (calls st)) pgsql
            then (Err "failed to open db: db.Open()",
                  record_calls [sqlite; pgsql] st)
            else (if fails w (S (S (calls st))) replica
                  then Err "failed to open db: conn.Exec()" else Ok tt,
                  record_calls [sqlite; pgsql; replica] st)) as Hpgsql.
  { rewrite wrap_open_pgsql, !record_calls_app. reflexivity. }
  unfold MainGo.migrate, PerBatch.migrate.
  split; [| split].
  - intros H1. rewrite H1 in Hsqlite. specialize (Hsqlite _ eq_refl).
    rewrite !(bind_aborts _ _ _ _ _ Hsqlite eq_refl). split; reflexivity.
  - intros H1 H2. rewrite H1 in Hsqlite. specialize (Hsqlite _ eq_refl).
    rewrite H2 in Hpgsql.
    rewrite !(bind_step _ _ _ _ _ Hsqlite).
    rewrite !(bind_aborts _ _ _ _ _ Hpgsql eq_refl). split; reflexivity.
  - intros H1 H2 H3. rewrite H1 in Hsqlite. specialize (Hsqlite _ eq_refl).
    rewrite H2, H3 in Hpgsql.
    rewrite !(bind_step _ _ _ _ _ Hsqlite).
    rewrite !(bind_aborts _ _ _ _ _ Hpgsql eq_refl). split; reflexivity.
Qed.

(** ** The progress lines *)

Lemma prints_bind {A B} e1 e2 (m : M A) (k : A -> M B) :
  prints_prefix e1 m -> (forall a, prints_prefix e2 (k a)) ->
  prints_prefix (e1 ++ e2) (bind m k).
Proof.
  intros Hm Hk st res st' H.
  apply bind_inv in H as [(a & st1 & H1 & H2) | (r0 & H1 & Hr0 & ->)].
  - apply Hm in H1 as (rest1 & E1 & Hok1).
    rewrite (Hok1 eq_refl), app_nil_r in E1.
    apply Hk in H2 as (rest2 & E2 & Hok2).
    exists rest2. split; [| exact Hok2].
    rewrite app_assoc, E1. exact E2.
  - apply Hm in H1 as (rest1 & E1 & _).
    exists (rest1 ++ e2). split.
    + rewrite !app_assoc, E1. reflexivity.
    + rewrite failure_not_Ok. discriminate.
Qed.

Lemma prints_none {A} (m : M A) :
  (forall st res st', m st = (res, st') -> stdout st' = stdout st) ->
  prints_prefix [] m.
Proof.
  intros Hm st res st' H. exists []. rewrite (Hm _ _ _ H). auto.
Qed.

Lemma prints_for_range {A} (e : A -> list string) (xs : list A)
    (body : A -> M unit) :
  (forall x, prints_prefix (e x) (body x)) ->
  prints_prefix (flat_map e xs) (for_range xs body).
Proof.
  intros Hb. induction xs as [| x xs IH]; simpl.
  - apply prints_none. intros st res st' H. apply ret_inv in H as [_ ->].
    reflexivity.
  - apply prints_bind; auto.
Qed.

Lemma prints_wrap {A} e msg (m : M A) :
  prints_prefix e m -> prints_prefix e (wrap msg m).
Proof.
  intros Hm st res st' H. unfold wrap in H.
  destruct (m st) as [r0 s0] eqn:Hrun.
  destruct (Hm _ _ _ Hrun) as (rest & E & Hok).
  destruct r0; inversion H; subst; exists rest; split; auto; discriminate.
Qed.

Lemma prints_Printf line : prints_prefix [line] (Printf line).
Proof.
  intros st res st' H. apply Printf_extends in H as [-> (E & _)].
  exists []. rewrite E, app_nil_r. auto.
Qed.

Section Progress.
Variable w : world.

Lemma prints_extcall c msg : prints_prefix [] (extcall w c msg).
Proof.
  apply prints_none. intros st res st' H. apply extcall_inv in H as [-> _].
  reflexivity.
Qed.

Lemma prints_open_sqlite path : prints_prefix [] (open_sqlite w path).
Proof. apply prints_extcall. Qed.

Lemma prints_open_pgsql connector : prints_prefix [] (open_pgsql w connector).
Proof.
  unfold open_pgsql.
  apply (prints_bind [] []); [apply prints_extcall |]. intros _.
  apply (prints_bind [] []); [apply prints_extcall |]. intros _.
  apply prints_none. intros st res st' H. apply ret_inv in H as [_ ->].
  reflexivity.
Qed.

Lemma prints_dest_BeginTxx msg : prints_prefix [] (dest_BeginTxx w msg).
Proof.
  apply prints_none. intros st res st' H.
  apply dest_BeginTxx_inv in H as (_ & E & _). exact E.
Qed.

Lemma prints_dest_ExecContext s msg : prints_prefix [] (dest_ExecContext w s msg).
Proof.
  apply prints_none. intros st res st' H.
  apply dest_ExecContext_inv in H as (_ & E & _). exact E.
Qed.

Lemma prints_dest_QueryxContext s msg :
  prints_prefix [] (dest_QueryxContext w s msg).
Proof.
  apply prints_none. intros st res st' H.
  apply dest_QueryxContext_inv in H as (_ & E & _). exact E.
Qed.

Lemma prints_dest_Commit msg : prints_prefix [] (dest_Commit w msg).
Proof.
  apply prints_none. intros st res st' H.
  apply dest_Commit_inv in H as (E & _). exact E.
Qed.

Lemma prints_fetch P table offset :
  prints_prefix [] (MainGo.fetch w P table offset).
Proof.
  apply prints_none. intros st res st' H.
  apply fetch_inv in H as (rd & (E & _) & _). rewrite E. apply app_nil_r.
Qed.

Lemma prints_main_migrate_table P table :
  prints_prefix ["Fetching " +:+ table] (MainGo.migrate_table w P table).
Proof.
  intros st res st' H.
  apply migrate_table_inv in H as (lg & rd & tx & (E & _) & _).
  exists []. rewrite E, app_nil_r. auto.
Qed.

Lemma prints_per_batch_fetch P table offset :
  prints_prefix [] (PerBatch.fetch w P table offset).
Proof.
  unfold PerBatch.fetch.
  apply (prints_bind [] []); [apply prints_extcall |]. intros _.
  apply (prints_fetch P table offset).
Qed.

Lemma prints_per_batch_insert table b :
  prints_prefix [] (PerBatch.insert w table b).
Proof.
  unfold PerBatch.insert.
  apply (prints_bind [] []); [apply prints_dest_BeginTxx |]. intros _.
  apply (prints_bind [] []); [apply prints_extcall |]. intros _.
  apply (prints_bind [] []); [apply prints_dest_ExecContext |]. intros _.
  apply prints_dest_Commit.
Qed.

Lemma prints_per_batch_table_loop P table fuel offset :
  prints_prefix [] (PerBatch.table_loop w fuel P table offset).
Proof.
  revert offset. induction fuel as [| fuel IH]; intros offset.
  - apply prints_none. intros st res st' H. inversion H. reflexivity.
  - cbn [PerBatch.table_loop].
    apply (prints_bind [] []); [apply prints_per_batch_fetch |].
    intros [| r b].
    + apply prints_none. intros st res st' H. apply ret_inv in H as [_ ->].
      reflexivity.
    + apply (prints_bind [] []); [apply prints_per_batch_insert |].
      intros _. apply IH.
Qed.

Lemma prints_per_batch_migrate_table P table :
  prints_prefix ["Fetching " +:+ table] (PerBatch.migrate_table w P table).
Proof.
  unfold PerBatch.migrate_table.
  apply (prints_bind [_] []); [apply prints_Printf |]. intros _.
  apply prints_per_batch_table_loop.
Qed.

Lemma prints_restart_sequence table_name :
  prints_prefix [] (PerBatch.restart_sequence w table_name).
Proof.
  unfold PerBatch.restart_sequence.
  apply (prints_bind [] []); [apply prints_dest_BeginTxx |]. intros _.
  apply (prints_bind [] []); [apply prints_dest_QueryxContext |]. intros _.
  apply prints_dest_Commit.
Qed.

Lemma prints_main_go connector dbpath :
  prints_prefix progress_lines (MainGo.migrate w connector dbpath).
Proof.
  unfold MainGo.migrate, progress_lines.
  apply (prints_bind [] _);
    [apply prints_wrap, prints_open_sqlite |]. intros _.
  apply (prints_bind [] _);
    [apply prints_wrap, prints_open_pgsql |]. intros _.
  apply (prints_bind [] _); [apply prints_extcall |]. intros _.
  apply (prints_bind [] _); [apply prints_dest_BeginTxx |]. intros _.
  apply (prints_bind (flat_map (fun t => ["Fetching " +:+ t]) tables)
           ["Setting sequences..."]).
  { apply prints_for_range. intros t. apply prints_main_migrate_table. }
  intros _.
  apply (prints_bind ["Setting sequences..."] []); [apply prints_Printf |].
  intros _.
  apply (prints_bind (flat_map (fun _ => []) sequence_tables) []).
  { apply prints_for_range. intros t. apply prints_dest_ExecContext. }
  intros _.
  apply (prints_bind [] []); [apply prints_dest_Commit |]. intros _.
  apply (prints_bind [] []); [apply prints_extcall |]. intros _.
  apply prints_extcall.
Qed.

Lemma prints_per_batch connector dbpath :
  prints_prefix progress_lines (PerBatch.migrate w connector dbpath).
Proof.
  unfold PerBatch.migrate, progress_lines.
  apply (prints_bind [] _);
    [apply prints_wrap, prints_open_sqlite |]. intros _.
  apply (prints_bind [] _);
    [apply prints_wrap, prints_open_pgsql |]. intros _.
  apply (prints_bind (flat_map (fun t => ["Fetching " +:+ t]) tables)
           ["Setting sequences..."]).
  { apply prints_for_range. intros t. apply prints_per_batch_migrate_table. }
  intros _.
  apply (prints_bind [] _); [apply prints_extcall |]. intros _.
  apply (prints_bind ["Setting sequences..."] []); [apply prints_Printf |].
  intros _.
  apply (prints_bind (flat_map (fun _ => []) sequence_tables) []).
  { apply prints_for_range. intros t. apply prints_restart_sequence. }
  intros _. apply prints_extcall.
Qed.

End Progress.

(** X12.  The progress lines of a run, in both drivers: whatever the
    outcome, what the run has printed is a first part of the fixed sequence
    "Fetching <table>", one line per table in the order of the list,
    followed by "Setting sequences..."; a run that ends normally has
    printed all of it, and [migrate] prints nothing else. *)
Theorem progress_output (w : world) (connector dbpath : string)
    (st : state) (res : outcome unit) (st' : state) :
  MainGo.migrate w connector dbpath st = (res, st') \/
  PerBatch.migrate w connector dbpath st = (res, st') ->
  exists rest,
    stdout st ++ progress_lines = stdout st' ++ rest /\
    (res = Ok tt -> rest = []).
Proof.
  intros [H | H].
  - apply prints_main_go in H as (rest & E & Hok).
    exists rest. split; [exact E |]. intros ->. apply Hok. reflexivity.
  - apply prints_per_batch in H as (rest & E & Hok).
    exists rest. split; [exact E |]. intros ->. apply Hok. reflexivity.
Qed.

Lemma progress_output_witness :
  last (stdout (snd failed_run)) = Some "Fetching saved_filters" /\
  exists rest,
    stdout init ++ progress_lines = stdout (snd failed_run) ++ rest /\
    (fst failed_run = Ok tt -> rest = []).
Proof.
  split; [vm_compute; reflexivity |].
  apply (progress_output (sample_world sample_source (rejects "saved_filters"))
           "postgres://stash@localhost/stash" "stash-go.sqlite"
           init (fst failed_run) (snd failed_run)).
  right. apply surjective_pairing.
Defined.

(** ** A page the JSON rule empties *)

(** X13.  [main.go] tests for the end of a table on the batch it fetched,
    before the rules run.  When the JSON rule drops every row of a page of
    [saved_filters], one diagnostic per row is logged, and the insert
    statement is still built and executed, on the empty batch.  (What the
    SQL builder makes of an insert without rows is not the program's to
    decide.)  The two calls to the outside are the statement's construction
    and its execution. *)
Theorem emptied_page_is_still_inserted (w : world) (b : batch) (st : state) :
  Forall (fun r => json_ok w r = false) b ->
  exists lg,
    length lg = length b /\ filter is_skip lg = lg /\
    MainGo.repair w "saved_filters" b st
      = (Ok [], set_logged (logged st ++ lg) st) /\
    (fails w (calls st) (InsertToSQL "saved_filters" []) = false ->
     fails w (S (calls st)) (DestExec (Insert "saved_filters" [])) = false ->
     MainGo.insert w "saved_filters" b st
       = (Ok tt,
          set_txn (txn st ++ [Insert "saved_filters" []])
            (record_calls
               [InsertToSQL "saved_filters" [];
                DestExec (Insert "saved_filters" [])]
               (set_logged (logged st ++ lg) st)))).
Proof.
  intros Hbad.
  destruct (keep_valid_spec w b [] st) as (lg & Hrun & Hdiag & Hskip).
  assert (filter (fun r => json_ok w r = true) b = []) as Hnone.
  { apply filter_none. eapply Forall_impl; [exact Hbad |].
    intros r Hr. rewrite Hr. discriminate. }
  assert (filter (fun r => json_ok w r = false) b = b) as Hall
    by (apply filter_all_true, Hbad).
  rewrite Hnone in Hrun. rewrite Hall in Hdiag. cbn [app] in Hrun.
  rewrite <- repair_saved_filters in Hrun.
  exists lg. split; [symmetry; apply (Forall2_length _ _ _ Hdiag) |].
  split; [exact Hskip |]. split; [exact Hrun |].
  intros H1 H2. unfold MainGo.insert.
  rewrite (bind_step _ _ _ _ _ Hrun).
  unfold dest_ExecContext, bind, extcall. cbn [calls set_logged].
  rewrite H1. unfold record_call.
  cbn [calls set_logged record_calls length Nat.add].
  rewrite H2. unfold set_txn, record_calls. simpl.
  rewrite <- app_assoc. reflexivity.
Qed.

Lemma emptied_page_is_still_inserted_witness :
  exists lg,
    length lg = 1 /\ filter is_skip lg = lg /\
    MainGo.repair (sample_world sample_source no_failure) "saved_filters"
      [twice_broken] init
      = (Ok [], set_logged (logged init ++ lg) init) /\
    (no_failure (calls init) (InsertToSQL "saved_filters" []) = false ->
     no_failure (S (calls init)) (DestExec (Insert "saved_filters" [])) = false ->
     MainGo.insert (sample_world sample_source no_failure) "saved_filters"
       [twice_broken] init
       = (Ok tt,
          set_txn (txn init ++ [Insert "saved_filters" []])
            (record_calls
               [InsertToSQL "saved_filters" [];
                DestExec (Insert "saved_filters" [])]
               (set_logged (logged init ++ lg) init)))).
Proof.
  apply (emptied_page_is_still_inserted
           (sample_world sample_source no_failure) [twice_broken] init).
  constructor; [vm_compute; reflexivity | constructor].
Defined.

(** ** The two drivers side by side *)

Section SideBySide.
Variable w : world.

Lemma per_batch_Ok_destination connector dbpath st' :
  PerBatch.migrate w connector dbpath init = (Ok tt, st') ->
  (forall t, In t tables ->
     table_rows (destination w st') t = PerBatch.repair t (source w t)) /\
  (forall t, ~ In t tables -> table_rows (destination w st') t = []) /\
  (forall t, In t sequence_tables ->
     next_id (destination w st') t
     = Some (restart_value (table_rows (destination w st') t))).
Proof.
  intros H.
  apply per_batch_committed in H as [(rest & _ & Hres) | (n & Hc & Hn)];
    [destruct (Hres eq_refl) |].
  rewrite (Hn eq_refl) in Hc.
  destruct (destination_loaded w st' _ Hc) as (Hrows & Hseq & _).
  split; [| split].
  - intros t Ht. rewrite Hrows. apply (proj1 (loaded_rows w t) Ht).
  - intros t Ht. rewrite Hrows. apply (proj2 (loaded_rows w t) Ht).
  - intros t Ht. rewrite Hrows. apply (Hseq t Ht).
Qed.

Lemma main_go_settled_rows connector dbpath st' :
  Forall (settled w) (source w "scene_markers") ->
  MainGo.migrate w connector dbpath init = (Ok tt, st') ->
  table_rows (destination w st') "scene_markers" = source w "scene_markers".
Proof.
  intros Hs H.
  assert (forall table b st wb st1,
            MainGo.repair w table b st = (Ok wb, st1) ->
            table = "scene_markers" -> Forall (settled w) b -> wb = b) as Hrule.
  { intros table b st wb st1 Hrun -> Hb.
    rewrite repair_scene_markers, for_rows_fixed in Hrun.
    - inversion Hrun. reflexivity.
    - eapply Forall_impl; [exact Hb |]. intros r Hr. apply settled_row, Hr. }
  pose proof (main_go_related w _ Hrule connector dbpath st' H
                "scene_markers" scene_markers_in_tables) as (wbs & Hrows & HR).
  assert (0 < 1000) as Hpos by lia.
  rewrite <- (concat_pages 1000 (source w "scene_markers") Hpos) in Hs.
  apply Forall_concat in Hs.
  assert (wbs = pages 1000 (source w "scene_markers")) as ->.
  { clear Hrows. induction HR as [| b wb bs wbs Hb _ IH]; [reflexivity |].
    apply Forall_cons in Hs as [Hb' Hs].
    rewrite (Hb eq_refl Hb'), (IH Hs). reflexivity. }
  rewrite Hrows, stored_filled by apply pages_filled.
  apply (concat_pages 1000 _ Hpos).
Qed.

End SideBySide.

(** X14.  The two drivers side by side.  On a source whose saved filters
    all hold well-formed JSON and whose scene markers all hold timestamps
    the destination accepts, so that no rule of [main.go] but the hotfix
    has anything to do, a normal run of [main.go] and a normal run of the
    per-batch driver leave the same rows in every table and restart every
    listed sequence at the same value: the drivers then differ by their
    transactions only. *)
Theorem drivers_agree (w : world) (connector dbpath : string)
    (st1 st2 : state) :
  Forall (fun r => json_ok w r = true) (source w "saved_filters") ->
  Forall (settled w) (source w "scene_markers") ->
  MainGo.migrate w connector dbpath init = (Ok tt, st1) ->
  PerBatch.migrate w connector dbpath init = (Ok tt, st2) ->
  (forall t, table_rows (destination w st1) t = table_rows (destination w st2) t) /\
  (forall t, In t sequence_tables ->
     next_id (destination w st1) t = next_id (destination w st2) t).
Proof.
  intros Hjson Htime H1 H2.
  destruct (per_batch_Ok_destination w _ _ _ H2) as (Hin2 & Hout2 & Hseq2).
  assert (forall t, table_rows (destination w st1) t = table_rows (destination w st2) t)
    as Hrows.
  { intros t. destruct (in_dec string_dec t tables) as [Ht | Ht].
    2:{ rewrite (Hout2 t Ht).
        apply (unlisted_table_not_migrated w _ _ _ t H1 Ht). }
    rewrite (Hin2 t Ht).
    destruct (decide (t = "scene_markers")) as [-> | Hne].
    { rewrite (main_go_settled_rows w _ _ _ Htime H1).
      unfold PerBatch.repair. names; reflexivity. }
    rewrite (main_go_exact_filled w _ _ _ t H1 Ht Hne).
    2:{ destruct (decide (t = "saved_filters")) as [-> | N3];
          [| apply pages_expected_filled, N3].
        pose proof (pages_filled 1000 (source w "saved_filters")) as Hfill.
        assert (Forall (Forall (fun r => json_ok w r = true))
                  (pages 1000 (source w "saved_filters"))) as Hok.
        { apply Forall_concat. rewrite concat_pages by lia. exact Hjson. }
        rewrite List.Forall_forall in Hfill, Hok.
        apply List.Forall_forall. intros b Hb.
        unfold expected_rows. names.
        rewrite filter_all_true by (apply Hok, Hb). apply Hfill, Hb. }
    unfold expected_rows, PerBatch.repair.
    destruct (decide (t = "video_files")); [reflexivity |].
    destruct (decide (t = "saved_filters")) as [-> |]; [| reflexivity].
    apply filter_all_true, Hjson. }
  split; [exact Hrows |].
  intros t Ht. rewrite (Hseq2 t Ht), <- Hrows.
  destruct (main_destination w _ _ _ H1) as (ins & _ & Hseq1 & _).
  apply (Hseq1 t Ht).
Qed.

Lemma drivers_agree_witness :
  (forall t, table_rows (destination (sample_world clean_source no_failure)
       (snd clean_main_run)) t
             = table_rows (destination (sample_world clean_source no_failure)
       (snd clean_per_batch_run)) t) /\
  (forall t, In t sequence_tables ->
     next_id (destination (sample_world clean_source no_failure)
       (snd clean_main_run)) t
     = next_id (destination (sample_world clean_source no_failure)
       (snd clean_per_batch_run)) t).
Proof.
  apply (drivers_agree (sample_world clean_source no_failure)
           "postgres://stash@localhost/stash" "stash-go.sqlite").
  - constructor; [vm_compute; reflexivity | constructor].
  - constructor.
  - vm_compute. reflexivity.
  - vm_compute. reflexivity.
Defined.

(** ** What a failed run of the per-batch driver leaves behind *)

Lemma concat_take_pages {A} (P : nat) (l : list A) (k : nat) :
  0 < P -> concat (take k (pages P l)) = take (k * P) l.
Proof.
  intros HP. revert l. induction k as [| k IH]; intros l; [reflexivity |].
  destruct (take P l) as [| x b] eqn:Hpage.
  - rewrite (pages_nil P l Hpage).
    apply take_nil_inv in Hpage as [-> | ->]; [lia |].
    rewrite !take_nil. reflexivity.
  - assert (take P l <> []) as Hne by (rewrite Hpage; discriminate).
    rewrite (pages_cons P l Hne). cbn [take concat].
    change (firstn k) with (@take (list A) k). rewrite IH.
    change (S k * P) with (P + k * P).
    destruct (Nat.le_gt_cases P (length l)) as [Hle | Hgt].
    + rewrite <- (take_drop P l) at 3.
      rewrite take_app_add'; [reflexivity |].
      rewrite length_take. lia.
    + rewrite (take_ge l P) by lia. rewrite (drop_ge l P) by lia.
      rewrite take_nil, app_nil_r. symmetry. apply take_ge. lia.
Qed.

Lemma no_rows_of_others t (l : list stmt) :
  (forall s, In s l -> exists t' b, s = Insert t' b /\ t' <> t) ->
  batches_written t l = [].
Proof.
  induction l as [| s l IH]; intros Hl; [reflexivity |].
  rewrite batches_written_cons, IH by (intros s' Hs'; apply Hl; right; exact Hs').
  destruct (Hl s (or_introl eq_refl)) as (t' & b & -> & Hne).
  destruct (decide (t' = t)); [contradiction | reflexivity].
Qed.

Section PerBatchPartial.
Variable w : world.

(** The insert transactions of a list of tables. *)
Lemma stmts_of_inserts ts s :
  In s (concat (flat_map
                  (fun t => map (fun b => [Insert t (PerBatch.repair t b)])
                                (pages 1000 (source w t)))
                  ts)) ->
  exists t b, s = Insert t b /\ In t ts.
Proof.
  intros Hin. apply in_concat in Hin as (tx & Htx & Hs).
  apply in_flat_map in Htx as (t & Ht & Htx).
  apply in_map_iff in Htx as (b & <- & _).
  destruct Hs as [<- | []]. eauto.
Qed.

Lemma written_of_page_inserts t t' (bs : list batch) :
  batches_written t
    (concat (map (fun b => [Insert t' (PerBatch.repair t' b)]) bs))
  = if decide (t' = t) then map (PerBatch.repair t') bs else [].
Proof.
  rewrite concat_singletons.
  induction bs as [| b bs IH]; simpl map.
  - destruct (decide _); reflexivity.
  - rewrite batches_written_cons, IH.
    destruct (decide (t' = t)); reflexivity.
Qed.

Lemma written_of_inserts t ts :
  batches_written t
    (concat (flat_map
               (fun t' => map (fun b => [Insert t' (PerBatch.repair t' b)])
                              (pages 1000 (source w t')))
               ts))
  = flat_map (fun t' => if decide (t' = t)
                        then map (PerBatch.repair t') (pages 1000 (source w t'))
                        else []) ts.
Proof.
  induction ts as [| t' ts IH]; [reflexivity |].
  cbn [flat_map]. rewrite concat_app, batches_written_app, IH.
  f_equal. apply written_of_page_inserts.
Qed.

Lemma written_loaded t :
  In t tables ->
  batches_written t (concat (expected_inserts w))
  = map (PerBatch.repair t) (pages 1000 (source w t)).
Proof.
  intros Ht. unfold expected_inserts. rewrite written_of_inserts.
  rewrite (flat_map_single _ t tables tables_NoDup Ht).
  - destruct (decide (t = t)); [reflexivity | congruence].
  - intros t' Hne. destruct (decide (t' = t)); [congruence | reflexivity].
Qed.

End PerBatchPartial.

(** X15.  The per-batch driver loads whole pages.  Whatever the outcome of
    a run, each table of the list holds in the destination the rows of a
    whole number of pages of its source table, from the first on, with the
    hotfix applied to [video_files]: the number of rows a table holds is
    the offset at which its load stopped. *)
Theorem per_batch_whole_pages (w : world) (connector dbpath : string)
    (res : outcome unit) (st' : state) (t : string) :
  PerBatch.migrate w connector dbpath init = (res, st') ->
  In t tables ->
  exists k,
    table_rows (destination w st') t
    = PerBatch.repair t (take (k * 1000) (source w t)).
Proof.
  intros H Ht.
  apply per_batch_committed in H as [(rest & Hi & _) | (n & Hc & _)].
  - pose proof (written_loaded w t Ht) as Hall.
    rewrite Hi, concat_app, batches_written_app in Hall.
    exists (length (batches_written t (concat (committed st')))).
    unfold destination.
    rewrite table_rows_exec_stmts by (apply (inserts_filled w _ rest t Hi)).
    cbn [table_rows empty_database app].
    apply (f_equal (take (length (batches_written t (concat (committed st'))))))
      in Hall.
    rewrite take_app_length in Hall. rewrite Hall at 1.
    change (@take batch) with (@firstn batch).
    rewrite firstn_map, per_batch_repair_concat.
    change (@firstn batch) with (@take batch).
    rewrite concat_take_pages by lia. reflexivity.
  - destruct (destination_loaded w st' _ Hc) as (Hrows & _).
    exists (length (source w t)).
    rewrite Hrows, (proj1 (loaded_rows w t) Ht), take_ge by lia. reflexivity.
Qed.

Lemma per_batch_whole_pages_witness :
  exists k,
    table_rows (destination (sample_world sample_source (rejects "saved_filters"))
       (snd failed_run)) "folders"
    = PerBatch.repair "folders" (take (k * 1000) (sample_source "folders")).
Proof.
  apply (per_batch_whole_pages
           (sample_world sample_source (rejects "saved_filters"))
           "postgres://stash@localhost/stash" "stash-go.sqlite"
           (fst failed_run) (snd failed_run) "folders").
  - apply surjective_pairing.
  - unfold tables. do 3 right. left. reflexivity.
Defined.

(** X16.  The per-batch driver loads the tables in the order of its list.
    Whatever the outcome of a run, if a table holds a row in the
    destination then every table before it in the list holds all of its
    rows: after a failure the tables before the last one that holds rows
    are complete, and the tables after it are empty. *)
Theorem per_batch_tables_in_order (w : world) (connector dbpath : string)
    (res : outcome unit) (st' : state) (pre post : list string)
    (t1 t2 : string) :
  PerBatch.migrate w connector dbpath init = (res, st') ->
  tables = pre ++ t1 :: post ->
  In t2 post ->
  table_rows (destination w st') t2 <> [] ->
  table_rows (destination w st') t1 = PerBatch.repair t1 (source w t1).
Proof.
  intros H Htables Ht2 Hrows2.
  assert (tables = (pre ++ [t1]) ++ post) as Htables'.
  { rewrite Htables, <- app_assoc. reflexivity. }
  assert (In t1 (pre ++ [t1])) as Hlast.
  { apply in_or_app. right. left. reflexivity. }
  assert (In t1 tables) as Ht1.
  { rewrite Htables'. apply in_or_app. left. exact Hlast. }
  pose proof tables_NoDup as Hnd. rewrite Htables' in Hnd.
  apply NoDup_app in Hnd as (Hnd1 & Hdisj & _).
  assert (~ In t2 (pre ++ [t1])) as Hfresh2.
  { intros Hin. apply (Hdisj t2); apply list_elem_of_In; assumption. }
  assert (~ In t1 post) as Hfresh1.
  { intros Hin. apply (Hdisj t1); apply list_elem_of_In; assumption. }
  apply per_batch_committed in H as [(rest & Hi & _) | (n & Hc & _)].
  2:{ destruct (destination_loaded w st' _ Hc) as (Hrows & _).
      rewrite Hrows. apply (proj1 (loaded_rows w t1) Ht1). }
  assert (expected_inserts w
          = flat_map (fun t => map (fun b => [Insert t (PerBatch.repair t b)])
                                   (pages 1000 (source w t))) (pre ++ [t1])
            ++ flat_map (fun t => map (fun b => [Insert t (PerBatch.repair t b)])
                                      (pages 1000 (source w t))) post) as Hsplit.
  { unfold expected_inserts. rewrite Htables', flat_map_app. reflexivity. }
  assert (forall t, Forall (fun b => b <> [])
                      (batches_written t (concat (committed st')))) as Hfill.
  { intros t. apply (inserts_filled w _ rest t Hi). }
  rewrite Hsplit in Hi.
  apply app_eq_app in Hi as (l & [[Hi Hr] | [Hi Hr]]).
  - (* the load stopped at or before [t1]: nothing of [t2] is in *)
    exfalso. apply Hrows2.
    unfold destination. rewrite table_rows_exec_stmts by apply Hfill.
    cbn [table_rows empty_database app].
    rewrite no_rows_of_others; [reflexivity |].
    intros s Hs.
    assert (In s (concat (flat_map
                            (fun t => map (fun b => [Insert t (PerBatch.repair t b)])
                                          (pages 1000 (source w t)))
                            (pre ++ [t1])))) as Hin.
    { rewrite Hi, concat_app. apply in_or_app. left. exact Hs. }
    apply stmts_of_inserts in Hin as (t' & b & -> & Ht').
    exists t', b. split; [reflexivity |]. intros ->. contradiction.
  - (* the load went past [t1]: all of [t1] is in *)
    unfold destination. rewrite table_rows_exec_stmts by apply Hfill.
    cbn [table_rows empty_database app].
    rewrite Hi, concat_app, batches_written_app, concat_app.
    rewrite (no_rows_of_others t1 (concat l)).
    + rewrite rows_of_inserts, app_nil_r.
      rewrite (flat_map_single _ t1 (pre ++ [t1]) Hnd1 Hlast).
      * destruct (decide (t1 = t1)); [reflexivity | congruence].
      * intros t' Hne. destruct (decide (t' = t1)); [congruence | reflexivity].
    + intros s Hs.
      assert (In s (concat (flat_map
                              (fun t => map (fun b => [Insert t (PerBatch.repair t b)])
                                            (pages 1000 (source w t)))
                              post))) as Hin.
      { rewrite Hr, concat_app. apply in_or_app. left. exact Hs. }
      apply stmts_of_inserts in Hin as (t' & b & -> & Ht').
      exists t', b. split; [reflexivity |]. intros ->. contradiction.
Qed.

Lemma per_batch_tables_in_order_witness :
  table_rows (destination (sample_world sample_source no_failure)
       (snd per_batch_run)) "folders"
  = PerBatch.repair "folders" (sample_source "folders").
Proof.
  apply (per_batch_tables_in_order
           (sample_world sample_source no_failure)
           "postgres://stash@localhost/stash" "stash-go.sqlite"
           (fst per_batch_run) (snd per_batch_run)
           (take 3 tables) (drop 4 tables) "folders" "video_files").
  - apply surjective_pairing.
  - reflexivity.
  - vm_compute. tauto.
  - vm_compute. discriminate.
Defined.
